(** * Yield-curve deformation simulator: curve, shocks, bond pricer, risk

    A shallow embedding of [src/curve.py] and [src/bond.py].

    Numbers.  The program computes in IEEE binary64.  The embedding reads
    every float as the real number it stands for and every operation as the
    exact operation on [R]; rounding error, overflow, signed zeros and the
    values [nan] and [inf] are outside the model.  Where float64 would leave
    the reals (a division by zero inside numpy, a negative base under a
    fractional exponent) the definition says so in its comment, and the
    theorems that speak about values carry the hypothesis that keeps the
    computation inside the reals.

    Exceptions.  A Python call either returns or raises; the embedding
    returns a [result], with the exception class as the error.

    Libraries.  [numpy] and [scipy] are not part of the repository.  The few
    functions the program calls ([np.diff], [np.interp], [CubicSpline], ...)
    are given by their documented behaviour in modules [np] and [scipy]. *)

From Stdlib Require Import Reals Lra Lia String Ascii ZArith Bool Arith List.
From Stdlib Require Import Permutation Sorted.
Import ListNotations.
Open Scope R_scope.

(** ** Python exceptions and calls that may raise *)

Inductive exn : Type :=
| ValueError (msg : string)
| IndexError (msg : string)
| TypeError (msg : string)
| ZeroDivisionError (msg : string).

Inductive result (A : Type) : Type :=
| Ok (a : A)
| Raise (e : exn).

Arguments Ok {A} a.
Arguments Raise {A} e.

Definition bind {A B : Type} (m : result A) (k : A -> result B) : result B :=
  match m with
  | Ok a => k a
  | Raise e => Raise e
  end.

Notation "x <- m ;; k" := (bind m (fun x => k))
  (at level 61, m at next level, right associativity).

(** [mapM f xs]: a list comprehension whose body may raise; the elements are
    evaluated left to right and the first exception ends the evaluation. *)
Fixpoint mapM {A B : Type} (f : A -> result B) (xs : list A) : result (list B) :=
  match xs with
  | [] => Ok []
  | a :: xs' => b <- f a ;; bs <- mapM f xs' ;; Ok (b :: bs)
  end.

Definition is_ValueError {A : Type} (r : result A) : Prop :=
  exists msg, r = Raise (ValueError msg).

Definition returns {A : Type} (r : result A) : Prop :=
  exists a, r = Ok a.

(** Comparisons of floats as booleans. *)
Definition Rltb (a b : R) : bool := if Rlt_dec a b then true else false.
Definition Rleb (a b : R) : bool := if Rle_dec a b then true else false.
Definition Reqb (a b : R) : bool := if Req_dec_T a b then true else false.

(** ** numpy *)

Module np.

(** [np.diff(a)]: the differences of neighbours, [a[i+1] - a[i]]. *)
Fixpoint diff (a : list R) : list R :=
  match a with
  | a0 :: ((a1 :: _) as rest) => (a1 - a0) :: diff rest
  | _ => []
  end.

(** [np.any(mask)]. *)
Definition any (mask : list bool) : bool := existsb (fun b => b) mask.

(** [a[0]] and [a[-1]] on a one-dimensional array. *)
Definition first (a : list R) : result R :=
  match a with
  | [] => Raise (IndexError "index 0 is out of bounds for axis 0 with size 0")
  | a0 :: _ => Ok a0
  end.

Fixpoint last_of (a0 : R) (rest : list R) : R :=
  match rest with
  | [] => a0
  | a1 :: rest' => last_of a1 rest'
  end.

Definition last (a : list R) : result R :=
  match a with
  | [] => Raise (IndexError "index -1 is out of bounds for axis 0 with size 0")
  | a0 :: rest => Ok (last_of a0 rest)
  end.

(** Elementwise operations.  [scale k a] is [k * a], [shift a k] is [a + k]
    and [a - k] is [shift a (- k)], with a scalar [k]. *)
Definition scale (k : R) (a : list R) : list R := map (fun v => k * v) a.
Definition shift (a : list R) (k : R) : list R := map (fun v => v + k) a.

Fixpoint map2 (f : R -> R -> R) (a b : list R) : list R :=
  match a, b with
  | u :: a', v :: b' => f u v :: map2 f a' b'
  | _, _ => []
  end.

(** [a + b], [a - b], [a * b] on two arrays: elementwise when the lengths
    agree, a length-one array is broadcast, any other pair raises. *)
Definition broadcast (f : R -> R -> R) (a b : list R) : result (list R) :=
  if Nat.eqb (length a) (length b) then Ok (map2 f a b)
  else match a, b with
       | [u], _ => Ok (map (fun v => f u v) b)
       | _, [v] => Ok (map (fun u => f u v) a)
       | _, _ => Raise (ValueError "operands could not be broadcast together")
       end.

Definition add := broadcast Rplus.
Definition sub := broadcast Rminus.
Definition mul := broadcast Rmult.

(** [np.sum(a)], [a.mean()], [a.max()]. *)
Definition sum (a : list R) : R := fold_right Rplus 0 a.

Definition mean (a : list R) : R := sum a / INR (length a).

Definition max (a : list R) : result R :=
  match a with
  | [] => Raise (ValueError "zero-size array to reduction operation maximum which has no identity")
  | a0 :: rest => Ok (fold_left Rmax rest a0)
  end.

(** [np.full(n, v)]. *)
Definition full (n : nat) (v : R) : list R := repeat v n.

(** [np.interp(x, xp, fp)] for a scalar [x] and increasing [xp]: [fp[0]]
    left of the samples, [fp[-1]] right of them, and between two samples
    the chord through them.  numpy finds the bracketing pair
    [xp[j] <= x < xp[j+1]] by bisection; on increasing [xp] the scan below
    finds the same pair.  At [x = xp[j]] numpy returns [fp[j]] without
    forming the slope. *)
Fixpoint interp_scan (x : R) (xp fp : list R) : R :=
  match xp, fp with
  | x0 :: ((x1 :: _) as xp'), f0 :: ((f1 :: _) as fp') =>
      if Rltb x x1 then
        if Reqb x x0 then f0
        else (f1 - f0) / (x1 - x0) * (x - x0) + f0
      else interp_scan x xp' fp'
  | _, f0 :: _ => f0
  | _, [] => 0
  end.

Definition interp (x : R) (xp fp : list R) : result R :=
  match xp, fp with
  | [], _ => Raise (ValueError "array of sample points is empty")
  | x0 :: xrest, f0 :: frest =>
      if negb (Nat.eqb (length xp) (length fp)) then
        Raise (ValueError "fp and xp are not of the same length.")
      else if Rltb x x0 then Ok f0
      else if Rltb (last_of x0 xrest) x then Ok (last_of f0 frest)
      else Ok (interp_scan x xp fp)
  | _ :: _, [] => Raise (ValueError "fp and xp are not of the same length.")
  end.

(** [a[-1] = v] on a one-dimensional array. *)
Fixpoint set_last (a : list R) (v : R) : list R :=
  match a with
  | [] => []
  | [_] => [v]
  | u :: a' => u :: set_last a' v
  end.

(** [np.linspace(start, stop, num)]: [num] evenly spaced samples, the last
    one set to [stop]; a negative [num] raises. *)
Definition linspace (start stop : R) (num : Z) : result (list R) :=
  if Z.ltb num 0 then
    Raise (ValueError "Number of samples must be non-negative.")
  else
    let div := (num - 1)%Z in
    let delta := stop - start in
    let ramp := map INR (seq 0 (Z.to_nat num)) in
    let a := if Z.ltb 0 div then scale (delta / IZR div) ramp else scale delta ramp in
    let a := shift a start in
    Ok (if Z.ltb 1 num then set_last a stop else a).

(** [np.argsort(a)]: the indices that sort [a].  numpy's default sort is not
    stable; the insertion below is, and on arrays without repeated values
    there is only one sorting order. *)
Fixpoint insert_by_key (p : R * nat) (l : list (R * nat)) : list (R * nat) :=
  match l with
  | [] => [p]
  | q :: l' => if Rleb (fst p) (fst q) then p :: q :: l' else q :: insert_by_key p l'
  end.

Definition sort_by_key (l : list (R * nat)) : list (R * nat) :=
  fold_right insert_by_key [] l.

Definition argsort (a : list R) : list nat :=
  map snd (sort_by_key (combine a (seq 0 (length a)))).

(** [a[order]] with an array of indices. *)
Definition take (a : list R) (order : list nat) : list R :=
  map (fun i => nth i a 0) order.

End np.

(** ** scipy.interpolate.CubicSpline with [bc_type="natural"] *)

Module scipy.

(** A piecewise cubic: breakpoints [x] and one coefficient row
    [(c0, c1, c2, c3)] per interval, highest power first. *)
Record PPoly : Type := mkPPoly {
  c : list (R * R * R * R);
  x : list R
}.

(** A row of a tridiagonal system: sub-diagonal, diagonal, super-diagonal
    and right-hand side. *)
Definition row : Type := (R * R * R * R)%type.

(** One interval of the data: its width [dx], its rise [dy] and its slope
    [dy / dx]. *)
Definition intervals (xs ys : list R) : list (R * R * R) :=
  let dx := np.diff xs in
  let dy := np.diff ys in
  combine (combine dx dy) (np.map2 Rdiv dy dx).

(** The equations for the first derivatives [s] at inner nodes,
    [dx[i] * s[i-1] + 2 * (dx[i-1] + dx[i]) * s[i] + dx[i-1] * s[i+1]
       = 3 * (dx[i] * slope[i-1] + dx[i-1] * slope[i])]. *)
Fixpoint inner_rows (iv : list (R * R * R)) : list row :=
  match iv with
  | (h0, _, m0) :: (((h1, _, m1) :: _) as rest) =>
      (h1, 2 * (h0 + h1), h0, 3 * (h1 * m0 + h0 * m1)) :: inner_rows rest
  | _ => []
  end.

(** The natural boundary condition (second derivative zero) at an end
    whose interval has width [h] and rise [d]. *)
Definition start_row (i : R * R * R) : row :=
  let '(h, d, _) := i in (0, 2 * h, h, 3 * d).

Definition end_row (i : R * R * R) : row :=
  let '(h, d, _) := i in (h, 2 * h, 0, 3 * d).

Definition natural_system (iv : list (R * R * R)) : list row :=
  match iv with
  | [] => []
  | i0 :: _ => start_row i0 :: inner_rows iv ++ [end_row (List.last iv i0)]
  end.

(** [solve_banded((1, 1), A, b)]: the solution of the tridiagonal system.
    LAPACK eliminates with row exchanges; on the reals the solution does not
    depend on the order of elimination, which below is top to bottom. *)
Fixpoint eliminate (cp dp : R) (rows : list row) : list (R * R) :=
  match rows with
  | [] => []
  | (lo, di, up, rhs) :: rows' =>
      let den := di - lo * cp in
      let cp' := up / den in
      let dp' := (rhs - lo * dp) / den in
      (cp', dp') :: eliminate cp' dp' rows'
  end.

Definition back_substitute (cd : list (R * R)) : list R :=
  fold_right
    (fun '(cp, dp) acc =>
       match acc with
       | [] => [dp]
       | s_next :: _ => (dp - cp * s_next) :: acc
       end)
    [] cd.

Definition solve_banded (rows : list row) : list R :=
  back_substitute (eliminate 0 0 rows).

(** The cubic on one interval in Hermite form, from the node values and the
    first derivatives at its two ends. *)
Definition hermite_row (x0 x1 y0 y1 s0 s1 : R) : R * R * R * R :=
  let dx := x1 - x0 in
  let slope := (y1 - y0) / dx in
  let t := (s0 + s1 - 2 * slope) / dx in
  (t / dx, (slope - s0) / dx - t, s0, y0).

Fixpoint hermite (xs ys s : list R) : list (R * R * R * R) :=
  match xs, ys, s with
  | x0 :: ((x1 :: _) as xs'), y0 :: ((y1 :: _) as ys'), s0 :: ((s1 :: _) as s') =>
      hermite_row x0 x1 y0 y1 s0 s1 :: hermite xs' ys' s'
  | _, _, _ => []
  end.

(** [CubicSpline(x, y, bc_type="natural")]. *)
Definition CubicSpline (xs ys : list R) : result PPoly :=
  if Nat.ltb (length xs) 2 then
    Raise (ValueError "`x` must contain at least 2 elements.")
  else if negb (Nat.eqb (length xs) (length ys)) then
    Raise (ValueError "The length of `y` along `axis`=0 doesn't match the length of `x`")
  else if np.any (map (fun d => Rleb d 0) (np.diff xs)) then
    Raise (ValueError "`x` must be strictly increasing sequence.")
  else
    let s := solve_banded (natural_system (intervals xs ys)) in
    Ok {| c := hermite xs ys s; x := xs |}.

(** Evaluation: on the interval [x[i] <= t < x[i+1]] (the last interval
    also takes every [t] from its left end on) the value is
    [c0 * (t - x[i])^3 + c1 * (t - x[i])^2 + c2 * (t - x[i]) + c3]. *)
Definition cubic (k : R * R * R * R) (u : R) : R :=
  let '(c0, c1, c2, c3) := k in
  c0 * (u * u * u) + c1 * (u * u) + c2 * u + c3.

Fixpoint evaluate (cs : list (R * R * R * R)) (xs : list R) (t : R) : R :=
  match cs, xs with
  | [k], x0 :: _ => cubic k (t - x0)
  | k :: cs', x0 :: ((x1 :: _) as xs') =>
      if Rltb t x1 then cubic k (t - x0) else evaluate cs' xs' t
  | _, _ => 0
  end.

Definition call (p : PPoly) (t : R) : R := evaluate (c p) (x p) t.

End scipy.

(** ** Python strings: [str.lower] and [str.strip] on ASCII text *)

Definition lower_char (a : ascii) : ascii :=
  let n := nat_of_ascii a in
  if Nat.leb 65 n && Nat.leb n 90 then ascii_of_nat (n + 32) else a.

Fixpoint lower (s : string) : string :=
  match s with
  | EmptyString => EmptyString
  | String a s' => String (lower_char a) (lower s')
  end.

Definition isspace (a : ascii) : bool :=
  let n := nat_of_ascii a in
  (Nat.leb 9 n && Nat.leb n 13) || (Nat.leb 28 n && Nat.leb n 32).

Fixpoint lstrip (s : string) : string :=
  match s with
  | EmptyString => EmptyString
  | String a s' => if isspace a then lstrip s' else s
  end.

Fixpoint rstrip (s : string) : string :=
  match s with
  | EmptyString => EmptyString
  | String a s' =>
      match rstrip s' with
      | EmptyString => if isspace a then EmptyString else String a EmptyString
      | r => String a r
      end
  end.

Definition strip (s : string) : string := rstrip (lstrip s).

(** ** src/curve.py *)

Module curve.

(** [TENOR_TO_YEARS]. *)
Definition TENOR_TO_YEARS : list (string * R) :=
  [ ("1M", 1 / 12); ("3M", 3 / 12); ("6M", 6 / 12);
    ("1Y", 1); ("2Y", 2); ("3Y", 3); ("5Y", 5); ("7Y", 7);
    ("10Y", 10); ("20Y", 20); ("30Y", 30) ]%string.

(** [key in d] and [d[key]] on a mapping with string keys; [d[key]] raises
    [KeyError] on a key that is not there. *)
Inductive keyed (A : Type) : Type :=
| Found (a : A)
| KeyError (key : string).

Arguments Found {A} a.
Arguments KeyError {A} key.

Fixpoint lookup {A : Type} (d : list (string * A)) (k : string) : option A :=
  match d with
  | [] => None
  | (k', v) :: d' => if String.eqb k k' then Some v else lookup d' k
  end.

Definition contains {A : Type} (d : list (string * A)) (k : string) : bool :=
  match lookup d k with
  | Some _ => true
  | None => false
  end.

Definition getitem {A : Type} (d : list (string * A)) (k : string) : keyed A :=
  match lookup d k with
  | Some v => Found v
  | None => KeyError k
  end.

(** [[d[k] for k in ks]], stopping at the first missing key. *)
Fixpoint getitems {A : Type} (d : list (string * A)) (ks : list string)
    : keyed (list A) :=
  match ks with
  | [] => Found []
  | k :: ks' =>
      match getitem d k with
      | KeyError key => KeyError key
      | Found v =>
          match getitems d ks' with
          | KeyError key => KeyError key
          | Found vs => Found (v :: vs)
          end
      end
  end.

(** [class YieldCurve]: the four dataclass fields and the spline that
    [__post_init__] stores in [_spline] ([None] unless the method is
    ["cubic"]). *)
Record YieldCurve : Type := mkYieldCurve {
  tenors : list string;
  maturities : list R;
  yields : list R;
  method : string;
  _spline : option scipy.PPoly
}.

(** The call [YieldCurve(tenors, maturities, yields, method)]: the generated
    [__init__] stores the four arguments and runs [__post_init__], which
    validates them and fits the spline.  The length of [tenors] is not
    looked at. *)
Definition __post_init__ (tenors : list string) (maturities yields : list R)
    (method : string) : result YieldCurve :=
  if negb (Nat.eqb (length maturities) (length yields)) then
    Raise (ValueError "maturities and yields length mismatch")
  else if np.any (map (fun d => Rleb d 0) (np.diff maturities)) then
    Raise (ValueError "maturities must be strictly increasing")
  else if String.eqb method "cubic" then
    sp <- scipy.CubicSpline maturities yields ;;
    Ok (mkYieldCurve tenors maturities yields method (Some sp))
  else
    Ok (mkYieldCurve tenors maturities yields method None).

(** [YieldCurve.y(t)]: the yield at [t], with [t] clamped to the span of the
    nodes. *)
Definition y (self : YieldCurve) (t : R) : result R :=
  m_first <- np.first (maturities self) ;;
  m_last <- np.last (maturities self) ;;
  let t_clamped := Rmin (Rmax t m_first) m_last in
  if String.eqb (method self) "cubic" then
    match _spline self with
    | Some sp => Ok (scipy.call sp t_clamped)
    | None => Raise (TypeError "'NoneType' object is not callable")
    end
  else np.interp t_clamped (maturities self) (yields self).

(** [YieldCurve.grid(t_min, t_max, n)]: [n] evenly spaced maturities and the
    yield at each. *)
Definition grid (self : YieldCurve) (t_min t_max : R) (n : Z)
    : result (list R * list R) :=
  xs <- np.linspace t_min t_max n ;;
  ys <- mapM (fun x => y self x) xs ;;
  Ok (xs, ys).

(** The part of [curve_from_df] after the row of the date is selected
    (the lookup of the date goes through pandas and is not modelled).
    [row] is that row, one pair of column label and value per column of
    the frame, in column order; with distinct labels [row[tenors]] is the
    value under each label. *)
Definition curve_from_row (row : list (string * R)) (method : string)
    : keyed (result YieldCurve) :=
  let columns := map fst row in
  let tenors := filter (fun c => contains TENOR_TO_YEARS c) columns in
  match getitems TENOR_TO_YEARS tenors with
  | KeyError key => KeyError key
  | Found maturities =>
      match getitems row tenors with
      | KeyError key => KeyError key
      | Found yields =>
          let order := np.argsort maturities in
          let maturities := np.take maturities order in
          let yields := np.take yields order in
          let tenors := map (fun i => nth i tenors EmptyString) order in
          Found (__post_init__ tenors maturities yields method)
      end
  end.

(** [bp_to_decimal]: 1 bp = 0.0001. *)
Definition bp_to_decimal (bp : R) : R := bp / 10000.

Definition shock_parallel (crv : YieldCurve) (bp : R) : result YieldCurve :=
  let bump := bp_to_decimal bp in
  __post_init__ (tenors crv) (maturities crv) (np.shift (yields crv) bump) (method crv).

(** The ramp [(maturities - maturities[0]) / (maturities[-1] - maturities[0])]
    shared by steepen, flatten and twist.  On a span of zero numpy divides
    by zero without raising (the entries are [nan] or [inf]); the quotient
    below is then outside the model. *)
Definition ramp (crv : YieldCurve) : result (list R) :=
  m_first <- np.first (maturities crv) ;;
  m_last <- np.last (maturities crv) ;;
  Ok (map (fun m => (m - m_first) / (m_last - m_first)) (maturities crv)).

Definition shock_steepen (crv : YieldCurve) (bp : R) : result YieldCurve :=
  let bump := bp_to_decimal bp in
  w <- ramp crv ;;
  ys <- np.add (yields crv) (np.scale bump w) ;;
  __post_init__ (tenors crv) (maturities crv) ys (method crv).

Definition shock_flatten (crv : YieldCurve) (bp : R) : result YieldCurve :=
  let bump := bp_to_decimal bp in
  w <- ramp crv ;;
  ys <- np.sub (yields crv) (np.scale bump w) ;;
  __post_init__ (tenors crv) (maturities crv) ys (method crv).

Definition shock_twist (crv : YieldCurve) (bp : R) (short_up : bool) : result YieldCurve :=
  let bump := bp_to_decimal bp in
  w01 <- ramp crv ;;
  let w := map (fun v => 1 - 2 * v) w01 in
  let w := if negb short_up then map Ropp w else w in
  ys <- np.add (yields crv) (np.scale bump w) ;;
  __post_init__ (tenors crv) (maturities crv) ys (method crv).

(** The bell [exp(-(m - mid)^2 / (0.15 * span)^2)], divided by its peak and
    then re-centred by its mean.  On a span of zero the exponent is 0/0,
    [nan] in float64 and outside the model. *)
Definition shock_butterfly (crv : YieldCurve) (bp : R) : result YieldCurve :=
  let bump := bp_to_decimal bp in
  m_first <- np.first (maturities crv) ;;
  m_last <- np.last (maturities crv) ;;
  let mid := 0.5 * (m_first + m_last) in
  let span := m_last - m_first in
  let w := map (fun m => exp (- ((m - mid) ^ 2) / (0.15 * span) ^ 2)) (maturities crv) in
  w_max <- np.max w ;;
  let w := map (fun v => v / w_max) w in
  let w := np.shift w (- np.mean w) in
  ys <- np.add (yields crv) (np.scale bump w) ;;
  __post_init__ (tenors crv) (maturities crv) ys (method crv).

Definition apply_shock (crv : YieldCurve) (shock_type : string) (bp : R)
    (twist_short_up : bool) : result YieldCurve :=
  let shock_type := strip (lower shock_type) in
  if String.eqb shock_type "parallel" then shock_parallel crv bp
  else if String.eqb shock_type "steepen" then shock_steepen crv bp
  else if String.eqb shock_type "flatten" then shock_flatten crv bp
  else if String.eqb shock_type "twist" then shock_twist crv bp twist_short_up
  else if String.eqb shock_type "butterfly" then shock_butterfly crv bp
  else Raise (ValueError ("Unknown shock_type: " ++ shock_type)).

End curve.

(** ** src/bond.py *)

Module bond.

Import curve.

(** [class Bond]. *)
Record Bond : Type := mkBond {
  face : R;
  coupon_rate : R;
  maturity_years : R;
  freq : Z
}.

(** Python's [round(v)] on a float: the nearest integer, a tie going to the
    even neighbour. *)
Definition round (v : R) : Z :=
  let fl := Int_part v in
  let d := v - IZR fl in
  if Rltb d (1 / 2) then fl
  else if Rltb (1 / 2) d then (fl + 1)%Z
  else if Z.even fl then fl else (fl + 1)%Z.

(** [base ** t] on floats.  A positive base has the real power
    [exp (t * ln base)]; a base that is zero or negative has a real power
    when the exponent is a whole number, and that is the integer power.  A
    negative base under a fractional exponent is [nan] in float64, a zero
    base under a negative exponent is [inf]: both are outside the model, and
    no theorem uses the value the definition takes there. *)
Definition float_pow (base t : R) : R :=
  if Rltb 0 base then Rpower base t
  else if Reqb t (IZR (Int_part t)) then powerRZ base (Int_part t)
  else 0.

(** [cfs[-1] += face]. *)
Fixpoint add_last (cfs : list R) (v : R) : result (list R) :=
  match cfs with
  | [] => Raise (IndexError "index -1 is out of bounds for axis 0 with size 0")
  | [u] => Ok [u + v]
  | u :: cfs' => rest <- add_last cfs' v ;; Ok (u :: rest)
  end.

(** The cash-flow times [(i + 1) / freq] for [i] in [range(n)]. *)
Definition times_of (n : Z) (fq : Z) : list R :=
  map (fun i => INR (i + 1) / IZR fq) (seq 0 (Z.to_nat n)).

Definition price_bond (crv : YieldCurve) (b : Bond) : result R :=
  let n := round (maturity_years b * IZR (freq b)) in
  if Z.leb n 0 then
    Raise (ValueError "Bond maturity_years * freq must be >= 1")
  else
    let times := times_of n (freq b) in
    let coupon := face b * coupon_rate b / IZR (freq b) in
    let cfs := np.full (Z.to_nat n) coupon in
    cfs <- add_last cfs (face b) ;;
    dfs <- mapM (fun t => yt <- y crv t ;; Ok (1 / float_pow (1 + yt) t)) times ;;
    prod <- np.mul cfs dfs ;;
    Ok (np.sum prod).

(** Division of two Python floats: a zero divisor raises. *)
Definition truediv (a b : R) : result R :=
  if Reqb b 0 then Raise (ZeroDivisionError "float division by zero")
  else Ok (a / b).

(** A [dict] with string keys, in insertion order. *)
Definition dict : Type := list (string * R).

Fixpoint get (d : dict) (k : string) : option R :=
  match d with
  | [] => None
  | (k', v) :: d' => if String.eqb k k' then Some v else get d' k
  end.

Definition keys (d : dict) : list string := map fst d.

Definition dv01_duration_convexity (crv : YieldCurve) (b : Bond) (bp : R) : result dict :=
  let dy := bp_to_decimal bp in
  p0 <- price_bond crv b ;;
  curve_up <- shock_parallel crv bp ;;
  curve_dn <- shock_parallel crv (- bp) ;;
  p_up <- price_bond curve_up b ;;
  p_dn <- price_bond curve_dn b ;;
  let dv01 := (p_dn - p_up) / 2 in
  mod_duration <- truediv (p_dn - p_up) (2 * p0 * dy) ;;
  convexity <- truediv (p_dn + p_up - 2 * p0) (p0 * dy ^ 2) ;;
  Ok [ ("price", p0);
       ("price_up_+bp", p_up);
       ("price_dn_-bp", p_dn);
       ("DV01_per_1bp", dv01);
       ("mod_duration", mod_duration);
       ("convexity", convexity) ]%string.

End bond.

(** ** The parallel shock on Python objects

    [shock_parallel] receives a reference to a curve object whose fields are
    references to a list and to two arrays.  This module gives the call on a
    store of objects, so that what the call allocates, what it assigns to
    and what it leaves untouched can be stated. *)

Module heap.

Import curve.

Definition loc : Type := nat.

Inductive object : Type :=
| ndarray (a : list R)
| pylist (l : list string)
| instance (tenors maturities yields : loc) (method : string)
    (_spline : option scipy.PPoly).

Definition store : Type := list object.

Definition read (s : store) (l : loc) : option object := nth_error s l.

(** A new object gets the next free reference. *)
Definition alloc (s : store) (o : object) : loc * store := (length s, s ++ [o]).

(** Assignment to the attributes of the object at [l]. *)
Fixpoint write (s : store) (l : loc) (o : object) : store :=
  match s, l with
  | [], _ => []
  | _ :: s', O => o :: s'
  | o' :: s', S l' => o' :: write s' l' o
  end.

(** The curve that the instance at [l] stands for. *)
Definition load (s : store) (l : loc) : option YieldCurve :=
  match read s l with
  | Some (instance tn ms ys meth sp) =>
      match read s tn, read s ms, read s ys with
      | Some (pylist t), Some (ndarray m), Some (ndarray yv) =>
          Some (mkYieldCurve t m yv meth sp)
      | _, _, _ => None
      end
  | _ => None
  end.

(** [YieldCurve(tenors, maturities, yields, method)] called with a list and
    two float arrays.  [__init__] makes the instance with the four arguments
    as its attributes; [__post_init__] passes [maturities] and [yields]
    through [np.asarray], which returns a float array as it is, validates,
    and assigns [_spline]. *)
Definition YieldCurve_call (tn ms ys : loc) (meth : string) (s : store)
    : result (loc * store) :=
  let '(self, s) := alloc s (instance tn ms ys meth None) in
  match read s tn, read s ms, read s ys with
  | Some (pylist t), Some (ndarray m), Some (ndarray yv) =>
      crv <- __post_init__ t m yv meth ;;
      Ok (self, write s self (instance tn ms ys meth (_spline crv)))
  | _, _, _ => Raise (TypeError "expected a list and two arrays")
  end.

(** [shock_parallel(curve, bp)]: [curve.yields + bump] is a new array; the
    tenors and the maturities are passed on by reference. *)
Definition shock_parallel (crv : loc) (bp : R) (s : store) : result (loc * store) :=
  let bump := bp_to_decimal bp in
  match read s crv with
  | Some (instance tn ms ys meth _) =>
      match read s ys with
      | Some (ndarray yv) =>
          let '(ys', s) := alloc s (ndarray (np.shift yv bump)) in
          YieldCurve_call tn ms ys' meth s
      | _ => Raise (TypeError "yields is not an array")
      end
  | _ => Raise (TypeError "not a YieldCurve")
  end.

End heap.

(** * Vocabulary of the properties *)

Import curve bond.

(** Strictly increasing arrays. *)
Fixpoint increasing (a : list R) : Prop :=
  match a with
  | a0 :: ((a1 :: _) as rest) => a0 < a1 /\ increasing rest
  | _ => True
  end.

(** A curve that some call of the constructor returned. *)
Definition constructed (crv : YieldCurve) : Prop :=
  exists tn ms ys meth, __post_init__ tn ms ys meth = Ok crv.

(** The invariant of a curve as the specification words it: the three
    sequences have one length and the maturities increase strictly. *)
Definition spec_invariant (tn : list string) (ms ys : list R) : Prop :=
  length ms = length ys /\ length ys = length tn /\ increasing ms.

(** The curve of the end-to-end example, nodes (1, 0.04), (5, 0.045) and
    (10, 0.047), under each method. *)
Definition example_tenors : list string := ["1Y"; "5Y"; "10Y"]%string.
Definition example_maturities : list R := [1; 5; 10].
Definition example_yields : list R := [0.04; 0.045; 0.047].

Definition example_linear : YieldCurve :=
  mkYieldCurve example_tenors example_maturities example_yields "linear" None.

Definition example_cubic : YieldCurve :=
  mkYieldCurve example_tenors example_maturities example_yields "cubic"
    (Some (scipy.mkPPoly
             (scipy.hermite example_maturities example_yields
                (scipy.solve_banded
                   (scipy.natural_system
                      (scipy.intervals example_maturities example_yields))))
             example_maturities)).

(** A curve with a single node. *)
Definition single_node : YieldCurve :=
  mkYieldCurve ["1Y"%string] [1] [0.04] "linear" None.

(** The change of each node yield from a curve to its shocked copy,
    [shocked.yields - curve.yields]. *)
Definition yield_changes (shocked crv : YieldCurve) : list R :=
  np.map2 Rminus (yields shocked) (yields crv).

(** The shocks that divide by the span of the curve. *)
Definition span_shocks : list string :=
  ["steepen"; "flatten"; "twist"; "butterfly"]%string.

(** What each of the four shocks returns on a constructed curve with a node:
    a constructed curve whose yields are the old ones plus [bp / 10000]
    times a weight per node. *)
Definition moved_by (crv crv' : YieldCurve) (bump : R) (w : list R) : Prop :=
  constructed crv' /\ length w = length (yields crv) /\
  tenors crv' = tenors crv /\ maturities crv' = maturities crv /\
  method crv' = method crv /\
  yields crv' = np.map2 Rplus (yields crv) (np.scale bump w).

(** The number of cash flows of a bond, [n] in [price_bond], and the time
    of the last one, [times[-1]]. *)
Definition cash_flow_count (b : Bond) : Z :=
  round (maturity_years b * IZR (freq b)).

Definition last_time (b : Bond) : R :=
  List.last (times_of (cash_flow_count b) (freq b)) 0.

(** The bond of the end-to-end example and a bond whose maturity is not a
    whole number of coupon periods. *)
Definition example_bond : Bond := mkBond 100 0.05 5 2.
Definition odd_bond : Bond := mkBond 100 0.05 1.3 2.

(** The pricing formula as the specification words it.  With [n] cash
    flows, flow [i] (from 0) falls at [t_i = (i + 1) / freq], pays the coupon
    [face * coupon_rate / freq], the last one the face on top of it, and is
    discounted by [1 / (1 + yieldAt(t_i)) ^ t_i]; the price is the sum. *)
Definition yield_at (crv : YieldCurve) (t : R) : R :=
  match y crv t with
  | Ok v => v
  | Raise _ => 0
  end.

Definition cash_flow_time (b : Bond) (i : nat) : R :=
  INR (i + 1) / IZR (freq b).

Definition cash_flow (b : Bond) (n i : nat) : R :=
  face b * coupon_rate b / IZR (freq b) + (if Nat.eqb (S i) n then face b else 0).

Definition discount_factor (crv : YieldCurve) (t : R) : R :=
  1 / float_pow (1 + yield_at crv t) t.

Definition price_formula (crv : YieldCurve) (b : Bond) : R :=
  let n := Z.to_nat (cash_flow_count b) in
  np.sum (map (fun i => cash_flow b n i * discount_factor crv (cash_flow_time b i))
              (seq 0 n)).

(** A one-year annual bond, and the same bond with no principal. *)
Definition one_year_bond : Bond := mkBond 100 0.05 1 1.
Definition zero_face_bond : Bond := mkBond 0 0.05 1 1.

(** A store that holds the cubic example curve: its tenors at 0, its
    maturities at 1, its yields at 2 and the curve object at 3. *)
Definition example_store : heap.store :=
  [ heap.pylist example_tenors;
    heap.ndarray example_maturities;
    heap.ndarray example_yields;
    heap.instance 0%nat 1%nat 2%nat "cubic" (_spline example_cubic) ].

(** [s] solves a tridiagonal system: in every row
    [lo * s[i-1] + di * s[i] + up * s[i+1] = rhs], where [prev] stands for
    the unknown before the first row and 0 for the one after the last. *)
Fixpoint solves (prev : R) (rows : list scipy.row) (s : list R) : Prop :=
  match rows, s with
  | [], [] => True
  | (lo, di, up, rhs) :: rows', s0 :: s' =>
      lo * prev + di * s0 + up * hd 0 s' = rhs /\ solves s0 rows' s'
  | _, _ => False
  end.

(** A row whose diagonal dominates its two neighbours. *)
Definition dominant (r : scipy.row) : Prop :=
  let '(lo, di, up, _) := r in 0 <= lo /\ 0 <= up /\ lo + up < di.

(** The five shock names that [apply_shock] knows. *)
Definition shock_names : list string :=
  ["parallel"; "steepen"; "flatten"; "twist"; "butterfly"]%string.

(** The position of each node along the span of the curve, 0 at the first
    node and 1 at the last: the array that [ramp] returns. *)
Definition w01 (crv : YieldCurve) : list R :=
  match ramp crv with
  | Ok w => w
  | Raise _ => []
  end.

(** A flat curve at 5% and a five-year annual bond with a 5% coupon. *)
Definition flat_curve : YieldCurve :=
  mkYieldCurve example_tenors example_maturities [0.05; 0.05; 0.05] "linear" None.

Definition par_bond : Bond := mkBond 100 0.05 5 1.

(** The order of [np.argsort] on pairs of a value and its index. *)
Definition le_key (p q : R * nat) : Prop := fst p <= fst q.

(** The column labels of a row that are tenors of the table, in column
    order: [tenors] in [curve_from_df] before the sort. *)
Definition known_tenors (row : list (string * R)) : list string :=
  filter (fun c => contains TENOR_TO_YEARS c) (map fst row).

(** A row whose columns are not in the order of their maturities, with a
    column that is no tenor of the table. *)
Definition example_row : list (string * R) :=
  [("10Y", 0.047); ("Date", 1); ("1Y", 0.04); ("5Y", 0.045)]%string.

(** * Properties *)

(** ** Booleans of float comparisons *)

Lemma Rltb_true a b : Rltb a b = true <-> a < b.
Proof. unfold Rltb. destruct (Rlt_dec a b); split; intros; try lra; discriminate. Qed.

Lemma Rltb_false a b : Rltb a b = false <-> b <= a.
Proof. unfold Rltb. destruct (Rlt_dec a b); split; intros; try lra; discriminate. Qed.

Lemma Rleb_true a b : Rleb a b = true <-> a <= b.
Proof. unfold Rleb. destruct (Rle_dec a b); split; intros; try lra; discriminate. Qed.

Lemma Rleb_false a b : Rleb a b = false <-> b < a.
Proof. unfold Rleb. destruct (Rle_dec a b); split; intros; try lra; discriminate. Qed.

Lemma Reqb_true a b : Reqb a b = true <-> a = b.
Proof. unfold Reqb. destruct (Req_dec_T a b); split; intros; try lra; discriminate. Qed.

Lemma Reqb_false a b : Reqb a b = false <-> a <> b.
Proof. unfold Reqb. destruct (Req_dec_T a b); split; intros; try lra; try discriminate; tauto. Qed.

Lemma Reqb_refl a : Reqb a a = true.
Proof. apply Reqb_true; reflexivity. Qed.

(** Decide one float comparison in the goal from the context. *)
Ltac cmp :=
  repeat match goal with
  | |- context [Rltb ?a ?b] =>
      first [ rewrite (proj2 (Rltb_true a b)) by lra
            | rewrite (proj2 (Rltb_false a b)) by lra ]
  | |- context [Rleb ?a ?b] =>
      first [ rewrite (proj2 (Rleb_true a b)) by lra
            | rewrite (proj2 (Rleb_false a b)) by lra ]
  | |- context [Reqb ?a ?b] =>
      first [ rewrite (proj2 (Reqb_true a b)) by lra
            | rewrite (proj2 (Reqb_false a b)) by lra ]
  end.

(** ** Strictly increasing arrays *)

Lemma any_diff_false a :
  np.any (map (fun d => Rleb d 0) (np.diff a)) = false <-> increasing a.
Proof.
  induction a as [|a0 rest IH]; [simpl; tauto|].
  destruct rest as [|a1 rest]; [simpl; tauto|].
  change (np.any (map (fun d => Rleb d 0) (np.diff (a0 :: a1 :: rest))))
    with (Rleb (a1 - a0) 0 || np.any (map (fun d => Rleb d 0) (np.diff (a1 :: rest)))).
  rewrite orb_false_iff, Rleb_false, IH.
  change (increasing (a0 :: a1 :: rest)) with (a0 < a1 /\ increasing (a1 :: rest)).
  split; intros [H1 H2]; split; auto; lra.
Qed.

Lemma any_diff_true a :
  np.any (map (fun d => Rleb d 0) (np.diff a)) = true <-> ~ increasing a.
Proof.
  rewrite <- any_diff_false.
  destruct (np.any _); split; intros H; congruence.
Qed.

Lemma increasing_head_le a0 rest v : increasing (a0 :: rest) -> In v rest -> a0 < v.
Proof.
  revert a0. induction rest as [|a1 rest IH]; intros a0 Hinc Hin; [destruct Hin|].
  destruct Hinc as [Hlt Hinc]. destruct Hin as [->|Hin]; auto.
  specialize (IH a1 Hinc Hin). lra.
Qed.

Lemma increasing_head_le_last a0 rest : increasing (a0 :: rest) -> a0 <= np.last_of a0 rest.
Proof.
  revert a0. induction rest as [|a1 rest IH]; intros a0 Hinc; simpl; [lra|].
  destruct Hinc as [Hlt Hinc]. specialize (IH a1 Hinc). lra.
Qed.

Lemma last_of_In a0 rest : In (np.last_of a0 rest) (a0 :: rest).
Proof.
  revert a0. induction rest as [|a1 rest IH]; intros a0; simpl; auto.
  right. apply IH.
Qed.

Lemma increasing_le_last a0 rest v :
  increasing (a0 :: rest) -> In v (a0 :: rest) -> v <= np.last_of a0 rest.
Proof.
  revert a0. induction rest as [|a1 rest IH]; intros a0 Hinc Hin; simpl in *.
  - destruct Hin as [->|[]]; lra.
  - destruct Hinc as [Hlt Hinc]. destruct Hin as [<-|Hin].
    + pose proof (increasing_head_le_last a1 rest Hinc). lra.
    + apply IH; auto.
Qed.

(** ** Construction *)

Lemma post_init_Ok tn ms ys meth crv :
  __post_init__ tn ms ys meth = Ok crv ->
  tenors crv = tn /\ maturities crv = ms /\ yields crv = ys /\ method crv = meth /\
  length ms = length ys /\ increasing ms /\
  (if String.eqb meth "cubic"
   then exists sp, scipy.CubicSpline ms ys = Ok sp /\ _spline crv = Some sp
   else _spline crv = None).
Proof.
  unfold __post_init__.
  destruct (Nat.eqb (length ms) (length ys)) eqn:Hlen; simpl; [|discriminate].
  apply Nat.eqb_eq in Hlen.
  destruct (np.any _) eqn:Hany; [discriminate|].
  apply any_diff_false in Hany.
  destruct (String.eqb meth "cubic").
  - destruct (scipy.CubicSpline ms ys) as [sp|e]; simpl; [|discriminate].
    intros H; inversion H; subst; simpl. repeat split; auto. exists sp; auto.
  - intros H; inversion H; subst; simpl. repeat split; auto.
Qed.

Lemma CubicSpline_Ok_iff xs ys :
  length xs = length ys -> increasing xs ->
  (returns (scipy.CubicSpline xs ys) <-> (2 <= length xs)%nat).
Proof.
  intros Hlen Hinc. unfold scipy.CubicSpline, returns.
  destruct (Nat.ltb (length xs) 2) eqn:H2.
  - apply Nat.ltb_lt in H2. split; [intros [a Ha]; discriminate | lia].
  - apply Nat.ltb_ge in H2. rewrite Hlen, Nat.eqb_refl. simpl.
    rewrite (proj2 (any_diff_false xs) Hinc). split; [intros _; lia | eauto].
Qed.

Lemma CubicSpline_raises_ValueError xs ys :
  ~ returns (scipy.CubicSpline xs ys) -> is_ValueError (scipy.CubicSpline xs ys).
Proof.
  unfold scipy.CubicSpline, returns, is_ValueError.
  repeat match goal with |- context [if ?b then _ else _] => destruct b end;
    intros H; eauto. exfalso; apply H; eauto.
Qed.

Lemma post_init_result tn ms ys meth :
  returns (__post_init__ tn ms ys meth) \/ is_ValueError (__post_init__ tn ms ys meth).
Proof.
  unfold __post_init__.
  destruct (negb _); [right; eexists; reflexivity|].
  destruct (np.any _); [right; eexists; reflexivity|].
  destruct (String.eqb meth "cubic"); [|left; eexists; reflexivity].
  destruct (scipy.CubicSpline ms ys) as [sp|e] eqn:Hsp; simpl.
  - left; eexists; reflexivity.
  - right. destruct (CubicSpline_raises_ValueError ms ys) as [msg Hmsg].
    + rewrite Hsp. intros [a Ha]; discriminate.
    + rewrite Hsp in Hmsg. inversion Hmsg; subst. eexists; reflexivity.
Qed.

Lemma returns_not_ValueError {A} (r : result A) : returns r -> ~ is_ValueError r.
Proof. intros [a ->] [msg H]; discriminate. Qed.

Lemma post_init_returns_iff tn ms ys meth :
  returns (__post_init__ tn ms ys meth) <->
  length ms = length ys /\ increasing ms /\ (meth = "cubic"%string -> (2 <= length ms)%nat).
Proof.
  split.
  - intros [crv H]. pose proof (post_init_Ok _ _ _ _ _ H) as (_ & _ & _ & _ & Hlen & Hinc & Hsp).
    repeat split; auto. intros ->. simpl in Hsp. destruct Hsp as (sp & Hsp & _).
    apply (CubicSpline_Ok_iff ms ys Hlen Hinc). exists sp; auto.
  - intros (Hlen & Hinc & Hcub). unfold __post_init__.
    rewrite (proj2 (Nat.eqb_eq _ _) Hlen). simpl.
    rewrite (proj2 (any_diff_false ms) Hinc).
    destruct (String.eqb meth "cubic") eqn:Hm; [|eexists; reflexivity].
    apply String.eqb_eq in Hm.
    destruct (proj2 (CubicSpline_Ok_iff ms ys Hlen Hinc) (Hcub Hm)) as [sp ->].
    eexists; reflexivity.
Qed.

(** ** C8: validation at construction *)

(** C8, as stated, fails: a curve with one tenor label for two nodes violates
    the invariant of the specification and is constructed all the same. *)
Lemma C8_tenors_length_unchecked :
  ~ (is_ValueError (__post_init__ ["1Y"%string] [1; 2] [0.04; 0.05] "linear")
     <-> ~ spec_invariant ["1Y"%string] [1; 2] [0.04; 0.05]).
Proof.
  intros [_ H].
  assert (Hret : returns (__post_init__ ["1Y"%string] [1; 2] [0.04; 0.05] "linear")).
  { apply post_init_returns_iff. repeat split; simpl; try lra. discriminate. }
  apply (returns_not_ValueError _ Hret). apply H.
  intros (_ & Hlen & _). simpl in Hlen. discriminate.
Qed.

(** C8, amended: the constructor raises a validation error exactly when the
    maturities and the yields differ in length, or the maturities are not
    strictly increasing, or the method is cubic and there are fewer than two
    nodes (the spline fit then refuses them); the length of [tenors] plays no
    part.  A curve that is constructed holds the sequences as they were
    passed, never sorted. *)
Theorem C8_construction_validation tn ms ys meth :
  (is_ValueError (__post_init__ tn ms ys meth) <->
     length ms <> length ys \/ ~ increasing ms \/
     (meth = "cubic"%string /\ (length ms < 2)%nat)) /\
  (forall crv, __post_init__ tn ms ys meth = Ok crv ->
     tenors crv = tn /\ maturities crv = ms /\ yields crv = ys /\ method crv = meth).
Proof.
  split.
  - pose proof (post_init_returns_iff tn ms ys meth) as Hiff.
    split.
    + intros Herr.
      destruct (Nat.eq_dec (length ms) (length ys)) as [Hlen|Hlen]; [|auto].
      destruct (any_diff_true ms) as [_ Hninc].
      destruct (np.any (map (fun d => Rleb d 0) (np.diff ms))) eqn:Hany.
      * right; left. apply any_diff_true; assumption.
      * apply any_diff_false in Hany. right; right.
        destruct (string_dec meth "cubic") as [Hm|Hm].
        -- split; auto. destruct (lt_dec (length ms) 2) as [|Hge]; auto.
           exfalso. apply (returns_not_ValueError (__post_init__ tn ms ys meth)); auto.
           apply Hiff. repeat split; auto. intros _; lia.
        -- exfalso. apply (returns_not_ValueError (__post_init__ tn ms ys meth)); auto.
           apply Hiff. repeat split; auto. intros; contradiction.
    + intros Hbad.
      destruct (post_init_result tn ms ys meth) as [Hret|Herr]; auto.
      exfalso. apply Hiff in Hret. destruct Hret as (Hlen & Hinc & Hcub).
      destruct Hbad as [H|[H|[Hm H]]]; auto. specialize (Hcub Hm). lia.
  - intros crv H. pose proof (post_init_Ok _ _ _ _ _ H). tauto.
Qed.

(** ** Nodes, clamping and the two interpolants *)

Lemma clamp_inside t lo hi : lo <= t -> t <= hi -> Rmin (Rmax t lo) hi = t.
Proof.
  intros. rewrite Rmax_left by lra. apply Rmin_left; lra.
Qed.

Lemma clamp_below t lo hi : t <= lo -> lo <= hi -> Rmin (Rmax t lo) hi = lo.
Proof.
  intros. rewrite Rmax_right by lra. apply Rmin_left; lra.
Qed.

Lemma clamp_above t lo hi : hi <= t -> lo <= hi -> Rmin (Rmax t lo) hi = hi.
Proof.
  intros. rewrite Rmax_left by lra. apply Rmin_right; lra.
Qed.

Lemma node_between a0 rest i :
  increasing (a0 :: rest) -> (i < length (a0 :: rest))%nat ->
  a0 <= nth i (a0 :: rest) 0 <= np.last_of a0 rest.
Proof.
  intros Hinc Hi. split.
  - destruct i as [|i]; simpl; [lra|].
    apply Rlt_le, (increasing_head_le a0 rest); auto.
    apply nth_In. simpl in Hi. lia.
  - apply increasing_le_last; auto. apply nth_In; assumption.
Qed.

Lemma interp_scan_cons t x0 x1 xp f0 f1 fp :
  np.interp_scan t (x0 :: x1 :: xp) (f0 :: f1 :: fp) =
  if Rltb t x1 then
    if Reqb t x0 then f0 else (f1 - f0) / (x1 - x0) * (t - x0) + f0
  else np.interp_scan t (x1 :: xp) (f1 :: fp).
Proof. reflexivity. Qed.

(** The scan of [np.interp] stops at a sample with that sample's value. *)
Lemma interp_scan_node xp : forall fp i,
  increasing xp -> length xp = length fp -> (i < length xp)%nat ->
  np.interp_scan (nth i xp 0) xp fp = nth i fp 0.
Proof.
  induction xp as [|x0 xp IH]; intros fp i Hinc Hlen Hi; [simpl in Hi; lia|].
  destruct fp as [|f0 fp]; [discriminate|].
  destruct xp as [|x1 xp].
  - destruct i as [|i]; [reflexivity | simpl in Hi; lia].
  - destruct fp as [|f1 fp]; [discriminate|].
    destruct i as [|i].
    + simpl. destruct Hinc as [Hlt _]. cmp. reflexivity.
    + change (nth (S i) (x0 :: x1 :: xp) 0) with (nth i (x1 :: xp) 0).
      change (nth (S i) (f0 :: f1 :: fp) 0) with (nth i (f1 :: fp) 0).
      destruct Hinc as [Hlt Hinc].
      assert (Hge : x1 <= nth i (x1 :: xp) 0).
      { apply (node_between x1 xp i); auto. simpl in *; lia. }
      rewrite interp_scan_cons. cmp.
      apply IH; auto. simpl in *; lia.
Qed.

Lemma interp_node xp fp i :
  increasing xp -> length xp = length fp -> (i < length xp)%nat ->
  np.interp (nth i xp 0) xp fp = Ok (nth i fp 0).
Proof.
  intros Hinc Hlen Hi. unfold np.interp.
  destruct xp as [|x0 xrest]; [simpl in Hi; lia|].
  destruct fp as [|f0 frest]; [discriminate|].
  rewrite (proj2 (Nat.eqb_eq _ _) Hlen). simpl negb. cbv iota.
  pose proof (node_between x0 xrest i Hinc Hi) as [Hlo Hhi].
  cmp. f_equal. apply interp_scan_node; auto.
Qed.

(** *** The spline: shapes of the intermediate arrays *)

Lemma diff_length a : length (np.diff a) = (length a - 1)%nat.
Proof.
  induction a as [|a0 rest IH]; [reflexivity|].
  destruct rest as [|a1 rest]; [reflexivity|].
  change (np.diff (a0 :: a1 :: rest)) with ((a1 - a0) :: np.diff (a1 :: rest)).
  simpl length in *. rewrite IH. lia.
Qed.

Lemma map2_length f a : forall b, length (np.map2 f a b) = Nat.min (length a) (length b).
Proof.
  induction a as [|u a IH]; intros [|v b]; simpl; auto.
Qed.

Lemma intervals_length xs ys :
  length xs = length ys -> length (scipy.intervals xs ys) = (length xs - 1)%nat.
Proof.
  intros Hlen. unfold scipy.intervals.
  rewrite !length_combine, map2_length, !diff_length, <- Hlen. lia.
Qed.

Lemma inner_rows_length iv : length (scipy.inner_rows iv) = (length iv - 1)%nat.
Proof.
  induction iv as [|[[h0 d0] m0] rest IH]; [reflexivity|].
  destruct rest as [|[[h1 d1] m1] rest]; [reflexivity|].
  change (scipy.inner_rows ((h0, d0, m0) :: (h1, d1, m1) :: rest))
    with ((h1, 2 * (h0 + h1), h0, 3 * (h1 * m0 + h0 * m1))
            :: scipy.inner_rows ((h1, d1, m1) :: rest)).
  simpl length in *. rewrite IH. lia.
Qed.

Lemma natural_system_length iv :
  iv <> [] -> length (scipy.natural_system iv) = S (length iv).
Proof.
  destruct iv as [|i0 rest]; [congruence|]. intros _.
  unfold scipy.natural_system.
  change (length (?r :: ?l)) with (S (length l)).
  rewrite length_app, inner_rows_length. simpl. lia.
Qed.

Lemma eliminate_length rows : forall cp dp,
  length (scipy.eliminate cp dp rows) = length rows.
Proof.
  induction rows as [|[[[lo di] up] rhs] rows IH]; intros; simpl; auto.
Qed.

Lemma back_substitute_length cd : length (scipy.back_substitute cd) = length cd.
Proof.
  induction cd as [|[cp dp] cd IH]; [reflexivity|].
  unfold scipy.back_substitute in *. simpl.
  destruct (fold_right _ [] cd); simpl in *; lia.
Qed.

Lemma solve_banded_length rows : length (scipy.solve_banded rows) = length rows.
Proof.
  unfold scipy.solve_banded. rewrite back_substitute_length. apply eliminate_length.
Qed.

Lemma derivatives_length xs ys :
  length xs = length ys -> (2 <= length xs)%nat ->
  length (scipy.solve_banded (scipy.natural_system (scipy.intervals xs ys))) = length xs.
Proof.
  intros Hlen H2. rewrite solve_banded_length, natural_system_length.
  - rewrite intervals_length by assumption. lia.
  - intros Hnil. apply (f_equal (@length _)) in Hnil.
    rewrite intervals_length in Hnil by assumption. simpl in Hnil. lia.
Qed.

(** *** The spline passes through its nodes *)

Lemma hermite_row_left x0 x1 y0 y1 s0 s1 :
  scipy.cubic (scipy.hermite_row x0 x1 y0 y1 s0 s1) 0 = y0.
Proof. unfold scipy.cubic, scipy.hermite_row. ring. Qed.

Lemma hermite_row_right x0 x1 y0 y1 s0 s1 :
  x0 <> x1 -> scipy.cubic (scipy.hermite_row x0 x1 y0 y1 s0 s1) (x1 - x0) = y1.
Proof. intros. unfold scipy.cubic, scipy.hermite_row. field. lra. Qed.

Lemma hermite_cons x0 x1 xs y0 y1 ys s0 s1 s :
  scipy.hermite (x0 :: x1 :: xs) (y0 :: y1 :: ys) (s0 :: s1 :: s) =
  scipy.hermite_row x0 x1 y0 y1 s0 s1 :: scipy.hermite (x1 :: xs) (y1 :: ys) (s1 :: s).
Proof. reflexivity. Qed.

Lemma evaluate_last k x0 xs t :
  scipy.evaluate [k] (x0 :: xs) t = scipy.cubic k (t - x0).
Proof. reflexivity. Qed.

Lemma evaluate_cons k k' cs x0 x1 xs t :
  scipy.evaluate (k :: k' :: cs) (x0 :: x1 :: xs) t =
  if Rltb t x1 then scipy.cubic k (t - x0) else scipy.evaluate (k' :: cs) (x1 :: xs) t.
Proof. reflexivity. Qed.

Lemma evaluate_node xs : forall ys s i,
  increasing xs -> length xs = length ys -> length xs = length s ->
  (2 <= length xs)%nat -> (i < length xs)%nat ->
  scipy.evaluate (scipy.hermite xs ys s) xs (nth i xs 0) = nth i ys 0.
Proof.
  induction xs as [|x0 xs IH]; intros ys s i Hinc Hly Hls H2 Hi; [simpl in Hi; lia|].
  destruct xs as [|x1 xs]; [simpl in H2; lia|].
  destruct ys as [|y0 [|y1 ys]]; try discriminate.
  destruct s as [|s0 [|s1 s]]; try discriminate.
  destruct Hinc as [Hlt Hinc]. rewrite hermite_cons.
  destruct xs as [|x2 xs].
  - (* a single interval *)
    destruct ys; [|discriminate]. destruct s; [|discriminate].
    change (scipy.hermite [x1] [y1] [s1]) with (@nil (R * R * R * R)).
    rewrite evaluate_last.
    destruct i as [|[|i]]; [| |simpl in Hi; lia]; simpl nth.
    + replace (x0 - x0) with 0 by ring. apply hermite_row_left.
    + apply hermite_row_right. lra.
  - destruct ys as [|y2 ys]; [discriminate|]. destruct s as [|s2 s]; [discriminate|].
    rewrite hermite_cons, evaluate_cons. rewrite <- hermite_cons.
    destruct i as [|i].
    + simpl nth. cmp. replace (x0 - x0) with 0 by ring. apply hermite_row_left.
    + change (nth (S i) (x0 :: x1 :: x2 :: xs) 0) with (nth i (x1 :: x2 :: xs) 0).
      change (nth (S i) (y0 :: y1 :: y2 :: ys) 0) with (nth i (y1 :: y2 :: ys) 0).
      assert (Hge : x1 <= nth i (x1 :: x2 :: xs) 0).
      { apply (node_between x1 (x2 :: xs) i); auto. simpl in *; lia. }
      cmp. apply IH; auto; simpl in *; lia.
Qed.

Lemma CubicSpline_node xs ys sp i :
  scipy.CubicSpline xs ys = Ok sp -> (i < length xs)%nat ->
  scipy.call sp (nth i xs 0) = nth i ys 0.
Proof.
  unfold scipy.CubicSpline.
  destruct (Nat.ltb (length xs) 2) eqn:H2; [discriminate|]. apply Nat.ltb_ge in H2.
  destruct (Nat.eqb (length xs) (length ys)) eqn:Hlen; [|discriminate].
  apply Nat.eqb_eq in Hlen. simpl negb. cbv iota.
  destruct (np.any _) eqn:Hany; [discriminate|]. apply any_diff_false in Hany.
  intros H Hi. inversion H; subst; clear H. unfold scipy.call. simpl.
  apply evaluate_node; auto. symmetry. apply derivatives_length; auto.
Qed.

(** ** C3 and C4: the curve at and beyond its nodes *)

Lemma example_linear_constructed : constructed example_linear.
Proof.
  exists example_tenors, example_maturities, example_yields, "linear"%string.
  unfold __post_init__, np.any, example_maturities. simpl. cmp. reflexivity.
Qed.

Lemma example_cubic_constructed : constructed example_cubic.
Proof.
  exists example_tenors, example_maturities, example_yields, "cubic"%string.
  unfold __post_init__, scipy.CubicSpline, np.any, example_maturities. simpl. cmp.
  reflexivity.
Qed.

Lemma y_node crv i :
  constructed crv -> (i < length (maturities crv))%nat ->
  y crv (nth i (maturities crv) 0) = Ok (nth i (yields crv) 0).
Proof.
  intros (tn & ms & ys & meth & Hc) Hi.
  destruct (post_init_Ok _ _ _ _ _ Hc) as (_ & Hm & Hy & Hmeth & Hlen & Hinc & Hsp).
  unfold y. rewrite Hm, Hy, Hmeth in *.
  destruct ms as [|m0 mrest]; [simpl in Hi; lia|].
  change (np.first (m0 :: mrest)) with (Ok m0).
  change (np.last (m0 :: mrest)) with (Ok (np.last_of m0 mrest)).
  unfold bind at 1 2.
  pose proof (node_between m0 mrest i Hinc Hi) as [Hlo Hhi].
  rewrite clamp_inside by assumption.
  destruct (String.eqb meth "cubic").
  - destruct Hsp as (sp & Hfit & ->). f_equal. apply (CubicSpline_node _ _ _ _ Hfit Hi).
  - apply interp_node; auto.
Qed.

(** C3: on a constructed curve the yield at the maturity of node [i] is the
    yield of node [i], under linear interpolation and under the natural
    cubic spline alike (and under any other method string, which the code
    treats as linear).  Exact on the reals; float64 agrees up to rounding. *)
Theorem C3_yield_at_node crv i :
  constructed crv -> (i < length (maturities crv))%nat ->
  y crv (nth i (maturities crv) 0) = Ok (nth i (yields crv) 0).
Proof. exact (y_node crv i). Qed.

Lemma C3_yield_at_node_witness :
  y example_linear 5 = Ok 0.045 /\ y example_cubic 10 = Ok 0.047.
Proof.
  split.
  - apply (C3_yield_at_node example_linear 1 example_linear_constructed). simpl; lia.
  - apply (C3_yield_at_node example_cubic 2 example_cubic_constructed). simpl; lia.
Defined.

(** C4: the query time is clamped to the span of the nodes before the curve
    is evaluated, so below the shortest maturity the yield is the yield at
    the shortest maturity and above the longest it is the yield at the
    longest, under either method. *)
Theorem C4_clamped_extrapolation crv m_first m_last t :
  constructed crv ->
  np.first (maturities crv) = Ok m_first ->
  np.last (maturities crv) = Ok m_last ->
  y crv t = y crv (Rmin (Rmax t m_first) m_last) /\
  (t < m_first -> y crv t = y crv m_first) /\
  (m_last < t -> y crv t = y crv m_last).
Proof.
  intros (tn & ms & ys & meth & Hc) Hf Hl.
  destruct (post_init_Ok _ _ _ _ _ Hc) as (_ & Hm & _ & _ & _ & Hinc & _).
  assert (Hspan : m_first <= m_last).
  { rewrite Hm in Hf, Hl. destruct ms as [|m0 mrest]; [discriminate|].
    simpl in Hf, Hl. inversion Hf; inversion Hl; subst.
    apply increasing_head_le_last; assumption. }
  assert (Hclamp : forall u v,
            Rmin (Rmax u m_first) m_last = Rmin (Rmax v m_first) m_last ->
            y crv u = y crv v).
  { intros u v Huv. unfold y. rewrite Hf, Hl. unfold bind. rewrite Huv. reflexivity. }
  repeat split.
  - apply Hclamp. set (u := Rmin (Rmax t m_first) m_last).
    assert (m_first <= u <= m_last).
    { unfold u. split.
      - apply Rmin_glb; [apply Rmax_r | assumption].
      - apply Rmin_r. }
    symmetry. apply clamp_inside; lra.
  - intros Ht. apply Hclamp.
    rewrite (clamp_below t) by lra. rewrite (clamp_inside m_first) by lra. reflexivity.
  - intros Ht. apply Hclamp.
    rewrite (clamp_above t) by lra. rewrite (clamp_inside m_last) by lra. reflexivity.
Qed.

Lemma C4_clamped_extrapolation_witness :
  (y example_cubic 0.25 = y example_cubic (Rmin (Rmax 0.25 1) 10) /\
   (0.25 < 1 -> y example_cubic 0.25 = y example_cubic 1) /\
   (10 < 0.25 -> y example_cubic 0.25 = y example_cubic 10)) /\
  (y example_linear 30 = y example_linear (Rmin (Rmax 30 1) 10) /\
   (30 < 1 -> y example_linear 30 = y example_linear 1) /\
   (10 < 30 -> y example_linear 30 = y example_linear 10)).
Proof.
  split.
  - apply (C4_clamped_extrapolation example_cubic 1 10 0.25 example_cubic_constructed);
      reflexivity.
  - apply (C4_clamped_extrapolation example_linear 1 10 30 example_linear_constructed);
      reflexivity.
Defined.

(** ** Shocks rebuild the curve *)

Lemma constructed_inv crv :
  constructed crv ->
  length (maturities crv) = length (yields crv) /\ increasing (maturities crv) /\
  (method crv = "cubic"%string -> (2 <= length (maturities crv))%nat) /\
  (if String.eqb (method crv) "cubic"
   then exists sp, scipy.CubicSpline (maturities crv) (yields crv) = Ok sp /\
                   _spline crv = Some sp
   else _spline crv = None).
Proof.
  intros (tn & ms & ys & meth & Hc).
  assert (Hret : returns (__post_init__ tn ms ys meth)) by (exists crv; exact Hc).
  apply post_init_returns_iff in Hret. destruct Hret as (Hlen & Hinc & Hcub).
  destruct (post_init_Ok _ _ _ _ _ Hc) as (_ & -> & -> & -> & _ & _ & Hsp).
  auto.
Qed.

(** Replacing the yields of a constructed curve by an array of the same
    length and constructing again succeeds. *)
Lemma rebuild crv ys' :
  constructed crv -> length ys' = length (yields crv) ->
  exists crv',
    __post_init__ (tenors crv) (maturities crv) ys' (method crv) = Ok crv' /\
    constructed crv' /\
    tenors crv' = tenors crv /\ maturities crv' = maturities crv /\
    yields crv' = ys' /\ method crv' = method crv.
Proof.
  intros Hc Hlen. destruct (constructed_inv crv Hc) as (Hl & Hinc & Hcub & _).
  assert (Hret : returns (__post_init__ (tenors crv) (maturities crv) ys' (method crv))).
  { apply post_init_returns_iff. repeat split; auto. congruence. }
  destruct Hret as [crv' Hcrv']. exists crv'. split; [assumption|].
  split; [do 4 eexists; exact Hcrv'|].
  pose proof (post_init_Ok _ _ _ _ _ Hcrv'). tauto.
Qed.

Lemma shift_length a k : length (np.shift a k) = length a.
Proof. apply length_map. Qed.

Lemma scale_length k a : length (np.scale k a) = length a.
Proof. apply length_map. Qed.

Lemma shift_nth a k i : (i < length a)%nat -> nth i (np.shift a k) 0 = nth i a 0 + k.
Proof.
  revert i. induction a as [|v a IH]; intros i Hi; [simpl in Hi; lia|].
  destruct i; simpl; [reflexivity|]. apply IH. simpl in Hi; lia.
Qed.

Lemma shock_parallel_Ok crv bp :
  constructed crv ->
  exists crv',
    shock_parallel crv bp = Ok crv' /\ constructed crv' /\
    tenors crv' = tenors crv /\ maturities crv' = maturities crv /\
    yields crv' = np.shift (yields crv) (bp / 10000) /\ method crv' = method crv.
Proof.
  intros Hc. unfold shock_parallel, bp_to_decimal.
  apply rebuild; auto. apply shift_length.
Qed.

(** ** C5: the parallel shock *)

Lemma read_lt s l o : heap.read s l = Some o -> (l < length s)%nat.
Proof. intros H. apply nth_error_Some. unfold heap.read in H. congruence. Qed.

Lemma read_app_old s s' l o :
  heap.read s l = Some o -> heap.read (s ++ s') l = Some o.
Proof.
  intros H. unfold heap.read. rewrite nth_error_app1; [exact H|].
  apply (read_lt _ _ _ H).
Qed.

Lemma read_app_new s o : heap.read (s ++ [o]) (length s) = Some o.
Proof.
  unfold heap.read. rewrite nth_error_app2 by lia. rewrite Nat.sub_diag. reflexivity.
Qed.

Lemma read_write_other s o : forall l l',
  l <> l' -> heap.read (heap.write s l o) l' = heap.read s l'.
Proof.
  induction s as [|o' s IH]; intros l l' Hne; [reflexivity|].
  destruct l as [|l]; destruct l' as [|l']; simpl; try congruence.
  apply IH. congruence.
Qed.

Lemma read_write_same s o : forall l,
  (l < length s)%nat -> heap.read (heap.write s l o) l = Some o.
Proof.
  induction s as [|o' s IH]; intros l Hl; [simpl in Hl; lia|].
  destruct l as [|l]; simpl; [reflexivity|]. apply IH. simpl in Hl. lia.
Qed.

Lemma load_inv s l crv :
  heap.load s l = Some crv ->
  exists tn ms ys,
    heap.read s l = Some (heap.instance tn ms ys (method crv) (_spline crv)) /\
    heap.read s tn = Some (heap.pylist (tenors crv)) /\
    heap.read s ms = Some (heap.ndarray (maturities crv)) /\
    heap.read s ys = Some (heap.ndarray (yields crv)).
Proof.
  unfold heap.load.
  destruct (heap.read s l) as [[| |tn ms ys meth sp]|]; try discriminate.
  destruct (heap.read s tn) as [[| t |]|] eqn:Ht; try discriminate.
  destruct (heap.read s ms) as [[m | |]|] eqn:Hm; try discriminate.
  destruct (heap.read s ys) as [[yv | |]|] eqn:Hy; try discriminate.
  intros H. injection H as <-. exists tn, ms, ys. simpl. auto.
Qed.

Lemma load_intro s l tn ms ys crv :
  heap.read s l = Some (heap.instance tn ms ys (method crv) (_spline crv)) ->
  heap.read s tn = Some (heap.pylist (tenors crv)) ->
  heap.read s ms = Some (heap.ndarray (maturities crv)) ->
  heap.read s ys = Some (heap.ndarray (yields crv)) ->
  heap.load s l = Some crv.
Proof.
  intros Hl Ht Hm Hy. unfold heap.load. rewrite Hl, Ht, Hm, Hy.
  destruct crv; reflexivity.
Qed.

(** The parallel shock on the store: it allocates the new yields and the
    new curve, writes to the new curve only, and the new curve is the one
    the function on values returns. *)
Lemma heap_shock_parallel s ref crv bp :
  heap.load s ref = Some crv -> constructed crv ->
  exists new_ref s' shocked,
    heap.shock_parallel ref bp s = Ok (new_ref, s') /\
    shock_parallel crv bp = Ok shocked /\
    heap.load s' new_ref = Some shocked /\
    heap.read s new_ref = None /\
    (forall l o, heap.read s l = Some o -> heap.read s' l = Some o).
Proof.
  intros Hload Hc.
  destruct (load_inv _ _ _ Hload) as (tn & ms & ys & Hl & Ht & Hm & Hy).
  destruct (shock_parallel_Ok crv bp Hc) as (c' & Hs & _ & Htn & Hms & Hys & Hmeth).
  unfold heap.shock_parallel. rewrite Hl, Hy. unfold heap.alloc.
  unfold heap.YieldCurve_call, heap.alloc.
  set (s1 := s ++ [heap.ndarray (np.shift (yields crv) (bp_to_decimal bp))]).
  set (s2 := s1 ++ [heap.instance tn ms (length s) (method crv) None]).
  assert (Ht2 : heap.read s2 tn = Some (heap.pylist (tenors crv)))
    by (unfold s2, s1; auto using read_app_old).
  assert (Hm2 : heap.read s2 ms = Some (heap.ndarray (maturities crv)))
    by (unfold s2, s1; auto using read_app_old).
  assert (Hy2 : heap.read s2 (length s)
                = Some (heap.ndarray (np.shift (yields crv) (bp_to_decimal bp))))
    by (unfold s2, s1; auto using read_app_old, read_app_new).
  rewrite Ht2, Hm2, Hy2.
  pose proof Hs as Hs0. unfold shock_parallel in Hs. rewrite Hs. unfold bind.
  assert (Hlen1 : length s1 = S (length s))
    by (unfold s1; rewrite length_app; simpl; lia).
  assert (Hlen2 : length s2 = S (length s1))
    by (unfold s2; rewrite length_app; simpl; lia).
  exists (length s1), (heap.write s2 (length s1)
                         (heap.instance tn ms (length s) (method crv) (_spline c'))), c'.
  split; [reflexivity|]. split; [exact Hs0|].
  assert (Hold : forall l o, heap.read s l = Some o ->
            heap.read (heap.write s2 (length s1)
                         (heap.instance tn ms (length s) (method crv) (_spline c'))) l
            = Some o).
  { intros l o Hr. pose proof (read_lt _ _ _ Hr).
    rewrite read_write_other by lia. unfold s2, s1. auto using read_app_old. }
  split; [|split; [|exact Hold]].
  - apply load_intro with (tn := tn) (ms := ms) (ys := length s).
    + rewrite read_write_same by lia. rewrite Hmeth. reflexivity.
    + rewrite Htn. apply Hold. assumption.
    + rewrite Hms. apply Hold. assumption.
    + rewrite read_write_other by lia. rewrite Hys. exact Hy2.
  - apply nth_error_None. lia.
Qed.

(** C5: the parallel shock of a constructed curve, through [apply_shock]
    on the value and through [shock_parallel] on the store that holds the
    curve at [ref].  The call returns a new object; its curve has the
    tenors, the maturities and the method of the input and every node yield
    moved by [bp / 10000]; and every object that was in the store, the
    input curve and the arrays behind its fields among them, is as it was. *)
Theorem C5_parallel_shock s ref crv bp twist_short_up :
  heap.load s ref = Some crv -> constructed crv ->
  exists new_ref s' shocked,
    apply_shock crv "parallel" bp twist_short_up = Ok shocked /\
    heap.shock_parallel ref bp s = Ok (new_ref, s') /\
    heap.load s' new_ref = Some shocked /\
    heap.read s new_ref = None /\
    tenors shocked = tenors crv /\
    maturities shocked = maturities crv /\
    method shocked = method crv /\
    length (yields shocked) = length (yields crv) /\
    (forall i, (i < length (yields crv))%nat ->
       nth i (yields shocked) 0 = nth i (yields crv) 0 + bp / 10000) /\
    (forall l o, heap.read s l = Some o -> heap.read s' l = Some o) /\
    heap.load s' ref = Some crv.
Proof.
  intros Hload Hc.
  destruct (heap_shock_parallel s ref crv bp Hload Hc)
    as (new_ref & s' & c' & Hrun & Hs & Hnew & Hfresh & Hold).
  destruct (shock_parallel_Ok crv bp Hc) as (c2 & Hs2 & _ & Ht & Hm & Hy & Hmeth).
  rewrite Hs in Hs2. injection Hs2 as <-.
  exists new_ref, s', c'.
  change (apply_shock crv "parallel" bp twist_short_up) with (shock_parallel crv bp).
  repeat split; auto.
  - rewrite Hy. apply shift_length.
  - intros i Hi. rewrite Hy. apply shift_nth; assumption.
  - destruct (load_inv _ _ _ Hload) as (tn & ms & ys & Hl & Htn & Hms & Hys).
    apply load_intro with (tn := tn) (ms := ms) (ys := ys); auto.
Qed.

Lemma example_store_load : heap.load example_store 3%nat = Some example_cubic.
Proof. reflexivity. Qed.

Lemma C5_parallel_shock_witness :
  exists new_ref s' shocked,
    apply_shock example_cubic "parallel" 25 true = Ok shocked /\
    heap.shock_parallel 3%nat 25 example_store = Ok (new_ref, s') /\
    heap.load s' new_ref = Some shocked /\
    heap.read example_store new_ref = None /\
    tenors shocked = example_tenors /\
    maturities shocked = example_maturities /\
    method shocked = "cubic"%string /\
    length (yields shocked) = 3%nat /\
    (forall i, (i < 3)%nat ->
       nth i (yields shocked) 0 = nth i example_yields 0 + 25 / 10000) /\
    (forall l o, heap.read example_store l = Some o -> heap.read s' l = Some o) /\
    heap.load s' 3%nat = Some example_cubic.
Proof.
  exact (C5_parallel_shock example_store 3%nat example_cubic 25 true
           example_store_load example_cubic_constructed).
Defined.

(** ** Shocks that use the span *)

Lemma broadcast_same_length f a b :
  length a = length b -> np.broadcast f a b = Ok (np.map2 f a b).
Proof. intros H. unfold np.broadcast. rewrite (proj2 (Nat.eqb_eq _ _) H). reflexivity. Qed.

Lemma rebuild_broadcast f crv v :
  constructed crv -> length v = length (yields crv) ->
  exists crv',
    (ys <- np.broadcast f (yields crv) v ;;
     __post_init__ (tenors crv) (maturities crv) ys (method crv)) = Ok crv' /\
    constructed crv' /\
    tenors crv' = tenors crv /\ maturities crv' = maturities crv /\
    yields crv' = np.map2 f (yields crv) v /\ method crv' = method crv.
Proof.
  intros Hc Hlen. rewrite broadcast_same_length by congruence. unfold bind.
  apply rebuild; auto. rewrite map2_length, Hlen. apply Nat.min_id.
Qed.

Lemma first_last_nonempty (a : list R) :
  a <> [] -> exists a0 rest, a = a0 :: rest /\
    np.first a = Ok a0 /\ np.last a = Ok (np.last_of a0 rest).
Proof. destruct a as [|a0 rest]; [congruence|]. intros _. exists a0, rest. auto. Qed.

Lemma ramp_Ok crv :
  maturities crv <> [] ->
  exists w, ramp crv = Ok w /\ length w = length (maturities crv).
Proof.
  intros Hne. destruct (first_last_nonempty _ Hne) as (m0 & rest & Hm & Hf & Hl).
  unfold ramp. rewrite Hf, Hl. unfold bind. eexists. split; [reflexivity|].
  apply length_map.
Qed.

Lemma moved_by_intro crv crv' bump w :
  constructed crv' /\ tenors crv' = tenors crv /\ maturities crv' = maturities crv /\
  yields crv' = np.map2 Rplus (yields crv) (np.scale bump w) /\ method crv' = method crv ->
  length w = length (yields crv) -> moved_by crv crv' bump w.
Proof. unfold moved_by. tauto. Qed.

Lemma map2_minus_scale a bump : forall w,
  np.map2 Rminus a (np.scale bump w) = np.map2 Rplus a (np.scale bump (map Ropp w)).
Proof.
  induction a as [|u a IH]; intros [|v w]; simpl; auto.
  rewrite IH. f_equal. ring.
Qed.

Lemma shock_steepen_Ok crv bp :
  constructed crv -> maturities crv <> [] ->
  exists crv' w, shock_steepen crv bp = Ok crv' /\ moved_by crv crv' (bp / 10000) w.
Proof.
  intros Hc Hne. destruct (constructed_inv crv Hc) as (Hlen & _).
  destruct (ramp_Ok crv Hne) as (w & Hw & Hwl).
  unfold shock_steepen, bp_to_decimal, np.add. rewrite Hw. unfold bind at 1.
  destruct (rebuild_broadcast Rplus crv (np.scale (bp / 10000) w) Hc) as (crv' & Hr & Hrest).
  { rewrite scale_length. congruence. }
  exists crv', w. split; [exact Hr|]. apply moved_by_intro; [tauto | congruence].
Qed.

Lemma shock_flatten_Ok crv bp :
  constructed crv -> maturities crv <> [] ->
  exists crv' w, shock_flatten crv bp = Ok crv' /\ moved_by crv crv' (bp / 10000) w.
Proof.
  intros Hc Hne. destruct (constructed_inv crv Hc) as (Hlen & _).
  destruct (ramp_Ok crv Hne) as (w & Hw & Hwl).
  unfold shock_flatten, bp_to_decimal, np.sub. rewrite Hw. unfold bind at 1.
  destruct (rebuild_broadcast Rminus crv (np.scale (bp / 10000) w) Hc) as (crv' & Hr & Hrest).
  { rewrite scale_length. congruence. }
  exists crv', (map Ropp w). split; [exact Hr|].
  rewrite map2_minus_scale in Hrest.
  apply moved_by_intro; [tauto | rewrite length_map; congruence].
Qed.

Lemma shock_twist_Ok crv bp short_up :
  constructed crv -> maturities crv <> [] ->
  exists crv' w, shock_twist crv bp short_up = Ok crv' /\ moved_by crv crv' (bp / 10000) w.
Proof.
  intros Hc Hne. destruct (constructed_inv crv Hc) as (Hlen & _).
  destruct (ramp_Ok crv Hne) as (w01 & Hw & Hwl).
  unfold shock_twist, bp_to_decimal, np.add. rewrite Hw. unfold bind at 1.
  set (w := if negb short_up then _ else _).
  assert (Hwlen : length w = length (yields crv)).
  { unfold w. destruct (negb short_up); rewrite ?length_map; congruence. }
  destruct (rebuild_broadcast Rplus crv (np.scale (bp / 10000) w) Hc) as (crv' & Hr & Hrest).
  { rewrite scale_length. assumption. }
  exists crv', w. split; [exact Hr|]. apply moved_by_intro; [tauto | assumption].
Qed.

Lemma shock_butterfly_Ok crv bp :
  constructed crv -> maturities crv <> [] ->
  exists crv' w,
    shock_butterfly crv bp = Ok crv' /\
    moved_by crv crv' (bp / 10000) (np.shift w (- np.mean w)).
Proof.
  intros Hc Hne. destruct (constructed_inv crv Hc) as (Hlen & _).
  destruct (first_last_nonempty _ Hne) as (m0 & rest & Hm & Hf & Hl).
  unfold shock_butterfly, bp_to_decimal, np.add. rewrite Hf, Hl. unfold bind at 1 2.
  set (bell := map _ (maturities crv)).
  assert (Hbl : length bell = length (yields crv)).
  { unfold bell. rewrite length_map. assumption. }
  assert (Hb : exists b0 brest, bell = b0 :: brest).
  { unfold bell. rewrite Hm. simpl. eauto. }
  destruct Hb as (b0 & brest & Hb). clearbody bell. subst bell.
  change (np.max (b0 :: brest)) with (Ok (fold_left Rmax brest b0)). unfold bind at 1.
  set (w := map _ (b0 :: brest)).
  assert (Hwlen : length w = length (yields crv)).
  { unfold w. rewrite length_map. assumption. }
  destruct (rebuild_broadcast Rplus crv
              (np.scale (bp / 10000) (np.shift w (- np.mean w))) Hc) as (crv' & Hr & Hrest).
  { rewrite scale_length, shift_length. assumption. }
  exists crv', w. split; [exact Hr|].
  apply moved_by_intro; [tauto | rewrite shift_length; assumption].
Qed.

Lemma span_shock_Ok crv name bp twist_short_up :
  constructed crv -> maturities crv <> [] ->
  In (strip (lower name)) span_shocks ->
  exists crv' w,
    apply_shock crv name bp twist_short_up = Ok crv' /\ moved_by crv crv' (bp / 10000) w.
Proof.
  intros Hc Hne Hin. unfold apply_shock.
  destruct Hin as [<-|[<-|[<-|[<-|[]]]]]; simpl String.eqb; cbv iota.
  - apply shock_steepen_Ok; assumption.
  - apply shock_flatten_Ok; assumption.
  - apply shock_twist_Ok; assumption.
  - destruct (shock_butterfly_Ok crv bp Hc Hne) as (crv' & w & H). eauto.
Qed.

(** ** C6: the butterfly shock has zero mean *)

Lemma sum_shift a k : np.sum (np.shift a k) = np.sum a + INR (length a) * k.
Proof.
  induction a as [|v a IH]; [simpl; ring|].
  change (np.sum (np.shift (v :: a) k)) with (v + k + np.sum (np.shift a k)).
  change (np.sum (v :: a)) with (v + np.sum a).
  rewrite IH. change (length (v :: a)) with (S (length a)). rewrite S_INR. ring.
Qed.

Lemma sum_scale k a : np.sum (np.scale k a) = k * np.sum a.
Proof.
  induction a as [|v a IH]; [simpl; ring|].
  change (np.sum (np.scale k (v :: a))) with (k * v + np.sum (np.scale k a)).
  change (np.sum (v :: a)) with (v + np.sum a). rewrite IH. ring.
Qed.

Lemma mean_scale k a : np.mean (np.scale k a) = k * np.mean a.
Proof. unfold np.mean. rewrite sum_scale, scale_length. unfold Rdiv. ring. Qed.

Lemma mean_centered a : a <> [] -> np.mean (np.shift a (- np.mean a)) = 0.
Proof.
  intros Hne. unfold np.mean at 1. rewrite sum_shift, shift_length.
  unfold np.mean.
  assert (Hn : INR (length a) <> 0).
  { apply not_0_INR. destruct a; [congruence | discriminate]. }
  field. assumption.
Qed.

Lemma map2_minus_plus a : forall v,
  length v = length a -> np.map2 Rminus (np.map2 Rplus a v) a = v.
Proof.
  induction a as [|u a IH]; intros [|x v] Hlen; try discriminate; [reflexivity|].
  simpl. rewrite IH by (simpl in Hlen; lia). f_equal. ring.
Qed.

Lemma moved_by_changes crv crv' bump w :
  moved_by crv crv' bump w -> yield_changes crv' crv = np.scale bump w.
Proof.
  intros (_ & Hlen & _ & _ & _ & Hy). unfold yield_changes. rewrite Hy.
  apply map2_minus_plus. rewrite scale_length. assumption.
Qed.

Lemma fold_left_Rmax_ge a : forall v, v <= fold_left Rmax a v.
Proof.
  induction a as [|u a IH]; intros v; simpl; [lra|].
  eapply Rle_trans; [apply Rmax_l | apply IH].
Qed.

(** On a constructed curve with two nodes the butterfly shock divides by
    nonzero numbers only: the span is positive and so is the peak of the
    bell, hence the weights are real numbers. *)
Lemma butterfly_divisors_positive crv m_first m_last w_max f :
  constructed crv -> (2 <= length (maturities crv))%nat ->
  np.first (maturities crv) = Ok m_first ->
  np.last (maturities crv) = Ok m_last ->
  np.max (map (fun m => exp (f m)) (maturities crv)) = Ok w_max ->
  0 < m_last - m_first /\ 0 < w_max.
Proof.
  intros Hc H2 Hf Hl Hmax. destruct (constructed_inv crv Hc) as (_ & Hinc & _).
  destruct (maturities crv) as [|m0 [|m1 rest]]; simpl in H2; try lia.
  simpl in Hf, Hl, Hmax. inversion Hf; inversion Hl; inversion Hmax; subst. split.
  - destruct Hinc as [Hlt Hinc].
    pose proof (increasing_head_le_last m1 rest Hinc). lra.
  - eapply Rlt_le_trans; [|apply fold_left_Rmax_ge].
    eapply Rlt_le_trans; [apply exp_pos | apply Rmax_l].
Qed.

(** C6: on a constructed curve with at least two nodes (their maturities
    are then distinct) the butterfly shock returns a curve, and the mean
    over the nodes of the change in yield is zero, whatever [bp] is: the
    weight is re-centred to zero mean before it is scaled.  In exact
    arithmetic the mean is 0; float64 leaves a rounding residue. *)
Theorem C6_butterfly_zero_mean crv bp twist_short_up :
  constructed crv -> (2 <= length (maturities crv))%nat ->
  exists shocked,
    apply_shock crv "butterfly" bp twist_short_up = Ok shocked /\
    np.mean (yield_changes shocked crv) = 0.
Proof.
  intros Hc H2.
  assert (Hne : maturities crv <> []).
  { intros Hnil. rewrite Hnil in H2. simpl in H2. lia. }
  destruct (shock_butterfly_Ok crv bp Hc Hne) as (crv' & w & Hs & Hmv).
  exists crv'. split; [exact Hs|].
  rewrite (moved_by_changes _ _ _ _ Hmv), mean_scale, mean_centered; [ring|].
  destruct Hmv as (_ & Hlen & _). rewrite shift_length in Hlen.
  destruct (constructed_inv crv Hc) as (Hl & _).
  intros Hnil. rewrite Hnil in Hlen. simpl in Hlen. lia.
Qed.

Lemma C6_butterfly_zero_mean_witness :
  exists shocked,
    apply_shock example_linear "butterfly" 50 true = Ok shocked /\
    np.mean (yield_changes shocked example_linear) = 0.
Proof.
  apply (C6_butterfly_zero_mean example_linear 50 true example_linear_constructed).
  simpl. lia.
Defined.

(** ** C9: shocks on a curve with a single node *)

Lemma single_node_constructed : constructed single_node.
Proof.
  exists ["1Y"%string], [1], [0.04], "linear"%string. reflexivity.
Qed.

(** C9, as stated, fails: the steepen shock of a constructed single-node
    curve raises nothing and returns a curve. *)
Lemma C9_single_node_steepen_returns :
  constructed single_node /\ length (maturities single_node) = 1%nat /\
  returns (apply_shock single_node "steepen" 10 true) /\
  ~ is_ValueError (apply_shock single_node "steepen" 10 true).
Proof.
  assert (Hret : returns (apply_shock single_node "steepen" 10 true)).
  { destruct (span_shock_Ok single_node "steepen" 10 true single_node_constructed)
      as (crv' & w & H & _).
    - discriminate.
    - simpl; auto.
    - exists crv'; exact H. }
  repeat split; auto using single_node_constructed, returns_not_ValueError.
Qed.

(** C9, amended: steepen, flatten, twist and butterfly never look at the
    span.  On every constructed curve that has a node, a single node
    included, each of them returns a constructed curve with the tenors, the
    maturities and the method of the input; on a curve without a node each
    raises [IndexError] at [maturities[0]].  (With a single node the weights
    come from the division 0/0, which float64 answers with [nan]: the node
    yield of the returned curve is outside the model and nothing is said
    about it.) *)
Theorem C9_span_shocks_do_not_check_span crv name bp twist_short_up :
  constructed crv ->
  In (strip (lower name)) span_shocks ->
  (maturities crv <> [] ->
   exists shocked,
     apply_shock crv name bp twist_short_up = Ok shocked /\
     constructed shocked /\
     tenors shocked = tenors crv /\
     maturities shocked = maturities crv /\
     method shocked = method crv) /\
  (maturities crv = [] ->
   exists msg, apply_shock crv name bp twist_short_up = Raise (IndexError msg)).
Proof.
  intros Hc Hin. split.
  - intros Hne.
    destruct (span_shock_Ok crv name bp twist_short_up Hc Hne Hin)
      as (crv' & w & Hs & Hc' & _ & Ht & Hm & Hmeth & _).
    exists crv'. auto.
  - intros Hnil. unfold apply_shock.
    destruct Hin as [<-|[<-|[<-|[<-|[]]]]]; simpl String.eqb; cbv iota;
      unfold shock_steepen, shock_flatten, shock_twist, shock_butterfly, ramp;
      rewrite Hnil; simpl; eauto.
Qed.

Lemma C9_span_shocks_do_not_check_span_witness :
  (maturities single_node <> [] ->
   exists shocked,
     apply_shock single_node " Butterfly " 10 true = Ok shocked /\
     constructed shocked /\
     tenors shocked = tenors single_node /\
     maturities shocked = maturities single_node /\
     method shocked = method single_node) /\
  (maturities single_node = [] ->
   exists msg, apply_shock single_node " Butterfly " 10 true = Raise (IndexError msg)).
Proof.
  apply (C9_span_shocks_do_not_check_span single_node " Butterfly " 10 true
           single_node_constructed).
  simpl. auto.
Defined.

(** ** Rounding and the cash-flow times *)

Lemma Int_part_bounds v : IZR (Int_part v) <= v < IZR (Int_part v) + 1.
Proof. destruct (base_Int_part v). lra. Qed.

Lemma Int_part_IZR k : Int_part (IZR k) = k.
Proof. symmetry. apply Int_part_spec. lra. Qed.

Lemma round_IZR k : round (IZR k) = k.
Proof.
  unfold round. rewrite Int_part_IZR.
  replace (IZR k - IZR k) with 0 by ring. cmp. reflexivity.
Qed.

Lemma round_error v : Rabs (IZR (round v) - v) <= 1 / 2.
Proof.
  unfold round. pose proof (Int_part_bounds v) as Hb.
  set (fl := Int_part v) in *.
  destruct (Rltb (v - IZR fl) (1 / 2)) eqn:H1.
  - apply Rltb_true in H1. apply Rabs_le. lra.
  - apply Rltb_false in H1.
    destruct (Rltb (1 / 2) (v - IZR fl)) eqn:H2.
    + apply Rltb_true in H2. rewrite plus_IZR. apply Rabs_le. lra.
    + apply Rltb_false in H2. destruct (Z.even fl); rewrite ?plus_IZR; apply Rabs_le; lra.
Qed.

Lemma round_between v k : IZR k - 1 / 2 < v < IZR k + 1 / 2 -> round v = k.
Proof.
  intros Hv. pose proof (round_error v) as He.
  assert (Hb : -(1 / 2) <= IZR (round v) - v <= 1 / 2).
  { revert He. unfold Rabs. destruct (Rcase_abs _); lra. }
  assert (round v < k + 1)%Z by (apply lt_IZR; rewrite plus_IZR; lra).
  assert (k < round v + 1)%Z by (apply lt_IZR; rewrite plus_IZR; lra).
  lia.
Qed.

Lemma times_of_length n fq : length (times_of n fq) = Z.to_nat n.
Proof. unfold times_of. rewrite length_map, length_seq. reflexivity. Qed.

Lemma times_of_nth n fq i :
  (i < Z.to_nat n)%nat -> nth i (times_of n fq) 0 = INR (i + 1) / IZR fq.
Proof.
  intros Hi. unfold times_of.
  set (f := fun j : nat => INR (j + 1) / IZR fq).
  rewrite (nth_indep _ 0 (f 0%nat)) by (rewrite length_map, length_seq; assumption).
  rewrite (map_nth f), seq_nth by assumption. reflexivity.
Qed.

Lemma times_of_last n fq :
  (1 <= n)%Z -> List.last (times_of n fq) 0 = IZR n / IZR fq.
Proof.
  intros Hn. unfold times_of.
  destruct (Z.to_nat n) as [|k] eqn:Hk; [lia|].
  rewrite seq_S, map_app.
  change (map ?f [?v]) with [f v]. rewrite last_last. simpl Nat.add.
  replace (k + 1)%nat with (Z.to_nat n) by lia.
  rewrite INR_IZR_INZ, Z2Nat.id by lia. reflexivity.
Qed.

(** ** C10: the time of the last cash flow *)

Lemma odd_bond_count : cash_flow_count odd_bond = 3%Z.
Proof. unfold cash_flow_count. apply round_between. simpl. lra. Qed.

Lemma example_bond_count : cash_flow_count example_bond = 10%Z.
Proof. unfold cash_flow_count. apply round_between. simpl. lra. Qed.

(** C10, as stated, fails: a bond of 1.3 years paying twice a year has
    [round(2.6) = 3] cash flows, the last of them at 1.5 years. *)
Lemma C10_last_time_not_maturity :
  0 < maturity_years odd_bond /\ (0 < freq odd_bond)%Z /\
  (1 <= cash_flow_count odd_bond)%Z /\
  last_time odd_bond = 1.5 /\
  last_time odd_bond <> maturity_years odd_bond.
Proof.
  assert (Hlast : last_time odd_bond = 1.5).
  { unfold last_time. rewrite odd_bond_count, times_of_last by lia. simpl. lra. }
  rewrite Hlast, odd_bond_count. simpl. repeat split; try lra; lia.
Qed.

(** C10, amended: for a positive [freq] and [n >= 1] cash flows the last
    cash-flow time is [n / freq]; it lies within half a coupon period of
    [maturity_years], and it equals [maturity_years] exactly when
    [maturity_years * freq] is a whole number. *)
Theorem C10_last_cash_flow_time b :
  (0 < freq b)%Z -> (1 <= cash_flow_count b)%Z ->
  last_time b = IZR (cash_flow_count b) / IZR (freq b) /\
  Rabs (last_time b - maturity_years b) <= 1 / (2 * IZR (freq b)) /\
  (last_time b = maturity_years b <->
   exists k : Z, maturity_years b * IZR (freq b) = IZR k).
Proof.
  intros Hf Hn.
  assert (Hfr : 0 < IZR (freq b)) by (apply IZR_lt; assumption).
  assert (Hlast : last_time b = IZR (cash_flow_count b) / IZR (freq b)).
  { unfold last_time. apply times_of_last; assumption. }
  rewrite Hlast. split; [reflexivity|]. split.
  - pose proof (round_error (maturity_years b * IZR (freq b))) as He.
    fold (cash_flow_count b) in He.
    replace (IZR (cash_flow_count b) / IZR (freq b) - maturity_years b)
      with ((IZR (cash_flow_count b) - maturity_years b * IZR (freq b)) / IZR (freq b))
      by (field; lra).
    unfold Rdiv at 1. rewrite Rabs_mult, (Rabs_pos_eq (/ IZR (freq b))).
    + replace (1 / (2 * IZR (freq b))) with (1 / 2 * / IZR (freq b)) by (field; lra).
      apply Rmult_le_compat_r; [|assumption].
      apply Rlt_le, Rinv_0_lt_compat; assumption.
    + apply Rlt_le, Rinv_0_lt_compat; assumption.
  - split.
    + intros Heq. exists (cash_flow_count b). rewrite <- Heq. field. lra.
    + intros [k Hk]. unfold cash_flow_count. rewrite Hk, round_IZR, <- Hk. field. lra.
Qed.

Lemma C10_last_cash_flow_time_witness :
  last_time example_bond = IZR (cash_flow_count example_bond) / IZR (freq example_bond) /\
  Rabs (last_time example_bond - maturity_years example_bond)
    <= 1 / (2 * IZR (freq example_bond)) /\
  (last_time example_bond = maturity_years example_bond <->
   exists k : Z, maturity_years example_bond * IZR (freq example_bond) = IZR k).
Proof.
  apply (C10_last_cash_flow_time example_bond).
  - simpl. lia.
  - rewrite example_bond_count. lia.
Defined.

(** ** The pricer *)

Lemma interp_returns t xp fp :
  xp <> [] -> length xp = length fp -> returns (np.interp t xp fp).
Proof.
  intros Hne Hlen. unfold np.interp, returns.
  destruct xp as [|x0 xrest]; [congruence|].
  destruct fp as [|f0 frest]; [discriminate|].
  rewrite (proj2 (Nat.eqb_eq _ _) Hlen). simpl negb. cbv iota.
  destruct (Rltb t x0); [eauto|]. destruct (Rltb _ t); eauto.
Qed.

Lemma y_returns crv t :
  constructed crv -> maturities crv <> [] -> y crv t = Ok (yield_at crv t).
Proof.
  intros Hc Hne. destruct (constructed_inv crv Hc) as (Hlen & _ & _ & Hsp).
  assert (Hret : returns (y crv t)).
  { destruct (first_last_nonempty _ Hne) as (m0 & rest & Hm & Hf & Hl).
    unfold y. rewrite Hf, Hl. unfold bind.
    destruct (String.eqb (method crv) "cubic").
    - destruct Hsp as (sp & _ & ->). eexists; reflexivity.
    - apply interp_returns; assumption. }
  destruct Hret as [v Hv]. unfold yield_at. rewrite Hv. reflexivity.
Qed.

Lemma y_no_node crv t :
  maturities crv = [] -> exists msg, y crv t = Raise (IndexError msg).
Proof. intros Hnil. unfold y. rewrite Hnil. simpl. eauto. Qed.

Lemma mapM_total {A B} (f : A -> result B) (g : A -> B) xs :
  (forall a, In a xs -> f a = Ok (g a)) -> mapM f xs = Ok (map g xs).
Proof.
  induction xs as [|a xs IH]; intros Hf; [reflexivity|].
  simpl. rewrite (Hf a) by (left; reflexivity). unfold bind at 1.
  rewrite IH by (intros; apply Hf; right; assumption). reflexivity.
Qed.

Lemma add_last_repeat u k v :
  add_last (np.full (S k) u) v = Ok (repeat u k ++ [u + v]).
Proof.
  unfold np.full. induction k as [|k IH]; [reflexivity|].
  change (repeat u (S (S k))) with (u :: repeat u (S k)).
  change (add_last (u :: repeat u (S k)) v)
    with (rest <- add_last (repeat u (S k)) v ;; Ok (u :: rest)).
  rewrite IH. reflexivity.
Qed.

Lemma map_seq_const (f : nat -> R) u k : forall s,
  (forall i, (s <= i < s + k)%nat -> f i = u) -> map f (seq s k) = repeat u k.
Proof.
  induction k as [|k IH]; intros s Hf; [reflexivity|].
  simpl. rewrite (Hf s) by lia. f_equal. apply IH. intros i Hi. apply Hf. lia.
Qed.

Lemma cash_flows_as_map b k :
  repeat (face b * coupon_rate b / IZR (freq b)) k
    ++ [face b * coupon_rate b / IZR (freq b) + face b]
  = map (cash_flow b (S k)) (seq 0 (S k)).
Proof.
  rewrite seq_S, map_app. f_equal.
  - symmetry. apply map_seq_const. intros i Hi. unfold cash_flow.
    rewrite (proj2 (Nat.eqb_neq (S i) (S k))) by lia. ring.
  - simpl. unfold cash_flow. rewrite Nat.eqb_refl. reflexivity.
Qed.

Lemma map2_map_map (f : R -> R -> R) (g h : nat -> R) l :
  np.map2 f (map g l) (map h l) = map (fun i => f (g i) (h i)) l.
Proof. induction l as [|i l IH]; simpl; [reflexivity|]. rewrite IH. reflexivity. Qed.

(** The pricer on a constructed curve with a node and a bond with [n >= 1]
    cash flows. *)
Lemma price_bond_formula crv b :
  constructed crv -> maturities crv <> [] -> (1 <= cash_flow_count b)%Z ->
  price_bond crv b = Ok (price_formula crv b).
Proof.
  intros Hc Hne Hn. unfold price_bond, price_formula. fold (cash_flow_count b).
  rewrite (proj2 (Z.leb_gt _ _)) by lia.
  destruct (Z.to_nat (cash_flow_count b)) as [|k] eqn:Hk; [lia|].
  rewrite add_last_repeat. unfold bind at 1.
  rewrite (mapM_total _ (fun t => 1 / float_pow (1 + yield_at crv t) t)).
  2:{ intros t _. rewrite (y_returns crv t Hc Hne). reflexivity. }
  unfold bind at 1. unfold times_of. rewrite Hk, map_map, cash_flows_as_map.
  unfold np.mul. rewrite broadcast_same_length by (rewrite !length_map; reflexivity).
  unfold bind. rewrite map2_map_map. reflexivity.
Qed.

Lemma price_bond_no_cash_flow crv b :
  (cash_flow_count b < 1)%Z ->
  price_bond crv b = Raise (ValueError "Bond maturity_years * freq must be >= 1").
Proof.
  intros Hn. unfold price_bond. fold (cash_flow_count b).
  rewrite (proj2 (Z.leb_le _ _)) by lia. reflexivity.
Qed.

Lemma price_bond_no_node crv b :
  maturities crv = [] -> (1 <= cash_flow_count b)%Z ->
  exists msg, price_bond crv b = Raise (IndexError msg).
Proof.
  intros Hnil Hn. unfold price_bond. fold (cash_flow_count b).
  rewrite (proj2 (Z.leb_gt _ _)) by lia.
  destruct (Z.to_nat (cash_flow_count b)) as [|k] eqn:Hk; [lia|].
  rewrite add_last_repeat. unfold bind at 1.
  unfold times_of. rewrite Hk. simpl mapM.
  destruct (y_no_node crv (1 / IZR (freq b)) Hnil) as [msg ->].
  simpl. eauto.
Qed.

(** ** C1: the price of a bond *)

(** C1: with [n = round(maturity_years * freq)], pricing against a
    constructed curve raises the invalid-argument error exactly when
    [n < 1]; otherwise, the curve having a node to read a yield from, it
    returns the sum over [i = 0 .. n-1] of cash flow times discount factor,
    with the times, the cash flows and the per-flow discount factors of
    [price_formula]. *)
Theorem C1_price_bond crv b :
  constructed crv ->
  (is_ValueError (price_bond crv b) <-> (cash_flow_count b < 1)%Z) /\
  ((1 <= cash_flow_count b)%Z -> maturities crv <> [] ->
   price_bond crv b = Ok (price_formula crv b)).
Proof.
  intros Hc. split.
  - split.
    + intros [msg Hmsg]. destruct (Z_lt_le_dec (cash_flow_count b) 1) as [|Hn]; [assumption|].
      exfalso. destruct (maturities crv) as [|m0 rest] eqn:Hm.
      * destruct (price_bond_no_node crv b Hm Hn) as [msg' H']. congruence.
      * rewrite price_bond_formula in Hmsg; auto; [discriminate | congruence].
    + intros Hn. rewrite price_bond_no_cash_flow by assumption. eexists; reflexivity.
  - intros Hn Hne. apply price_bond_formula; assumption.
Qed.

Lemma C1_price_bond_witness :
  (is_ValueError (price_bond example_linear example_bond)
     <-> (cash_flow_count example_bond < 1)%Z) /\
  ((1 <= cash_flow_count example_bond)%Z -> maturities example_linear <> [] ->
   price_bond example_linear example_bond = Ok (price_formula example_linear example_bond)).
Proof.
  exact (C1_price_bond example_linear example_bond example_linear_constructed).
Defined.

Lemma price_bond_Ok_inv crv b p :
  price_bond crv b = Ok p ->
  (1 <= cash_flow_count b)%Z /\ maturities crv <> [].
Proof.
  intros Hp.
  destruct (Z_lt_le_dec (cash_flow_count b) 1) as [Hn|Hn].
  { rewrite price_bond_no_cash_flow in Hp by assumption. discriminate. }
  split; [assumption|]. intros Hnil.
  destruct (price_bond_no_node crv b Hnil Hn) as [msg Hmsg]. congruence.
Qed.

Lemma truediv_Ok a d : d <> 0 -> truediv a d = Ok (a / d).
Proof. intros Hd. unfold truediv. rewrite (proj2 (Reqb_false d 0) Hd). reflexivity. Qed.

(** ** C2: the risk numbers *)

(** C2: when the base price [p0] is nonzero and [bp] is nonzero, the risk
    function returns a mapping with exactly the six keys, in which the up
    and down prices are the prices against the curve shocked in parallel by
    [+bp] and by [-bp], and DV01, modified duration and convexity are the
    central differences of those prices with [dy = bp / 10000]. *)
Theorem C2_risk_metrics crv b bp p0 :
  constructed crv -> price_bond crv b = Ok p0 -> p0 <> 0 -> bp <> 0 ->
  exists curve_up curve_dn p_up p_dn d,
    apply_shock crv "parallel" bp true = Ok curve_up /\
    apply_shock crv "parallel" (- bp) true = Ok curve_dn /\
    price_bond curve_up b = Ok p_up /\
    price_bond curve_dn b = Ok p_dn /\
    dv01_duration_convexity crv b bp = Ok d /\
    keys d = ["price"; "price_up_+bp"; "price_dn_-bp";
              "DV01_per_1bp"; "mod_duration"; "convexity"]%string /\
    get d "price" = Some p0 /\
    get d "price_up_+bp" = Some p_up /\
    get d "price_dn_-bp" = Some p_dn /\
    get d "DV01_per_1bp" = Some ((p_dn - p_up) / 2) /\
    get d "mod_duration" = Some ((p_dn - p_up) / (2 * p0 * (bp / 10000))) /\
    get d "convexity" = Some ((p_dn + p_up - 2 * p0) / (p0 * (bp / 10000) ^ 2)).
Proof.
  intros Hc Hp0 Hnz Hbp.
  destruct (price_bond_Ok_inv crv b p0 Hp0) as [Hn Hne].
  destruct (shock_parallel_Ok crv bp Hc) as (cu & Hu & Hcu & _ & Hmu & _).
  destruct (shock_parallel_Ok crv (- bp) Hc) as (cd & Hd & Hcd & _ & Hmd & _).
  assert (Hpu : price_bond cu b = Ok (price_formula cu b)).
  { apply price_bond_formula; auto. congruence. }
  assert (Hpd : price_bond cd b = Ok (price_formula cd b)).
  { apply price_bond_formula; auto. congruence. }
  assert (Hdy : bp / 10000 <> 0).
  { intros H0. apply Hbp. apply Rmult_eq_reg_r with (/ 10000); lra. }
  exists cu, cd, (price_formula cu b), (price_formula cd b).
  eexists. split; [exact Hu|]. split; [exact Hd|]. split; [exact Hpu|]. split; [exact Hpd|].
  split.
  - unfold dv01_duration_convexity, bp_to_decimal.
    rewrite Hp0. unfold bind at 1. rewrite Hu. unfold bind at 1.
    rewrite Hd. unfold bind at 1. rewrite Hpu. unfold bind at 1.
    rewrite Hpd. unfold bind at 1.
    rewrite truediv_Ok.
    2:{ apply Rmult_integral_contrapositive_currified; [|assumption].
        apply Rmult_integral_contrapositive_currified; [lra | assumption]. }
    unfold bind at 1. rewrite truediv_Ok.
    2:{ apply Rmult_integral_contrapositive_currified; [assumption|].
        apply pow_nonzero; assumption. }
    unfold bind. reflexivity.
  - repeat split; reflexivity.
Qed.

(** ** A parallel shock moves the whole curve by the bump *)

Lemma last_of_shift a0 rest k :
  np.last_of (a0 + k) (np.shift rest k) = np.last_of a0 rest + k.
Proof.
  revert a0. induction rest as [|a1 rest IH]; intros a0; [reflexivity|].
  simpl. apply IH.
Qed.

Lemma interp_scan_shift t k xp : forall fp,
  fp <> [] -> np.interp_scan t xp (np.shift fp k) = np.interp_scan t xp fp + k.
Proof.
  induction xp as [|x0 xp IH]; intros fp Hne.
  - destruct fp as [|f0 fp]; [congruence | reflexivity].
  - destruct fp as [|f0 fp]; [congruence|].
    destruct xp as [|x1 xp]; [reflexivity|].
    destruct fp as [|f1 fp]; [reflexivity|].
    change (np.shift (f0 :: f1 :: fp) k) with ((f0 + k) :: (f1 + k) :: np.shift fp k).
    rewrite !interp_scan_cons.
    destruct (Rltb t x1).
    + destruct (Reqb t x0); [reflexivity|]. unfold Rdiv. ring.
    + apply (IH (f1 :: fp)). discriminate.
Qed.

Lemma interp_shift t k xp fp v :
  np.interp t xp fp = Ok v -> np.interp t xp (np.shift fp k) = Ok (v + k).
Proof.
  unfold np.interp. destruct xp as [|x0 xrest]; [discriminate|].
  destruct fp as [|f0 frest]; [discriminate|].
  change (np.shift (f0 :: frest) k) with ((f0 + k) :: np.shift frest k).
  change (length ((f0 + k) :: np.shift frest k)) with (S (length (np.shift frest k))).
  rewrite shift_length. change (S (length frest)) with (length (f0 :: frest)).
  destruct (negb _); [discriminate|].
  destruct (Rltb t x0); [intros H; inversion H; reflexivity|].
  destruct (Rltb _ t).
  - intros H; inversion H. rewrite last_of_shift. reflexivity.
  - intros H; inversion H.
    change ((f0 + k) :: np.shift frest k) with (np.shift (f0 :: frest) k).
    rewrite interp_scan_shift by discriminate. reflexivity.
Qed.

Lemma diff_shift a k : np.diff (np.shift a k) = np.diff a.
Proof.
  induction a as [|a0 rest IH]; [reflexivity|].
  destruct rest as [|a1 rest]; [reflexivity|].
  change (np.diff (np.shift (a0 :: a1 :: rest) k))
    with ((a1 + k - (a0 + k)) :: np.diff (np.shift (a1 :: rest) k)).
  rewrite IH. change (np.diff (a0 :: a1 :: rest)) with ((a1 - a0) :: np.diff (a1 :: rest)).
  f_equal. ring.
Qed.

Lemma intervals_shift xs ys k :
  scipy.intervals xs (np.shift ys k) = scipy.intervals xs ys.
Proof. unfold scipy.intervals. rewrite diff_shift. reflexivity. Qed.

Lemma cubic_hermite_shift x0 x1 y0 y1 s0 s1 k u :
  scipy.cubic (scipy.hermite_row x0 x1 (y0 + k) (y1 + k) s0 s1) u =
  scipy.cubic (scipy.hermite_row x0 x1 y0 y1 s0 s1) u + k.
Proof. unfold scipy.cubic, scipy.hermite_row, Rdiv. ring. Qed.

Lemma evaluate_shift k t xs : forall ys s,
  length xs = length ys -> length xs = length s -> (2 <= length xs)%nat ->
  scipy.evaluate (scipy.hermite xs (np.shift ys k) s) xs t =
  scipy.evaluate (scipy.hermite xs ys s) xs t + k.
Proof.
  induction xs as [|x0 xs IH]; intros ys s Hly Hls H2; [simpl in H2; lia|].
  destruct xs as [|x1 xs]; [simpl in H2; lia|].
  destruct ys as [|y0 [|y1 ys]]; try discriminate.
  destruct s as [|s0 [|s1 s]]; try discriminate.
  change (np.shift (y0 :: y1 :: ys) k) with ((y0 + k) :: (y1 + k) :: np.shift ys k).
  rewrite !hermite_cons.
  destruct xs as [|x2 xs].
  - destruct ys; [|discriminate]. destruct s; [|discriminate].
    change (scipy.hermite [x1] (y1 + k :: np.shift [] k) [s1]) with (@nil (R * R * R * R)).
    change (scipy.hermite [x1] [y1] [s1]) with (@nil (R * R * R * R)).
    rewrite !evaluate_last. apply cubic_hermite_shift.
  - destruct ys as [|y2 ys]; [discriminate|]. destruct s as [|s2 s]; [discriminate|].
    change (np.shift (y2 :: ys) k) with ((y2 + k) :: np.shift ys k).
    rewrite (hermite_cons x1 x2 xs (y1 + k)), (hermite_cons x1 x2 xs y1), !evaluate_cons.
    rewrite <- !hermite_cons.
    destruct (Rltb t x1); [apply cubic_hermite_shift|].
    apply (IH (y1 :: y2 :: ys) (s1 :: s2 :: s)); simpl in *; lia.
Qed.

Lemma CubicSpline_shift xs ys k sp sp' t :
  scipy.CubicSpline xs ys = Ok sp -> scipy.CubicSpline xs (np.shift ys k) = Ok sp' ->
  scipy.call sp' t = scipy.call sp t + k.
Proof.
  unfold scipy.CubicSpline. rewrite shift_length, intervals_shift.
  destruct (Nat.ltb (length xs) 2) eqn:H2; [discriminate|]. apply Nat.ltb_ge in H2.
  destruct (Nat.eqb (length xs) (length ys)) eqn:Hlen; [|discriminate].
  apply Nat.eqb_eq in Hlen. simpl negb. cbv iota.
  destruct (np.any _); [discriminate|].
  intros H H'. inversion H; inversion H'; subst; clear H H'.
  unfold scipy.call. simpl. apply evaluate_shift; auto.
  symmetry. apply derivatives_length; auto.
Qed.

Lemma y_shift crv crv' k t :
  constructed crv -> constructed crv' -> maturities crv <> [] ->
  maturities crv' = maturities crv -> method crv' = method crv ->
  yields crv' = np.shift (yields crv) k ->
  yield_at crv' t = yield_at crv t + k.
Proof.
  intros Hc Hc' Hne Hm Hmeth Hy.
  assert (Hne' : maturities crv' <> []) by congruence.
  pose proof (y_returns crv t Hc Hne) as Hv.
  pose proof (y_returns crv' t Hc' Hne') as Hv'.
  destruct (constructed_inv crv Hc) as (_ & _ & _ & Hsp).
  destruct (constructed_inv crv' Hc') as (_ & _ & _ & Hsp').
  destruct (first_last_nonempty _ Hne) as (m0 & rest & Hmm & Hf & Hl).
  unfold y in Hv, Hv'. rewrite Hm, Hmeth, Hy in *. rewrite Hf, Hl in Hv, Hv'.
  unfold bind in Hv, Hv'.
  destruct (String.eqb (method crv) "cubic").
  - destruct Hsp as (sp & Hfit & Hs). destruct Hsp' as (sp' & Hfit' & Hs').
    rewrite Hs in Hv. rewrite Hs' in Hv'. injection Hv as Hv1. injection Hv' as Hv1'.
    rewrite <- Hv1, <- Hv1'. apply (CubicSpline_shift _ _ _ _ _ _ Hfit Hfit').
  - apply (interp_shift _ k) in Hv. rewrite Hv in Hv'. injection Hv' as Hv1'.
    symmetry. exact Hv1'.
Qed.

Lemma shock_parallel_yield_at crv crv' bp t :
  constructed crv -> maturities crv <> [] -> shock_parallel crv bp = Ok crv' ->
  yield_at crv' t = yield_at crv t + bp / 10000.
Proof.
  intros Hc Hne Hs.
  destruct (shock_parallel_Ok crv bp Hc) as (c2 & Hs2 & Hc2 & _ & Hm & Hy & Hmeth).
  rewrite Hs in Hs2. inversion Hs2; subst c2.
  apply y_shift; auto.
Qed.

(** ** Price against yield *)

Lemma float_pow_positive base t : 0 < base -> float_pow base t = Rpower base t.
Proof. intros Hb. unfold float_pow. cmp. reflexivity. Qed.

Lemma float_pow_whole base k : base <= 0 -> float_pow base (IZR k) = powerRZ base k.
Proof.
  intros Hb. unfold float_pow. cmp. rewrite Int_part_IZR, Reqb_refl. reflexivity.
Qed.

Lemma Rpower_pos base t : 0 < Rpower base t.
Proof. unfold Rpower. apply exp_pos. Qed.

(** The discount factor [1 / (1 + v) ** t] falls when the yield [v] rises,
    for a positive time and a positive base. *)
Lemma discount_antitone t v v' :
  0 < t -> 0 < 1 + v -> v < v' ->
  1 / float_pow (1 + v') t < 1 / float_pow (1 + v) t.
Proof.
  intros Ht Hb Hv. rewrite !float_pow_positive by lra.
  unfold Rdiv. rewrite !Rmult_1_l.
  apply Rinv_lt_contravar.
  - apply Rmult_lt_0_compat; apply Rpower_pos.
  - apply Rlt_Rpower_l; lra.
Qed.

Lemma cash_flow_time_pos b i : (0 < freq b)%Z -> 0 < cash_flow_time b i.
Proof.
  intros Hf. unfold cash_flow_time. apply Rdiv_lt_0_compat.
  - apply lt_0_INR. lia.
  - apply IZR_lt. assumption.
Qed.

Lemma coupon_nonneg b :
  0 < face b -> 0 <= coupon_rate b -> (0 < freq b)%Z ->
  0 <= face b * coupon_rate b / IZR (freq b).
Proof.
  intros Hface Hc Hf. apply IZR_lt in Hf.
  apply Rmult_le_pos; [apply Rmult_le_pos; lra|].
  apply Rlt_le, Rinv_0_lt_compat. assumption.
Qed.

Lemma cash_flow_nonneg b n i :
  0 < face b -> 0 <= coupon_rate b -> (0 < freq b)%Z -> 0 <= cash_flow b n i.
Proof.
  intros Hface Hc Hf. pose proof (coupon_nonneg b Hface Hc Hf).
  unfold cash_flow. destruct (Nat.eqb (S i) n); lra.
Qed.

Lemma cash_flow_last_pos b k :
  0 < face b -> 0 <= coupon_rate b -> (0 < freq b)%Z -> 0 < cash_flow b (S k) k.
Proof.
  intros Hface Hc Hf. pose proof (coupon_nonneg b Hface Hc Hf).
  unfold cash_flow. rewrite Nat.eqb_refl. lra.
Qed.

Lemma sum_map_le (f g : nat -> R) l :
  (forall i, In i l -> f i <= g i) -> np.sum (map f l) <= np.sum (map g l).
Proof.
  induction l as [|i l IH]; intros H; [simpl; lra|].
  change (np.sum (map f (i :: l))) with (f i + np.sum (map f l)).
  change (np.sum (map g (i :: l))) with (g i + np.sum (map g l)).
  pose proof (H i (or_introl eq_refl)).
  assert (np.sum (map f l) <= np.sum (map g l)) by (apply IH; intros; apply H; right; auto).
  lra.
Qed.

Lemma sum_map_lt (f g : nat -> R) l j :
  (forall i, In i l -> f i <= g i) -> In j l -> f j < g j ->
  np.sum (map f l) < np.sum (map g l).
Proof.
  induction l as [|i l IH]; intros H Hin Hj; [destruct Hin|].
  change (np.sum (map f (i :: l))) with (f i + np.sum (map f l)).
  change (np.sum (map g (i :: l))) with (g i + np.sum (map g l)).
  pose proof (H i (or_introl eq_refl)).
  assert (Hrest : forall i', In i' l -> f i' <= g i') by (intros; apply H; right; auto).
  destruct Hin as [->|Hin].
  - pose proof (sum_map_le f g l Hrest). lra.
  - pose proof (IH Hrest Hin Hj). lra.
Qed.

(** Between two curves of which the second lies above the first at every
    cash-flow time, a bond with positive face and no negative coupon is
    worth less on the second. *)
Lemma price_formula_antitone lo hi b :
  0 < face b -> 0 <= coupon_rate b -> (0 < freq b)%Z -> (1 <= cash_flow_count b)%Z ->
  (forall i, (i < Z.to_nat (cash_flow_count b))%nat ->
     0 < 1 + yield_at lo (cash_flow_time b i) /\
     yield_at lo (cash_flow_time b i) < yield_at hi (cash_flow_time b i)) ->
  price_formula hi b < price_formula lo b.
Proof.
  intros Hface Hc Hf Hn Hy. unfold price_formula.
  destruct (Z.to_nat (cash_flow_count b)) as [|k] eqn:Hk; [lia|].
  apply sum_map_lt with (j := k).
  - intros i Hi. apply in_seq in Hi. destruct (Hy i) as [Hb Hlt]; [lia|].
    apply Rmult_le_compat_l; [apply cash_flow_nonneg; assumption|].
    apply Rlt_le. unfold discount_factor.
    apply discount_antitone; auto using cash_flow_time_pos.
  - apply in_seq. lia.
  - destruct (Hy k) as [Hb Hlt]; [lia|].
    apply Rmult_lt_compat_l; [apply cash_flow_last_pos; assumption|].
    unfold discount_factor. apply discount_antitone; auto using cash_flow_time_pos.
Qed.

(** ** C7: price against a parallel shift *)

(** C7, amended: for a bond with positive face, non-negative coupon rate
    and positive frequency that has at least one cash flow, a constructed
    curve with a node, and [bp > 0] small enough that every discount base
    stays positive after the downward shift ([1 + yieldAt(t_i) - bp/10000
    > 0] at each cash-flow time), the three prices exist and
    price(+bp) < price < price(-bp). *)
Theorem C7_price_antitone_in_parallel_shift crv b bp :
  constructed crv -> maturities crv <> [] ->
  0 < face b -> 0 <= coupon_rate b -> (0 < freq b)%Z -> (1 <= cash_flow_count b)%Z ->
  0 < bp ->
  (forall i, (i < Z.to_nat (cash_flow_count b))%nat ->
     0 < 1 + yield_at crv (cash_flow_time b i) - bp / 10000) ->
  exists curve_up curve_dn p_up p0 p_dn,
    apply_shock crv "parallel" bp true = Ok curve_up /\
    apply_shock crv "parallel" (- bp) true = Ok curve_dn /\
    price_bond curve_up b = Ok p_up /\
    price_bond crv b = Ok p0 /\
    price_bond curve_dn b = Ok p_dn /\
    p_up < p0 < p_dn.
Proof.
  intros Hc Hne Hface Hcr Hf Hn Hbp Hbase.
  destruct (shock_parallel_Ok crv bp Hc) as (cu & Hu & Hcu & _ & Hmu & _).
  destruct (shock_parallel_Ok crv (- bp) Hc) as (cd & Hd & Hcd & _ & Hmd & _).
  assert (Hdy : 0 < bp / 10000) by (apply Rdiv_lt_0_compat; lra).
  exists cu, cd, (price_formula cu b), (price_formula crv b), (price_formula cd b).
  split; [exact Hu|]. split; [exact Hd|].
  split; [apply price_bond_formula; auto; congruence|].
  split; [apply price_bond_formula; auto|].
  split; [apply price_bond_formula; auto; congruence|].
  split.
  - apply price_formula_antitone; auto. intros i Hi. specialize (Hbase i Hi).
    rewrite (shock_parallel_yield_at crv cu bp _ Hc Hne Hu). lra.
  - apply price_formula_antitone; auto. intros i Hi. specialize (Hbase i Hi).
    rewrite (shock_parallel_yield_at crv cd (- bp) _ Hc Hne Hd).
    replace (- bp / 10000) with (- (bp / 10000)) by (unfold Rdiv; ring). lra.
Qed.

(** *** Linear interpolation stays above the lowest node yield *)

Lemma chord_ge lo x0 x1 f0 f1 t :
  x0 <= t -> t < x1 -> lo <= f0 -> lo <= f1 ->
  lo <= (f1 - f0) / (x1 - x0) * (t - x0) + f0.
Proof.
  intros H0 H1 Hf0 Hf1.
  set (th := (t - x0) / (x1 - x0)).
  assert (Hth : 0 <= th < 1).
  { unfold th. split.
    - apply Rmult_le_pos; [lra|]. apply Rlt_le, Rinv_0_lt_compat. lra.
    - apply Rmult_lt_reg_r with (x1 - x0); [lra|].
      unfold Rdiv. rewrite Rmult_assoc, Rinv_l by lra. lra. }
  replace ((f1 - f0) / (x1 - x0) * (t - x0) + f0) with (f0 + th * (f1 - f0))
    by (unfold th; field; lra).
  nra.
Qed.

Lemma interp_scan_ge lo t xp : forall fp,
  increasing xp -> length xp = length fp -> Forall (fun f => lo <= f) fp ->
  xp <> [] -> hd 0 xp <= t ->
  lo <= np.interp_scan t xp fp.
Proof.
  induction xp as [|x0 xp IH]; intros fp Hinc Hlen Hall Hne Ht; [congruence|].
  destruct fp as [|f0 fp]; [discriminate|].
  inversion Hall as [|? ? Hf0 Hall']; subst.
  destruct xp as [|x1 xp]; [simpl; assumption|].
  destruct fp as [|f1 fp]; [discriminate|].
  inversion Hall' as [|? ? Hf1 _]; subst.
  destruct Hinc as [Hlt Hinc]. rewrite interp_scan_cons. simpl in Ht.
  destruct (Rltb t x1) eqn:H1.
  - apply Rltb_true in H1. destruct (Reqb t x0); [assumption|].
    apply chord_ge; assumption.
  - apply Rltb_false in H1. apply IH; auto; discriminate.
Qed.

Lemma last_of_Forall (P : R -> Prop) a0 rest :
  Forall P (a0 :: rest) -> P (np.last_of a0 rest).
Proof.
  intros H. rewrite Forall_forall in H. apply H. apply last_of_In.
Qed.

Lemma yield_at_linear_ge lo crv t :
  constructed crv -> maturities crv <> [] ->
  String.eqb (method crv) "cubic" = false ->
  Forall (fun f => lo <= f) (yields crv) ->
  lo <= yield_at crv t.
Proof.
  intros Hc Hne Hlin Hall. pose proof (y_returns crv t Hc Hne) as Hv.
  destruct (constructed_inv crv Hc) as (Hlen & Hinc & _).
  destruct (first_last_nonempty _ Hne) as (m0 & rest & Hm & Hf & Hl).
  unfold y in Hv. rewrite Hf, Hl, Hlin in Hv. unfold bind in Hv.
  set (tc := Rmin (Rmax t m0) (np.last_of m0 rest)) in Hv.
  unfold np.interp in Hv. rewrite Hm in *.
  destruct (yields crv) as [|f0 frest]; [discriminate|].
  destruct (negb _); [discriminate|].
  destruct (Rltb tc m0) eqn:H0.
  { injection Hv as <-. inversion Hall; assumption. }
  destruct (Rltb _ tc).
  { injection Hv as <-. apply (last_of_Forall _ _ _ Hall). }
  injection Hv as <-. apply Rltb_false in H0.
  exact (interp_scan_ge lo tc (m0 :: rest) (f0 :: frest) Hinc Hlen Hall Hne H0).
Qed.

Lemma sum_map_zero (l : list nat) : np.sum (map (fun _ => 0) l) = 0.
Proof. induction l as [|i l IH]; simpl in *; [reflexivity|]. rewrite IH. ring. Qed.

Lemma discount_factor_pos crv t :
  0 < 1 + yield_at crv t -> 0 < discount_factor crv t.
Proof.
  intros Hb. unfold discount_factor. rewrite float_pow_positive by assumption.
  apply Rdiv_lt_0_compat; [lra | apply Rpower_pos].
Qed.

(** A bond with positive face and no negative coupon has a positive price
    when every discount base is positive. *)
Lemma price_formula_pos crv b :
  0 < face b -> 0 <= coupon_rate b -> (0 < freq b)%Z -> (1 <= cash_flow_count b)%Z ->
  (forall i, (i < Z.to_nat (cash_flow_count b))%nat ->
     0 < 1 + yield_at crv (cash_flow_time b i)) ->
  0 < price_formula crv b.
Proof.
  intros Hface Hc Hf Hn Hy. unfold price_formula.
  destruct (Z.to_nat (cash_flow_count b)) as [|k] eqn:Hk; [lia|].
  rewrite <- (sum_map_zero (seq 0 (S k))).
  apply sum_map_lt with (j := k).
  - intros i Hi. apply in_seq in Hi.
    apply Rmult_le_pos; [apply cash_flow_nonneg; assumption|].
    apply Rlt_le, discount_factor_pos, Hy. lia.
  - apply in_seq. lia.
  - apply Rmult_lt_0_compat; [apply cash_flow_last_pos; assumption|].
    apply discount_factor_pos, Hy. lia.
Qed.

Lemma example_linear_yield_ge t : 0.04 <= yield_at example_linear t.
Proof.
  apply yield_at_linear_ge.
  - apply example_linear_constructed.
  - discriminate.
  - reflexivity.
  - unfold example_linear, example_yields. simpl. repeat constructor; lra.
Qed.

Lemma C7_price_antitone_in_parallel_shift_witness :
  exists curve_up curve_dn p_up p0 p_dn,
    apply_shock example_linear "parallel" 1 true = Ok curve_up /\
    apply_shock example_linear "parallel" (- 1) true = Ok curve_dn /\
    price_bond curve_up example_bond = Ok p_up /\
    price_bond example_linear example_bond = Ok p0 /\
    price_bond curve_dn example_bond = Ok p_dn /\
    p_up < p0 < p_dn.
Proof.
  apply (C7_price_antitone_in_parallel_shift example_linear example_bond 1).
  - apply example_linear_constructed.
  - discriminate.
  - simpl. lra.
  - simpl. lra.
  - simpl. lia.
  - rewrite example_bond_count. lia.
  - lra.
  - intros i _. pose proof (example_linear_yield_ge (cash_flow_time example_bond i)). lra.
Defined.

Lemma example_price_positive : 0 < price_formula example_linear example_bond.
Proof.
  apply price_formula_pos.
  - simpl. lra.
  - simpl. lra.
  - simpl. lia.
  - rewrite example_bond_count. lia.
  - intros i _. pose proof (example_linear_yield_ge (cash_flow_time example_bond i)). lra.
Qed.

Lemma example_price :
  price_bond example_linear example_bond = Ok (price_formula example_linear example_bond).
Proof.
  apply price_bond_formula.
  - apply example_linear_constructed.
  - discriminate.
  - rewrite example_bond_count. lia.
Qed.

Lemma C2_risk_metrics_witness :
  exists curve_up curve_dn p_up p_dn d,
    apply_shock example_linear "parallel" 1 true = Ok curve_up /\
    apply_shock example_linear "parallel" (- 1) true = Ok curve_dn /\
    price_bond curve_up example_bond = Ok p_up /\
    price_bond curve_dn example_bond = Ok p_dn /\
    dv01_duration_convexity example_linear example_bond 1 = Ok d /\
    keys d = ["price"; "price_up_+bp"; "price_dn_-bp";
              "DV01_per_1bp"; "mod_duration"; "convexity"]%string /\
    get d "price" = Some (price_formula example_linear example_bond) /\
    get d "price_up_+bp" = Some p_up /\
    get d "price_dn_-bp" = Some p_dn /\
    get d "DV01_per_1bp" = Some ((p_dn - p_up) / 2) /\
    get d "mod_duration" =
      Some ((p_dn - p_up) / (2 * price_formula example_linear example_bond * (1 / 10000))) /\
    get d "convexity" =
      Some ((p_dn + p_up - 2 * price_formula example_linear example_bond)
            / (price_formula example_linear example_bond * (1 / 10000) ^ 2)).
Proof.
  apply (C2_risk_metrics example_linear example_bond 1
           (price_formula example_linear example_bond)).
  - apply example_linear_constructed.
  - apply example_price.
  - pose proof example_price_positive. lra.
  - lra.
Defined.

(** *** Where the shift leaves the positive bases *)

Lemma one_year_bond_count : cash_flow_count one_year_bond = 1%Z.
Proof. unfold cash_flow_count. apply round_between. simpl. lra. Qed.

Lemma zero_face_bond_count : cash_flow_count zero_face_bond = 1%Z.
Proof. unfold cash_flow_count. apply round_between. simpl. lra. Qed.

Lemma one_year_price crv :
  price_formula crv one_year_bond = 105 * (1 / float_pow (1 + yield_at crv 1) 1).
Proof.
  unfold price_formula. rewrite one_year_bond_count.
  change (Z.to_nat 1) with 1%nat. simpl seq. simpl map. unfold np.sum. simpl fold_right.
  replace (cash_flow_time one_year_bond 0) with 1
    by (unfold cash_flow_time; simpl; lra).
  replace (cash_flow one_year_bond 1 0) with 105 by (unfold cash_flow; simpl; lra).
  unfold discount_factor. ring.
Qed.

Lemma zero_face_price crv : price_formula crv zero_face_bond = 0.
Proof.
  unfold price_formula. rewrite zero_face_bond_count.
  change (Z.to_nat 1) with 1%nat. simpl seq. simpl map. unfold np.sum. simpl fold_right.
  replace (cash_flow zero_face_bond 1 0) with 0 by (unfold cash_flow; simpl; lra).
  ring.
Qed.

Lemma example_linear_yield_at_1 : yield_at example_linear 1 = 0.04.
Proof.
  unfold yield_at.
  change 1 with (nth 0 (maturities example_linear) 0) at 1.
  rewrite (y_node example_linear 0 example_linear_constructed) by (simpl; lia).
  reflexivity.
Qed.

(** C7, as stated, fails for a large [bp]: against the example curve the
    one-year 5% bond is worth 105/1.04; shifting the curve down by
    20400 bp puts the one-year yield at -2, the discount base at -1 and
    the price at -105, below the unshifted price. *)
Lemma C7_large_downward_shift_lowers_price :
  exists curve_up curve_dn p_up p0 p_dn,
    0 < 20400 /\
    apply_shock example_linear "parallel" 20400 true = Ok curve_up /\
    apply_shock example_linear "parallel" (- 20400) true = Ok curve_dn /\
    price_bond curve_up one_year_bond = Ok p_up /\
    price_bond example_linear one_year_bond = Ok p0 /\
    price_bond curve_dn one_year_bond = Ok p_dn /\
    p0 = 105 / 1.04 /\ p_dn = -105 /\
    ~ (p_up < p0 < p_dn).
Proof.
  pose proof example_linear_constructed as Hc.
  assert (Hne : maturities example_linear <> []) by discriminate.
  destruct (shock_parallel_Ok example_linear 20400 Hc) as (cu & Hu & Hcu & _ & Hmu & _).
  destruct (shock_parallel_Ok example_linear (- 20400) Hc) as (cd & Hd & Hcd & _ & Hmd & _).
  assert (Hn : (1 <= cash_flow_count one_year_bond)%Z) by (rewrite one_year_bond_count; lia).
  assert (Hp0 : price_formula example_linear one_year_bond = 105 / 1.04).
  { rewrite one_year_price, example_linear_yield_at_1.
    rewrite float_pow_positive, Rpower_1 by lra. lra. }
  assert (Hpd : price_formula cd one_year_bond = -105).
  { rewrite one_year_price.
    rewrite (shock_parallel_yield_at example_linear cd (- 20400) 1 Hc Hne Hd).
    rewrite example_linear_yield_at_1.
    replace (1 + (0.04 + - 20400 / 10000)) with (-1) by lra.
    rewrite (float_pow_whole (-1) 1) by lra. simpl. lra. }
  exists cu, cd, (price_formula cu one_year_bond),
    (price_formula example_linear one_year_bond), (price_formula cd one_year_bond).
  split; [lra|]. split; [exact Hu|]. split; [exact Hd|].
  split; [apply price_bond_formula; auto; congruence|].
  split; [apply price_bond_formula; auto|].
  split; [apply price_bond_formula; auto; congruence|].
  split; [exact Hp0|]. split; [exact Hpd|].
  rewrite Hp0, Hpd. intros [_ H]. lra.
Qed.

(** Without principal and with it alone the hypotheses of C7 cannot be
    dropped either: a bond of face 0 is worth 0 on every curve. *)
Lemma zero_face_bond_price_does_not_move crv bp crv' :
  constructed crv -> maturities crv <> [] -> shock_parallel crv bp = Ok crv' ->
  price_bond crv zero_face_bond = Ok 0 /\ price_bond crv' zero_face_bond = Ok 0.
Proof.
  intros Hc Hne Hs.
  destruct (shock_parallel_Ok crv bp Hc) as (c2 & Hs2 & Hc2 & _ & Hm & _).
  rewrite Hs in Hs2. injection Hs2 as <-.
  assert (Hn : (1 <= cash_flow_count zero_face_bond)%Z)
    by (rewrite zero_face_bond_count; lia).
  rewrite !price_bond_formula, !zero_face_price; auto. congruence.
Qed.

(** ** Checks of the library models on known values *)

(** Python rounds ties to the even neighbour. *)
Example round_ties :
  round 0.5 = 0%Z /\ round 1.5 = 2%Z /\ round 2.5 = 2%Z /\ round 2.6 = 3%Z.
Proof.
  assert (H0 : Int_part 0.5 = 0%Z) by (symmetry; apply Int_part_spec; simpl; lra).
  assert (H1 : Int_part 1.5 = 1%Z) by (symmetry; apply Int_part_spec; simpl; lra).
  assert (H2 : Int_part 2.5 = 2%Z) by (symmetry; apply Int_part_spec; simpl; lra).
  repeat split.
  - unfold round. rewrite H0. simpl IZR. cmp. reflexivity.
  - unfold round. rewrite H1. simpl IZR. cmp. reflexivity.
  - unfold round. rewrite H2. simpl IZR. cmp. reflexivity.
  - apply round_between. simpl. lra.
Qed.

Example strip_lower_example : strip (lower "  Parallel ") = "parallel"%string.
Proof. reflexivity. Qed.

(** Half-way between the nodes (1, 0.04) and (5, 0.045). *)
Example interp_example : y example_linear 3 = Ok 0.0425.
Proof.
  unfold y, example_linear, example_maturities, example_yields.
  simpl maturities. simpl yields. simpl method. simpl np.first. simpl np.last. unfold bind.
  rewrite clamp_inside by (simpl; lra). simpl String.eqb. cbv iota.
  unfold np.interp. simpl negb. cbv iota. simpl np.last_of. cmp.
  rewrite interp_scan_cons. cmp. f_equal. lra.
Qed.

(** The natural spline through (0, 0), (1, 1), (2, 0) has the first
    derivatives 3/2, 0, -3/2 at its nodes and is [3/2 x - 1/2 x^3] on the
    first interval. *)
Example natural_spline_example :
  scipy.solve_banded (scipy.natural_system (scipy.intervals [0; 1; 2] [0; 1; 0]))
    = [3 / 2; 0; - (3 / 2)] /\
  forall sp, scipy.CubicSpline [0; 1; 2] [0; 1; 0] = Ok sp ->
    scipy.call sp (1 / 2) = 11 / 16.
Proof.
  assert (Hs : scipy.solve_banded (scipy.natural_system (scipy.intervals [0; 1; 2] [0; 1; 0]))
               = [3 / 2; 0; - (3 / 2)]).
  { unfold scipy.solve_banded, scipy.natural_system, scipy.intervals. simpl.
    f_equal; [|f_equal; [|f_equal]]; field; repeat split; lra. }
  split; [exact Hs|].
  intros sp. unfold scipy.CubicSpline.
  change (Nat.ltb (length [0; 1; 2]) 2) with false.
  change (negb (Nat.eqb (length [0; 1; 2]) (length [0; 1; 0]))) with false. cbv iota.
  replace (np.any (map (fun d => Rleb d 0) (np.diff [0; 1; 2]))) with false
    by (unfold np.any; simpl; cmp; reflexivity).
  cbv zeta. rewrite Hs. intros H. injection H as <-.
  unfold scipy.call. simpl scipy.c. simpl scipy.x.
  rewrite evaluate_cons. cmp.
  unfold scipy.cubic, scipy.hermite_row. lra.
Qed.

(** ** The model of the spline fit solves the spline equations *)

Lemma back_substitute_cons cp dp cd :
  scipy.back_substitute ((cp, dp) :: cd) =
  (dp - cp * hd 0 (scipy.back_substitute cd)) :: scipy.back_substitute cd.
Proof.
  unfold scipy.back_substitute. simpl.
  destruct (fold_right _ [] cd); simpl; [f_equal; ring | reflexivity].
Qed.

(** Elimination from top to bottom followed by back substitution solves a
    diagonally dominant system: no pivot vanishes. *)
Lemma eliminate_solves rows : forall cp dp prev,
  Forall dominant rows -> 0 <= cp < 1 ->
  prev = dp - cp * hd 0 (scipy.back_substitute (scipy.eliminate cp dp rows)) ->
  solves prev rows (scipy.back_substitute (scipy.eliminate cp dp rows)).
Proof.
  induction rows as [|[[[lo di] up] rhs] rows IH]; intros cp dp prev Hdom Hcp.
  - intros _. exact I.
  - inversion Hdom as [|? ? Hd Hdom']; subst.
    simpl in Hd. destruct Hd as (Hlo & Hup & Hdi).
    change (scipy.eliminate cp dp ((lo, di, up, rhs) :: rows))
      with ((up / (di - lo * cp), (rhs - lo * dp) / (di - lo * cp))
              :: scipy.eliminate (up / (di - lo * cp))
                   ((rhs - lo * dp) / (di - lo * cp)) rows) in *.
    rewrite back_substitute_cons in *.
    set (den := di - lo * cp) in *.
    set (rest := scipy.back_substitute
                   (scipy.eliminate (up / den) ((rhs - lo * dp) / den) rows)) in *.
    assert (Hden : up < den) by (unfold den; nra).
    assert (Hden0 : 0 < den) by lra.
    simpl hd. intros Hprev. simpl. split.
    + assert (Hdi' : di = den + lo * cp) by (unfold den; ring).
      rewrite Hprev, Hdi'. field. lra.
    + apply IH; auto.
      split.
      * apply Rmult_le_pos; [lra|]. apply Rlt_le, Rinv_0_lt_compat; assumption.
      * apply Rmult_lt_reg_r with den; [assumption|].
        unfold Rdiv. rewrite Rmult_assoc, Rinv_l by lra. lra.
Qed.

Lemma intervals_cons x0 x1 xs y0 y1 ys :
  scipy.intervals (x0 :: x1 :: xs) (y0 :: y1 :: ys) =
  (x1 - x0, y1 - y0, (y1 - y0) / (x1 - x0)) :: scipy.intervals (x1 :: xs) (y1 :: ys).
Proof. reflexivity. Qed.

Lemma intervals_positive xs : forall ys,
  increasing xs ->
  Forall (fun i => 0 < fst (fst i)) (scipy.intervals xs ys).
Proof.
  induction xs as [|x0 xs IH]; intros ys Hinc; [constructor|].
  destruct xs as [|x1 xs]; [constructor|].
  destruct ys as [|y0 [|y1 ys]]; [constructor | constructor |].
  rewrite intervals_cons. destruct Hinc as [Hlt Hinc]. constructor.
  - simpl. lra.
  - apply IH. assumption.
Qed.

Lemma inner_rows_dominant iv :
  Forall (fun i => 0 < fst (fst i)) iv -> Forall dominant (scipy.inner_rows iv).
Proof.
  induction iv as [|[[h0 d0] m0] iv IH]; intros H; [constructor|].
  destruct iv as [|[[h1 d1] m1] iv]; [constructor|].
  inversion H as [|? ? H0 H']; subst. inversion H' as [|? ? H1 _]; subst.
  simpl in H0, H1.
  change (scipy.inner_rows ((h0, d0, m0) :: (h1, d1, m1) :: iv))
    with ((h1, 2 * (h0 + h1), h0, 3 * (h1 * m0 + h0 * m1))
            :: scipy.inner_rows ((h1, d1, m1) :: iv)).
  constructor; [simpl; lra | apply IH; assumption].
Qed.

Lemma natural_system_dominant iv :
  Forall (fun i => 0 < fst (fst i)) iv -> Forall dominant (scipy.natural_system iv).
Proof.
  intros H. destruct iv as [|i0 iv]; [constructor|].
  unfold scipy.natural_system. constructor.
  - inversion H as [|? ? H0 _]; subst. destruct i0 as [[h d] m]. simpl in *. lra.
  - apply Forall_app. split; [apply inner_rows_dominant; assumption|].
    constructor; [|constructor].
    assert (Hl : 0 < fst (fst (List.last (i0 :: iv) i0))).
    { rewrite Forall_forall in H. apply H.
      destruct (exists_last (l := i0 :: iv)) as (l' & a & Heq); [discriminate|].
      rewrite Heq, last_last. apply in_or_app. right. left. reflexivity. }
    destruct (List.last (i0 :: iv) i0) as [[h d] m]. simpl in *. lra.
Qed.

(** The first derivatives that the model of [CubicSpline] uses are the
    solution of the natural-spline equations of the nodes. *)
Lemma spline_derivatives_solve xs ys :
  increasing xs ->
  solves 0 (scipy.natural_system (scipy.intervals xs ys))
    (scipy.solve_banded (scipy.natural_system (scipy.intervals xs ys))).
Proof.
  intros Hinc. unfold scipy.solve_banded. apply eliminate_solves.
  - apply natural_system_dominant, intervals_positive. assumption.
  - lra.
  - ring.
Qed.

(** * Further properties of the code *)

(** ** Shocks: the weights of steepen, flatten and twist *)

Lemma constructed_again crv :
  constructed crv ->
  __post_init__ (tenors crv) (maturities crv) (yields crv) (method crv) = Ok crv.
Proof.
  intros (tn & ms & ys & meth & Hc).
  destruct (post_init_Ok _ _ _ _ _ Hc) as (-> & -> & -> & -> & _). exact Hc.
Qed.

Lemma two_nodes_nonempty crv :
  (2 <= length (maturities crv))%nat -> maturities crv <> [].
Proof. intros H Hnil. rewrite Hnil in H. simpl in H. lia. Qed.

Lemma ramp_w01 crv : maturities crv <> [] -> ramp crv = Ok (w01 crv).
Proof.
  intros Hne. destruct (ramp_Ok crv Hne) as (w & Hw & _). unfold w01. rewrite Hw. reflexivity.
Qed.

Lemma w01_length crv : maturities crv <> [] -> length (w01 crv) = length (maturities crv).
Proof.
  intros Hne. destruct (ramp_Ok crv Hne) as (w & Hw & Hl). unfold w01. rewrite Hw. exact Hl.
Qed.

Lemma w01_nth crv m0 rest i :
  maturities crv = m0 :: rest -> (i < length (maturities crv))%nat ->
  nth i (w01 crv) 0 = (nth i (maturities crv) 0 - m0) / (np.last_of m0 rest - m0).
Proof.
  intros Hm Hi. unfold w01, ramp. rewrite Hm in *. simpl np.first. simpl np.last.
  unfold bind.
  set (f := fun m => (m - m0) / (np.last_of m0 rest - m0)).
  rewrite (nth_indep _ 0 (f 0)) by (rewrite length_map; assumption).
  rewrite (map_nth f). reflexivity.
Qed.

Lemma increasing_nth_lt a : forall i j,
  increasing a -> (i < j)%nat -> (j < length a)%nat -> nth i a 0 < nth j a 0.
Proof.
  induction a as [|a0 rest IH]; intros i j Hinc Hij Hj; [simpl in Hj; lia|].
  destruct j as [|j]; [lia|]. simpl in Hj.
  destruct i as [|i].
  - simpl. apply (increasing_head_le a0 rest); auto. apply nth_In. lia.
  - simpl. apply IH; try lia. destruct rest; [simpl in Hj; lia|]. apply Hinc.
Qed.

Lemma last_of_nth a0 rest : np.last_of a0 rest = nth (length rest) (a0 :: rest) 0.
Proof.
  revert a0. induction rest as [|a1 rest IH]; intros a0; [reflexivity|].
  simpl np.last_of. rewrite IH. reflexivity.
Qed.

(** On a constructed curve with two nodes or more the span is positive and
    the ramp runs from 0 at the first node to 1 at the last, strictly
    increasing in between. *)
Lemma w01_profile crv :
  constructed crv -> (2 <= length (maturities crv))%nat ->
  length (w01 crv) = length (maturities crv) /\
  nth 0 (w01 crv) 0 = 0 /\
  nth (length (maturities crv) - 1) (w01 crv) 0 = 1 /\
  (forall i j, (i < j)%nat -> (j < length (maturities crv))%nat ->
     nth i (w01 crv) 0 < nth j (w01 crv) 0).
Proof.
  intros Hc H2. pose proof (two_nodes_nonempty crv H2) as Hne.
  destruct (constructed_inv crv Hc) as (_ & Hinc & _).
  destruct (maturities crv) as [|m0 rest] eqn:Hm; [congruence|].
  assert (Hspan : m0 < np.last_of m0 rest).
  { rewrite last_of_nth. change m0 with (nth 0 (m0 :: rest) 0) at 1.
    apply increasing_nth_lt; auto; simpl in *; lia. }
  split; [rewrite <- Hm; apply w01_length; congruence|].
  split; [|split].
  - rewrite (w01_nth crv m0 rest 0 Hm) by (rewrite Hm; simpl; lia).
    rewrite Hm. simpl. unfold Rdiv. ring.
  - rewrite (w01_nth crv m0 rest _ Hm) by (rewrite Hm; simpl; lia).
    rewrite Hm. simpl length. rewrite Nat.sub_succ, Nat.sub_0_r, <- last_of_nth.
    field. lra.
  - intros i j Hij Hj.
    rewrite (w01_nth crv m0 rest i Hm), (w01_nth crv m0 rest j Hm)
      by (rewrite Hm; simpl in *; lia).
    rewrite Hm. apply Rmult_lt_compat_r; [apply Rinv_0_lt_compat; lra|].
    pose proof (increasing_nth_lt (m0 :: rest) i j Hinc Hij Hj). lra.
Qed.

Lemma map2_ext2 (f g : R -> R -> R) a : forall b,
  (forall u v, f u v = g u v) -> np.map2 f a b = np.map2 g a b.
Proof.
  induction a as [|u a IH]; intros [|v b] H; simpl; auto. rewrite H, IH; auto.
Qed.

Lemma map2_scale (f : R -> R -> R) k a : forall w,
  np.map2 f a (np.scale k w) = np.map2 (fun u v => f u (k * v)) a w.
Proof.
  induction a as [|u a IH]; intros [|v w]; simpl; auto. rewrite IH. reflexivity.
Qed.

Lemma map2_map_r (f : R -> R -> R) (g : R -> R) a : forall w,
  np.map2 f a (map g w) = np.map2 (fun u v => f u (g v)) a w.
Proof.
  induction a as [|u a IH]; intros [|v w]; simpl; auto. rewrite IH. reflexivity.
Qed.

Lemma map2_shift_l (f : R -> R -> R) k a : forall w,
  np.map2 f (np.shift a k) w = np.map2 (fun u v => f (u + k) v) a w.
Proof.
  induction a as [|u a IH]; intros [|v w]; simpl; auto. rewrite IH. reflexivity.
Qed.

Lemma map2_nth (f : R -> R -> R) a : forall b i,
  (i < length a)%nat -> (i < length b)%nat ->
  nth i (np.map2 f a b) 0 = f (nth i a 0) (nth i b 0).
Proof.
  induction a as [|u a IH]; intros [|v b] i Ha Hb; simpl in *; try lia.
  destruct i; [reflexivity|]. apply IH; lia.
Qed.

(** The three ramp shocks as one constructor call each. *)
Lemma shock_steepen_eq crv bp :
  constructed crv -> maturities crv <> [] ->
  shock_steepen crv bp =
  __post_init__ (tenors crv) (maturities crv)
    (np.map2 Rplus (yields crv) (np.scale (bp / 10000) (w01 crv))) (method crv).
Proof.
  intros Hc Hne. destruct (constructed_inv crv Hc) as (Hlen & _).
  unfold shock_steepen, bp_to_decimal, np.add. rewrite (ramp_w01 crv Hne). unfold bind at 1.
  rewrite broadcast_same_length; [reflexivity|].
  rewrite scale_length, w01_length; auto.
Qed.

Lemma shock_flatten_eq crv bp :
  constructed crv -> maturities crv <> [] ->
  shock_flatten crv bp =
  __post_init__ (tenors crv) (maturities crv)
    (np.map2 Rminus (yields crv) (np.scale (bp / 10000) (w01 crv))) (method crv).
Proof.
  intros Hc Hne. destruct (constructed_inv crv Hc) as (Hlen & _).
  unfold shock_flatten, bp_to_decimal, np.sub. rewrite (ramp_w01 crv Hne). unfold bind at 1.
  rewrite broadcast_same_length; [reflexivity|].
  rewrite scale_length, w01_length; auto.
Qed.

Lemma shock_twist_eq crv bp short_up :
  constructed crv -> maturities crv <> [] ->
  shock_twist crv bp short_up =
  __post_init__ (tenors crv) (maturities crv)
    (np.map2 Rplus (yields crv)
       (np.scale (bp / 10000)
          (if negb short_up
           then map Ropp (map (fun v => 1 - 2 * v) (w01 crv))
           else map (fun v => 1 - 2 * v) (w01 crv))))
    (method crv).
Proof.
  intros Hc Hne. destruct (constructed_inv crv Hc) as (Hlen & _).
  unfold shock_twist, bp_to_decimal, np.add. rewrite (ramp_w01 crv Hne). unfold bind at 1.
  rewrite broadcast_same_length; [reflexivity|].
  rewrite scale_length. destruct (negb short_up); rewrite ?length_map, w01_length; auto.
Qed.



(** X2.  Flatten by [bp] is steepen by [-bp], and the twist with
    [short_up=False] is the twist by [-bp]: the same call of the
    constructor, hence the same curve or the same error. *)
Theorem flatten_and_reverse_twist_negate_bp crv bp :
  constructed crv -> (2 <= length (maturities crv))%nat ->
  shock_flatten crv bp = shock_steepen crv (- bp) /\
  shock_twist crv bp false = shock_twist crv (- bp) true.
Proof.
  intros Hc H2. pose proof (two_nodes_nonempty crv H2) as Hne. split.
  - rewrite shock_flatten_eq, shock_steepen_eq by assumption. f_equal.
    rewrite !map2_scale. apply map2_ext2. intros u v. unfold Rdiv. ring.
  - rewrite !shock_twist_eq by assumption. simpl negb. cbv iota. f_equal.
    rewrite !map2_scale, map2_map_r. apply map2_ext2. intros u v. unfold Rdiv. ring.
Qed.

Lemma flatten_and_reverse_twist_negate_bp_witness :
  shock_flatten example_linear 50 = shock_steepen example_linear (- 50) /\
  shock_twist example_linear 50 false = shock_twist example_linear (- 50) true.
Proof.
  apply (flatten_and_reverse_twist_negate_bp example_linear 50 example_linear_constructed).
  simpl. lia.
Defined.

(** ** Shocks: how they compose *)

Lemma w01_same_maturities crv crv' :
  maturities crv' = maturities crv -> w01 crv' = w01 crv.
Proof. intros Hm. unfold w01, ramp. rewrite Hm. reflexivity. Qed.

(** X3.  The twist with [short_up=True] is the parallel shock by [bp]
    followed by the steepen shock by [-2 * bp]. *)
Theorem twist_is_parallel_then_steepen crv bp :
  constructed crv -> (2 <= length (maturities crv))%nat ->
  exists shifted,
    shock_parallel crv bp = Ok shifted /\
    shock_twist crv bp true = shock_steepen shifted (- 2 * bp).
Proof.
  intros Hc H2. pose proof (two_nodes_nonempty crv H2) as Hne.
  destruct (shock_parallel_Ok crv bp Hc) as (shifted & Hs & Hc1 & Ht & Hm & Hy & Hmeth).
  exists shifted. split; [exact Hs|].
  rewrite shock_twist_eq by assumption.
  rewrite shock_steepen_eq by (auto; congruence).
  rewrite Ht, Hm, Hy, Hmeth, (w01_same_maturities crv shifted Hm).
  simpl negb. cbv iota. f_equal.
  rewrite !map2_scale, map2_map_r, map2_shift_l. apply map2_ext2.
  intros u v. unfold Rdiv. ring.
Qed.

Lemma twist_is_parallel_then_steepen_witness :
  exists shifted,
    shock_parallel example_linear 50 = Ok shifted /\
    shock_twist example_linear 50 true = shock_steepen shifted (- 2 * 50).
Proof.
  apply (twist_is_parallel_then_steepen example_linear 50 example_linear_constructed).
  simpl. lia.
Defined.

Lemma shift_shift a k k' : np.shift (np.shift a k) k' = np.shift a (k + k').
Proof.
  unfold np.shift. rewrite map_map. apply map_ext. intros v. ring.
Qed.

Lemma shift_zero a : np.shift a 0 = a.
Proof.
  unfold np.shift. rewrite <- (map_id a) at 2. apply map_ext. intros v. ring.
Qed.

(** X4.  Parallel shocks add up: shocking by [a] and then by [b] is
    shocking by [a + b], and shocking back by [-a] returns the curve one
    started from. *)
Theorem parallel_shocks_compose crv a b :
  constructed crv ->
  exists shifted,
    shock_parallel crv a = Ok shifted /\
    shock_parallel shifted b = shock_parallel crv (a + b) /\
    shock_parallel shifted (- a) = Ok crv.
Proof.
  intros Hc.
  destruct (shock_parallel_Ok crv a Hc) as (shifted & Hs & Hc1 & Ht & Hm & Hy & Hmeth).
  exists shifted. split; [exact Hs|].
  assert (Hcomp : forall k, shock_parallel shifted k = shock_parallel crv (a + k)).
  { intros k. unfold shock_parallel, bp_to_decimal. rewrite Ht, Hm, Hy, Hmeth, shift_shift.
    do 2 f_equal. unfold Rdiv. ring. }
  split; [apply Hcomp|].
  rewrite Hcomp. unfold shock_parallel, bp_to_decimal.
  replace ((a + - a) / 10000) with 0 by (unfold Rdiv; ring).
  rewrite shift_zero. apply constructed_again. assumption.
Qed.

Lemma parallel_shocks_compose_witness :
  exists shifted,
    shock_parallel example_cubic 25 = Ok shifted /\
    shock_parallel shifted 10 = shock_parallel example_cubic (25 + 10) /\
    shock_parallel shifted (- 25) = Ok example_cubic.
Proof.
  exact (parallel_shocks_compose example_cubic 25 10 example_cubic_constructed).
Defined.

(** ** Shocks: a shock of zero basis points *)

Lemma map2_plus_zero a : forall w,
  length w = length a -> np.map2 Rplus a (np.scale (0 / 10000) w) = a.
Proof.
  induction a as [|u a IH]; intros [|v w] Hlen; try discriminate; [reflexivity|].
  simpl. rewrite IH by (simpl in Hlen; lia). f_equal. unfold Rdiv. ring.
Qed.

Lemma same_fields_same_curve crv crv' :
  constructed crv -> constructed crv' ->
  tenors crv' = tenors crv -> maturities crv' = maturities crv ->
  yields crv' = yields crv -> method crv' = method crv -> crv' = crv.
Proof.
  intros Hc Hc' Ht Hm Hy Hmeth.
  pose proof (constructed_again crv Hc) as H. pose proof (constructed_again crv' Hc') as H'.
  rewrite Ht, Hm, Hy, Hmeth in H'. congruence.
Qed.

(** X5.  A shock of 0 bp of any of the five kinds returns the curve it
    was given (parallel on any constructed curve, the other four on a
    curve with two nodes or more, where their weights are numbers). *)
Theorem shock_of_zero_is_identity crv name twist_short_up :
  constructed crv ->
  In (strip (lower name)) shock_names ->
  (strip (lower name) = "parallel"%string \/ (2 <= length (maturities crv))%nat) ->
  apply_shock crv name 0 twist_short_up = Ok crv.
Proof.
  intros Hc Hin Hcase.
  assert (Hpar : shock_parallel crv 0 = Ok crv).
  { unfold shock_parallel, bp_to_decimal.
    replace (0 / 10000) with 0 by (unfold Rdiv; ring).
    rewrite shift_zero. apply constructed_again. assumption. }
  destruct Hin as [Hn|Hin].
  - unfold apply_shock. rewrite <- Hn. simpl String.eqb. cbv iota. exact Hpar.
  - destruct Hcase as [Hn|H2].
    + unfold apply_shock. rewrite Hn. simpl String.eqb. cbv iota. exact Hpar.
    + pose proof (two_nodes_nonempty crv H2) as Hne.
      destruct (span_shock_Ok crv name 0 twist_short_up Hc Hne Hin)
        as (crv' & w & Hs & Hc' & Hwl & Ht & Hm & Hmeth & Hy).
      rewrite Hs. f_equal. apply same_fields_same_curve; auto.
      rewrite Hy. apply map2_plus_zero. assumption.
Qed.

Lemma shock_of_zero_is_identity_witness :
  apply_shock example_cubic " Butterfly" 0 true = Ok example_cubic /\
  apply_shock single_node "PARALLEL" 0 true = Ok single_node.
Proof.
  split.
  - apply (shock_of_zero_is_identity example_cubic " Butterfly" true
             example_cubic_constructed).
    + simpl. auto 10.
    + right. simpl. lia.
  - apply (shock_of_zero_is_identity single_node "PARALLEL" true single_node_constructed).
    + simpl. auto.
    + left. reflexivity.
Defined.

(** ** Shocks: no node moves by more than the bump *)

Lemma w01_range crv i :
  constructed crv -> (2 <= length (maturities crv))%nat ->
  (i < length (maturities crv))%nat -> 0 <= nth i (w01 crv) 0 <= 1.
Proof.
  intros Hc H2 Hi. destruct (w01_profile crv Hc H2) as (_ & Hw0 & Hw1 & Hinc).
  split.
  - destruct i as [|i]; [lra|].
    assert (nth 0 (w01 crv) 0 < nth (S i) (w01 crv) 0) by (apply Hinc; lia). lra.
  - destruct (Nat.eq_dec i (length (maturities crv) - 1)) as [->|Hne]; [lra|].
    rewrite <- Hw1. apply Rlt_le, Hinc; lia.
Qed.

Lemma fold_left_Rmax_In a : forall b0 v,
  In v (b0 :: a) -> v <= fold_left Rmax a b0.
Proof.
  induction a as [|u a IH]; intros b0 v Hin.
  - destruct Hin as [->|[]]. simpl. lra.
  - simpl. destruct Hin as [->|[->|Hin]].
    + eapply Rle_trans; [apply Rmax_l | apply fold_left_Rmax_ge].
    + eapply Rle_trans; [apply Rmax_r | apply fold_left_Rmax_ge].
    + apply IH. right. assumption.
Qed.

Lemma sum_range lo hi a :
  Forall (fun v => lo <= v <= hi) a ->
  INR (length a) * lo <= np.sum a <= INR (length a) * hi.
Proof.
  induction 1 as [|v a Hv _ IH]; [simpl; lra|].
  change (np.sum (v :: a)) with (v + np.sum a).
  change (length (v :: a)) with (S (length a)). rewrite S_INR. lra.
Qed.

Lemma mean_range lo hi a :
  a <> [] -> Forall (fun v => lo <= v <= hi) a -> lo <= np.mean a <= hi.
Proof.
  intros Hne Hall. pose proof (sum_range lo hi a Hall) as Hs.
  assert (Hn : 0 < INR (length a)).
  { apply lt_0_INR. destruct a; [congruence | simpl; lia]. }
  unfold np.mean. split.
  - apply Rmult_le_reg_r with (INR (length a)); [assumption|].
    unfold Rdiv. rewrite Rmult_assoc, Rinv_l by lra. lra.
  - apply Rmult_le_reg_r with (INR (length a)); [assumption|].
    unfold Rdiv. rewrite Rmult_assoc, Rinv_l by lra. lra.
Qed.

(** The weights of the butterfly before they are re-centred: the bell
    divided by its peak, every entry in (0, 1]. *)
Lemma shock_butterfly_eq crv bp :
  constructed crv -> maturities crv <> [] ->
  exists w,
    length w = length (yields crv) /\
    Forall (fun v => 0 <= v <= 1) w /\
    shock_butterfly crv bp =
    __post_init__ (tenors crv) (maturities crv)
      (np.map2 Rplus (yields crv)
         (np.scale (bp / 10000) (np.shift w (- np.mean w)))) (method crv).
Proof.
  intros Hc Hne. destruct (constructed_inv crv Hc) as (Hlen & _).
  destruct (first_last_nonempty _ Hne) as (m0 & rest & Hm & Hf & Hl).
  unfold shock_butterfly, bp_to_decimal, np.add. rewrite Hf, Hl. unfold bind at 1 2.
  set (f := fun m => exp (- (m - 0.5 * (m0 + np.last_of m0 rest)) ^ 2
                         / (0.15 * (np.last_of m0 rest - m0)) ^ 2)).
  assert (Hb : map f (maturities crv) = f m0 :: map f rest) by (rewrite Hm; reflexivity).
  rewrite Hb. change (np.max (f m0 :: map f rest)) with (Ok (fold_left Rmax (map f rest) (f m0))).
  unfold bind at 1. rewrite <- Hb.
  set (peak := fold_left Rmax (map f rest) (f m0)).
  assert (Hpeak : forall v, In v (map f (maturities crv)) -> 0 < v <= peak).
  { intros v Hin. split.
    - apply in_map_iff in Hin. destruct Hin as (m & <- & _). apply exp_pos.
    - rewrite Hb in Hin. apply fold_left_Rmax_In. assumption. }
  exists (map (fun v => v / peak) (map f (maturities crv))).
  assert (Hwl : length (map (fun v => v / peak) (map f (maturities crv)))
                = length (yields crv)) by (rewrite !length_map; assumption).
  split; [exact Hwl|]. split.
  - apply Forall_forall. intros q Hq. apply in_map_iff in Hq.
    destruct Hq as (v & <- & Hv). destruct (Hpeak v Hv) as [Hv0 Hv1].
    assert (Hp : 0 < peak) by lra. split.
    + apply Rlt_le, Rdiv_lt_0_compat; assumption.
    + apply Rmult_le_reg_r with peak; [assumption|].
      unfold Rdiv. rewrite Rmult_assoc, Rinv_l by lra. lra.
  - rewrite broadcast_same_length; [reflexivity|].
    rewrite scale_length, shift_length. symmetry. assumption.
Qed.

(** Each of the five shocks adds [bp / 10000] times a weight between -1
    and 1 to every node yield. *)
Lemma shock_weights crv name bp twist_short_up :
  constructed crv -> (2 <= length (maturities crv))%nat ->
  In (strip (lower name)) shock_names ->
  exists shocked w,
    apply_shock crv name bp twist_short_up = Ok shocked /\
    length w = length (yields crv) /\
    yields shocked = np.map2 Rplus (yields crv) (np.scale (bp / 10000) w) /\
    forall i, (i < length (yields crv))%nat -> -1 <= nth i w 0 <= 1.
Proof.
  intros Hc H2 Hin. pose proof (two_nodes_nonempty crv H2) as Hne.
  destruct (constructed_inv crv Hc) as (Hlen & _).
  pose proof (w01_length crv Hne) as Hwl.
  assert (Hbuild : forall w, length w = length (yields crv) ->
            (forall i, (i < length (yields crv))%nat -> -1 <= nth i w 0 <= 1) ->
            exists shocked w',
              __post_init__ (tenors crv) (maturities crv)
                (np.map2 Rplus (yields crv) (np.scale (bp / 10000) w)) (method crv)
              = Ok shocked /\
              length w' = length (yields crv) /\
              yields shocked = np.map2 Rplus (yields crv) (np.scale (bp / 10000) w') /\
              forall i, (i < length (yields crv))%nat -> -1 <= nth i w' 0 <= 1).
  { intros w Hl Hr.
    destruct (rebuild crv (np.map2 Rplus (yields crv) (np.scale (bp / 10000) w)) Hc)
      as (shocked & Hs & _ & _ & _ & Hy & _).
    { rewrite map2_length, scale_length, Hl. apply Nat.min_id. }
    exists shocked, w. auto. }
  assert (Hmapnth : forall (g : R -> R) i, (i < length (yields crv))%nat ->
            nth i (map g (w01 crv)) 0 = g (nth i (w01 crv) 0)).
  { intros g i Hi. rewrite (nth_indep _ 0 (g 0)) by (rewrite length_map; lia).
    apply map_nth. }
  unfold apply_shock.
  destruct Hin as [<-|[<-|[<-|[<-|[<-|[]]]]]]; simpl String.eqb; cbv iota.
  - (* parallel *)
    destruct (shock_parallel_Ok crv bp Hc) as (shocked & Hs & _ & _ & _ & Hy & _).
    exists shocked, (repeat 1 (length (yields crv))).
    split; [exact Hs|]. split; [apply repeat_length|]. split.
    + rewrite Hy. clear. induction (yields crv) as [|u a IH]; [reflexivity|].
      simpl. rewrite <- IH. f_equal. ring.
    + intros i Hi. rewrite nth_repeat_lt by assumption. lra.
  - (* steepen *)
    rewrite shock_steepen_eq by assumption. apply Hbuild; [congruence|].
    intros i Hi.
    assert (0 <= nth i (w01 crv) 0 <= 1) by (apply w01_range; auto; lia). lra.
  - (* flatten *)
    rewrite shock_flatten_eq by assumption. rewrite map2_minus_scale.
    apply Hbuild; [rewrite length_map; congruence|].
    intros i Hi. rewrite Hmapnth by assumption.
    assert (0 <= nth i (w01 crv) 0 <= 1) by (apply w01_range; auto; lia). lra.
  - (* twist *)
    rewrite shock_twist_eq by assumption.
    apply Hbuild.
    + destruct (negb twist_short_up); rewrite ?length_map; congruence.
    + intros i Hi.
      assert (0 <= nth i (w01 crv) 0 <= 1) by (apply w01_range; auto; lia).
      destruct (negb twist_short_up).
      * rewrite map_map, Hmapnth by assumption. lra.
      * rewrite Hmapnth by assumption. lra.
  - (* butterfly *)
    destruct (shock_butterfly_eq crv bp Hc Hne) as (w & Hl & Hall & ->).
    apply Hbuild; [rewrite shift_length; assumption|].
    intros i Hi. rewrite shift_nth by lia.
    assert (Hw : 0 <= nth i w 0 <= 1).
    { rewrite Forall_forall in Hall. apply Hall. apply nth_In. lia. }
    assert (Hm : 0 <= np.mean w <= 1).
    { apply mean_range; auto. intros Hnil. rewrite Hnil in Hl. simpl in Hl. lia. }
    lra.
Qed.

(** X6.  Whatever the shock, no node yield moves by more than [bp / 10000]
    in absolute value (on a curve with two nodes or more). *)
Theorem shock_moves_bounded crv name bp twist_short_up :
  constructed crv -> (2 <= length (maturities crv))%nat ->
  In (strip (lower name)) shock_names ->
  exists shocked,
    apply_shock crv name bp twist_short_up = Ok shocked /\
    length (yields shocked) = length (yields crv) /\
    forall i, (i < length (yields crv))%nat ->
      Rabs (nth i (yields shocked) 0 - nth i (yields crv) 0) <= Rabs (bp / 10000).
Proof.
  intros Hc H2 Hin.
  destruct (shock_weights crv name bp twist_short_up Hc H2 Hin)
    as (shocked & w & Hs & Hl & Hy & Hr).
  exists shocked. split; [exact Hs|]. split.
  - rewrite Hy, map2_length, scale_length, Hl. apply Nat.min_id.
  - intros i Hi. rewrite Hy, map2_scale, map2_nth by lia.
    replace (nth i (yields crv) 0 + bp / 10000 * nth i w 0 - nth i (yields crv) 0)
      with (bp / 10000 * nth i w 0) by ring.
    rewrite Rabs_mult. rewrite <- (Rmult_1_r (Rabs (bp / 10000))) at 2.
    apply Rmult_le_compat_l; [apply Rabs_pos|].
    apply Rabs_le. apply Hr. assumption.
Qed.

Lemma shock_moves_bounded_witness :
  exists shocked,
    apply_shock example_cubic "butterfly" 50 true = Ok shocked /\
    length (yields shocked) = length (yields example_cubic) /\
    forall i, (i < length (yields example_cubic))%nat ->
      Rabs (nth i (yields shocked) 0 - nth i (yields example_cubic) 0)
        <= Rabs (50 / 10000).
Proof.
  apply (shock_moves_bounded example_cubic "butterfly" 50 true example_cubic_constructed).
  - simpl. lia.
  - simpl. auto 10.
Defined.

(** ** Shocks: the dispatch on the name *)

(** X7.  A name that does not normalise to one of the five shock names is
    refused with [ValueError], the message carrying the normalised name;
    [apply_shock] never falls back to some shock or to the unshocked curve. *)
Theorem apply_shock_unknown_name crv name bp twist_short_up :
  ~ In (strip (lower name)) shock_names ->
  apply_shock crv name bp twist_short_up
  = Raise (ValueError ("Unknown shock_type: " ++ strip (lower name))).
Proof.
  intros Hnot. unfold apply_shock.
  repeat match goal with
  | |- context [String.eqb ?a ?b] =>
      let E := fresh "E" in
      destruct (String.eqb a b) eqn:E;
      [ apply String.eqb_eq in E; exfalso; apply Hnot; rewrite E; simpl; auto 10 | ]
  end.
  reflexivity.
Qed.

Lemma apply_shock_unknown_name_witness :
  apply_shock example_linear "diagonal" 10 true
  = Raise (ValueError ("Unknown shock_type: " ++ strip (lower "diagonal"))).
Proof.
  apply (apply_shock_unknown_name example_linear "diagonal" 10 true).
  simpl. intros H. repeat (destruct H as [H|H]; [discriminate|]). exact H.
Defined.

Lemma lower_char_idem a : lower_char (lower_char a) = lower_char a.
Proof. destruct a as [[] [] [] [] [] [] [] []]; reflexivity. Qed.

Lemma isspace_lower_char a : isspace (lower_char a) = isspace a.
Proof. destruct a as [[] [] [] [] [] [] [] []]; reflexivity. Qed.

Lemma lower_idem s : lower (lower s) = lower s.
Proof. induction s as [|a s IH]; simpl; [reflexivity|]. rewrite lower_char_idem, IH. reflexivity. Qed.

Lemma lower_lstrip s : lower (lstrip s) = lstrip (lower s).
Proof.
  induction s as [|a s IH]; simpl; [reflexivity|].
  rewrite isspace_lower_char. destruct (isspace a); [exact IH | reflexivity].
Qed.

Lemma lower_rstrip s : lower (rstrip s) = rstrip (lower s).
Proof.
  induction s as [|a s IH]; simpl; [reflexivity|].
  rewrite <- IH, isspace_lower_char.
  destruct (rstrip s); simpl; [destruct (isspace a); reflexivity | reflexivity].
Qed.

Lemma lstrip_head s :
  lstrip s = EmptyString \/ exists a r, lstrip s = String a r /\ isspace a = false.
Proof.
  induction s as [|a s IH]; simpl; [left; reflexivity|].
  destruct (isspace a) eqn:Ha; [exact IH|]. right. exists a, s. auto.
Qed.

Lemma rstrip_idem s : rstrip (rstrip s) = rstrip s.
Proof.
  induction s as [|a s IH]; simpl; [reflexivity|].
  destruct (rstrip s) as [|c r] eqn:Hr.
  - destruct (isspace a) eqn:Ha; simpl; [reflexivity|]. rewrite Ha. reflexivity.
  - change (rstrip (String a (String c r)))
      with (match rstrip (String c r) with
            | EmptyString => if isspace a then EmptyString else String a EmptyString
            | q => String a q
            end).
    rewrite IH. reflexivity.
Qed.

Lemma lstrip_rstrip_lstrip s : lstrip (rstrip (lstrip s)) = rstrip (lstrip s).
Proof.
  destruct (lstrip_head s) as [->|(a & r & -> & Ha)]; [reflexivity|].
  simpl. destruct (rstrip r); simpl; rewrite Ha; simpl; rewrite ?Ha; reflexivity.
Qed.

Lemma strip_idem s : strip (strip s) = strip s.
Proof. unfold strip. rewrite lstrip_rstrip_lstrip. apply rstrip_idem. Qed.

Lemma normalise_idem s : strip (lower (strip (lower s))) = strip (lower s).
Proof.
  unfold strip at 2. rewrite lower_rstrip, lower_lstrip, lower_idem.
  fold (strip (lower s)). apply strip_idem.
Qed.

(** X8.  The dispatch sees only the lower-cased, stripped name: a name and
    its normal form select the same shock with the same outcome. *)
Theorem apply_shock_normalises_name crv name bp twist_short_up :
  apply_shock crv name bp twist_short_up
  = apply_shock crv (strip (lower name)) bp twist_short_up.
Proof. unfold apply_shock. rewrite normalise_idem. reflexivity. Qed.

(** ** The curve: linear interpolation *)

Lemma chord_range lo hi x0 x1 f0 f1 t :
  x0 <= t -> t < x1 -> lo <= f0 <= hi -> lo <= f1 <= hi ->
  lo <= (f1 - f0) / (x1 - x0) * (t - x0) + f0 <= hi.
Proof.
  intros H0 H1 Hf0 Hf1.
  set (th := (t - x0) / (x1 - x0)).
  assert (Hth : 0 <= th < 1).
  { unfold th. split.
    - apply Rmult_le_pos; [lra|]. apply Rlt_le, Rinv_0_lt_compat. lra.
    - apply Rmult_lt_reg_r with (x1 - x0); [lra|].
      unfold Rdiv. rewrite Rmult_assoc, Rinv_l by lra. lra. }
  replace ((f1 - f0) / (x1 - x0) * (t - x0) + f0) with (f0 + th * (f1 - f0))
    by (unfold th; field; lra).
  split; nra.
Qed.

Lemma interp_scan_range lo hi t xp : forall fp,
  increasing xp -> length xp = length fp -> Forall (fun f => lo <= f <= hi) fp ->
  xp <> [] -> hd 0 xp <= t ->
  lo <= np.interp_scan t xp fp <= hi.
Proof.
  induction xp as [|x0 xp IH]; intros fp Hinc Hlen Hall Hne Ht; [congruence|].
  destruct fp as [|f0 fp]; [discriminate|].
  inversion Hall as [|? ? Hf0 Hall']; subst.
  destruct xp as [|x1 xp]; [simpl; assumption|].
  destruct fp as [|f1 fp]; [discriminate|].
  inversion Hall' as [|? ? Hf1 _]; subst.
  destruct Hinc as [Hlt Hinc]. rewrite interp_scan_cons. simpl in Ht.
  destruct (Rltb t x1) eqn:H1.
  - apply Rltb_true in H1. destruct (Reqb t x0); [assumption|].
    apply chord_range; assumption.
  - apply Rltb_false in H1. apply IH; auto; discriminate.
Qed.

Lemma yield_at_linear_range lo hi crv t :
  constructed crv -> maturities crv <> [] ->
  String.eqb (method crv) "cubic" = false ->
  Forall (fun f => lo <= f <= hi) (yields crv) ->
  lo <= yield_at crv t <= hi.
Proof.
  intros Hc Hne Hlin Hall. pose proof (y_returns crv t Hc Hne) as Hv.
  destruct (constructed_inv crv Hc) as (Hlen & Hinc & _).
  destruct (first_last_nonempty _ Hne) as (m0 & rest & Hm & Hf & Hl).
  unfold y in Hv. rewrite Hf, Hl, Hlin in Hv. unfold bind in Hv.
  set (tc := Rmin (Rmax t m0) (np.last_of m0 rest)) in Hv.
  unfold np.interp in Hv. rewrite Hm in *.
  destruct (yields crv) as [|f0 frest]; [discriminate|].
  destruct (negb _); [discriminate|].
  destruct (Rltb tc m0) eqn:H0.
  { injection Hv as <-. inversion Hall; assumption. }
  destruct (Rltb _ tc).
  { injection Hv as <-.
    apply (last_of_Forall (fun f => lo <= f <= hi) _ _ Hall). }
  injection Hv as <-. apply Rltb_false in H0.
  exact (interp_scan_range lo hi tc (m0 :: rest) (f0 :: frest) Hinc Hlen Hall Hne H0).
Qed.

(** X9.  Under linear interpolation (any method other than "cubic") the
    yield at any time lies between the smallest and the largest node
    yield: the curve never leaves the range of its nodes. *)
Theorem linear_yield_within_node_range lo hi crv t :
  constructed crv -> maturities crv <> [] ->
  String.eqb (method crv) "cubic" = false ->
  Forall (fun f => lo <= f <= hi) (yields crv) ->
  exists v, y crv t = Ok v /\ lo <= v <= hi.
Proof.
  intros Hc Hne Hlin Hall. exists (yield_at crv t).
  split; [apply y_returns; assumption | apply yield_at_linear_range; assumption].
Qed.

Lemma linear_yield_within_node_range_witness :
  exists v, y example_linear 7 = Ok v /\ 0.04 <= v <= 0.047.
Proof.
  apply (linear_yield_within_node_range 0.04 0.047 example_linear 7
           example_linear_constructed).
  - discriminate.
  - reflexivity.
  - unfold example_linear, example_yields. simpl. repeat constructor; lra.
Defined.

Lemma interp_scan_between xp : forall fp i t,
  increasing xp -> length xp = length fp -> (S i < length xp)%nat ->
  nth i xp 0 <= t < nth (S i) xp 0 ->
  np.interp_scan t xp fp =
  nth i fp 0 + (nth (S i) fp 0 - nth i fp 0) * (t - nth i xp 0)
               / (nth (S i) xp 0 - nth i xp 0).
Proof.
  induction xp as [|x0 xp IH]; intros fp i t Hinc Hlen Hi Ht; [simpl in Hi; lia|].
  destruct fp as [|f0 fp]; [discriminate|].
  destruct xp as [|x1 xp]; [simpl in Hi; lia|].
  destruct fp as [|f1 fp]; [discriminate|].
  destruct Hinc as [Hlt Hinc]. rewrite interp_scan_cons.
  destruct i as [|i].
  - simpl in Ht. simpl nth. cmp.
    destruct (Reqb t x0) eqn:He.
    + apply Reqb_true in He. subst t. field. lra.
    + field. lra.
  - change (nth (S i) (x0 :: x1 :: xp) 0) with (nth i (x1 :: xp) 0) in *.
    change (nth (S (S i)) (x0 :: x1 :: xp) 0) with (nth (S i) (x1 :: xp) 0) in *.
    change (nth (S i) (f0 :: f1 :: fp) 0) with (nth i (f1 :: fp) 0).
    change (nth (S (S i)) (f0 :: f1 :: fp) 0) with (nth (S i) (f1 :: fp) 0).
    assert (Hge : x1 <= nth i (x1 :: xp) 0).
    { apply (node_between x1 xp i); auto. simpl in *; lia. }
    cmp. apply IH; auto; simpl in *; lia.
Qed.

(** X10.  Between two neighbouring nodes the linear curve is the chord
    through them: for [maturities[i] <= t <= maturities[i+1]] the yield is
    [yields[i] + (yields[i+1] - yields[i]) * (t - maturities[i])
                 / (maturities[i+1] - maturities[i])]. *)
Theorem linear_yield_between_nodes crv i t :
  constructed crv -> String.eqb (method crv) "cubic" = false ->
  (S i < length (maturities crv))%nat ->
  nth i (maturities crv) 0 <= t <= nth (S i) (maturities crv) 0 ->
  y crv t =
  Ok (nth i (yields crv) 0
      + (nth (S i) (yields crv) 0 - nth i (yields crv) 0) * (t - nth i (maturities crv) 0)
        / (nth (S i) (maturities crv) 0 - nth i (maturities crv) 0)).
Proof.
  intros Hc Hlin Hi Ht.
  destruct (constructed_inv crv Hc) as (Hlen & Hinc & _).
  assert (Hlt : nth i (maturities crv) 0 < nth (S i) (maturities crv) 0)
    by (apply increasing_nth_lt; auto).
  destruct (Req_dec_T t (nth (S i) (maturities crv) 0)) as [He|Hne].
  - subst t. rewrite (y_node crv (S i) Hc Hi). f_equal. field. lra.
  - assert (Hne' : maturities crv <> []).
    { intros Hnil. rewrite Hnil in Hi. simpl in Hi. lia. }
    destruct (first_last_nonempty _ Hne') as (m0 & rest & Hm & Hf & Hl).
    unfold y. rewrite Hf, Hl, Hlin. unfold bind.
    assert (Hb1 : m0 <= nth i (maturities crv) 0 <= np.last_of m0 rest).
    { rewrite Hm. apply node_between; rewrite <- Hm; auto. lia. }
    assert (Hb2 : m0 <= nth (S i) (maturities crv) 0 <= np.last_of m0 rest).
    { rewrite Hm. apply node_between; rewrite <- Hm; auto. }
    rewrite clamp_inside by lra.
    unfold np.interp. rewrite Hm in *.
    destruct (yields crv) as [|f0 frest] eqn:Hy; [discriminate|].
    rewrite (proj2 (Nat.eqb_eq _ _) Hlen). simpl negb. cbv iota.
    cmp. f_equal. apply interp_scan_between; auto. lra.
Qed.

Lemma linear_yield_between_nodes_witness :
  y example_linear 7 =
  Ok (nth 1 (yields example_linear) 0
      + (nth 2 (yields example_linear) 0 - nth 1 (yields example_linear) 0)
        * (7 - nth 1 (maturities example_linear) 0)
        / (nth 2 (maturities example_linear) 0 - nth 1 (maturities example_linear) 0)).
Proof.
  apply (linear_yield_between_nodes example_linear 1 7 example_linear_constructed).
  - reflexivity.
  - simpl. lia.
  - simpl. lra.
Defined.

(** ** The curve: cubic against linear, and curves without nodes *)

Lemma two_node_derivatives m0 m1 y0 y1 :
  m0 < m1 ->
  scipy.solve_banded (scipy.natural_system (scipy.intervals [m0; m1] [y0; y1]))
  = [(y1 - y0) / (m1 - m0); (y1 - y0) / (m1 - m0)].
Proof.
  intros Hlt. unfold scipy.solve_banded, scipy.natural_system, scipy.intervals. simpl.
  f_equal; [|f_equal]; field; repeat split; lra.
Qed.

(** X11.  With exactly two nodes the natural cubic spline is the straight
    line through them: a two-node curve gives the same yield at every time
    under "cubic" as under "linear". *)
Theorem two_node_cubic_is_linear tn m0 m1 y0 y1 :
  m0 < m1 ->
  exists cubic_curve linear_curve,
    __post_init__ tn [m0; m1] [y0; y1] "cubic" = Ok cubic_curve /\
    __post_init__ tn [m0; m1] [y0; y1] "linear" = Ok linear_curve /\
    forall t, y cubic_curve t = y linear_curve t.
Proof.
  intros Hlt.
  assert (Hany : np.any (map (fun d => Rleb d 0) (np.diff [m0; m1])) = false).
  { apply any_diff_false. simpl. auto. }
  unfold __post_init__, scipy.CubicSpline.
  change (negb (Nat.eqb (length [m0; m1]) (length [y0; y1]))) with false.
  change (Nat.ltb (length [m0; m1]) 2) with false. cbv iota.
  rewrite Hany. simpl String.eqb. cbv iota zeta.
  rewrite (two_node_derivatives m0 m1 y0 y1 Hlt). unfold bind.
  eexists. eexists. split; [reflexivity|]. split; [reflexivity|].
  intros t. unfold y. simpl maturities. simpl yields. simpl method. simpl _spline.
  simpl np.first. simpl np.last. unfold bind. simpl String.eqb. cbv iota.
  set (tc := Rmin (Rmax t m0) m1).
  assert (Htc : m0 <= tc <= m1).
  { unfold tc. split; [apply Rmin_glb; [apply Rmax_r | lra] | apply Rmin_r]. }
  unfold scipy.call. simpl scipy.c. simpl scipy.x.
  change (scipy.hermite [m0; m1] [y0; y1]
            [(y1 - y0) / (m1 - m0); (y1 - y0) / (m1 - m0)])
    with [scipy.hermite_row m0 m1 y0 y1 ((y1 - y0) / (m1 - m0)) ((y1 - y0) / (m1 - m0))].
  rewrite evaluate_last.
  unfold np.interp. simpl negb. cbv iota. simpl np.last_of. cmp.
  f_equal. rewrite interp_scan_cons.
  unfold scipy.cubic, scipy.hermite_row.
  destruct (Rltb tc m1) eqn:H1.
  - destruct (Reqb tc m0) eqn:H0.
    + apply Reqb_true in H0. rewrite H0. field. lra.
    + field. lra.
  - apply Rltb_false in H1. assert (tc = m1) by lra.
    simpl np.interp_scan. rewrite H. field. lra.
Qed.

Lemma two_node_cubic_is_linear_witness :
  exists cubic_curve linear_curve,
    __post_init__ ["1Y"; "5Y"]%string [1; 5] [0.04; 0.045] "cubic" = Ok cubic_curve /\
    __post_init__ ["1Y"; "5Y"]%string [1; 5] [0.04; 0.045] "linear" = Ok linear_curve /\
    forall t, y cubic_curve t = y linear_curve t.
Proof.
  apply (two_node_cubic_is_linear ["1Y"; "5Y"]%string 1 5 0.04 0.045). lra.
Defined.

(** X12.  A curve without nodes can be constructed (under any method but
    "cubic"), yet it answers no query: on a constructed curve [y] returns a
    yield exactly when there is a node, and raises [IndexError] otherwise. *)
Theorem y_needs_a_node crv t :
  constructed crv ->
  (returns (y crv t) <-> maturities crv <> []) /\
  (maturities crv = [] -> exists msg, y crv t = Raise (IndexError msg)) /\
  (forall tn meth, String.eqb meth "cubic" = false ->
     returns (__post_init__ tn [] [] meth)).
Proof.
  intros Hc. split; [|split].
  - split.
    + intros [v Hv] Hnil. destruct (y_no_node crv t Hnil) as [msg Hmsg]. congruence.
    + intros Hne. exists (yield_at crv t). apply y_returns; assumption.
  - apply y_no_node.
  - intros tn meth Hm. unfold __post_init__. simpl. rewrite Hm. eexists; reflexivity.
Qed.

Lemma y_needs_a_node_witness :
  (returns (y (mkYieldCurve [] [] [] "linear" None) 3)
     <-> maturities (mkYieldCurve [] [] [] "linear" None) <> []) /\
  (maturities (mkYieldCurve [] [] [] "linear" None) = [] ->
   exists msg, y (mkYieldCurve [] [] [] "linear" None) 3 = Raise (IndexError msg)) /\
  (forall tn meth, String.eqb meth "cubic" = false ->
     returns (__post_init__ tn [] [] meth)).
Proof.
  apply (y_needs_a_node (mkYieldCurve [] [] [] "linear" None) 3).
  exists [], [], [], "linear"%string. reflexivity.
Defined.

(** ** The plotting grid *)

Lemma set_last_length a v : length (np.set_last a v) = length a.
Proof.
  induction a as [|u a IH]; [reflexivity|].
  destruct a as [|u' a]; [reflexivity|].
  change (np.set_last (u :: u' :: a) v) with (u :: np.set_last (u' :: a) v).
  simpl length in *. rewrite IH. reflexivity.
Qed.

Lemma set_last_nth a v : forall i,
  (i < length a)%nat ->
  nth i (np.set_last a v) 0 = if Nat.eqb (S i) (length a) then v else nth i a 0.
Proof.
  induction a as [|u a IH]; intros i Hi; [simpl in Hi; lia|].
  destruct a as [|u' a].
  - destruct i; [reflexivity | simpl in Hi; lia].
  - change (np.set_last (u :: u' :: a) v) with (u :: np.set_last (u' :: a) v).
    destruct i as [|i]; [reflexivity|].
    change (nth (S i) (u :: np.set_last (u' :: a) v) 0)
      with (nth i (np.set_last (u' :: a) v) 0).
    rewrite IH by (simpl in *; lia). reflexivity.
Qed.

Lemma ramp_nth (f : R -> R) n i :
  (i < n)%nat -> nth i (map f (map INR (seq 0 n))) 0 = f (INR i).
Proof.
  intros Hi. rewrite map_map.
  rewrite (nth_indep _ 0 ((fun j => f (INR j)) 0%nat))
    by (rewrite length_map, length_seq; assumption).
  rewrite (map_nth (fun j => f (INR j))), seq_nth by assumption. reflexivity.
Qed.

(** [np.linspace] with a count that is not negative. *)
Lemma linspace_spec start stop num :
  (0 <= num)%Z ->
  exists xs,
    np.linspace start stop num = Ok xs /\
    length xs = Z.to_nat num /\
    (num = 1%Z -> xs = [start]) /\
    (forall i, (2 <= num)%Z -> (i < Z.to_nat num)%nat ->
       nth i xs 0 = start + INR i * (stop - start) / IZR (num - 1)).
Proof.
  intros Hn. unfold np.linspace. rewrite (proj2 (Z.ltb_ge _ _)) by lia. cbv zeta.
  eexists. split; [reflexivity|]. split; [|split].
  - destruct (Z.ltb 1 num); rewrite ?set_last_length, shift_length;
      destruct (Z.ltb 0 (num - 1)); rewrite scale_length, length_map, length_seq; reflexivity.
  - intros ->. simpl. f_equal. ring.
  - intros i H2 Hi.
    rewrite (proj2 (Z.ltb_lt 1 num)) by lia. rewrite (proj2 (Z.ltb_lt 0 (num - 1))) by lia.
    assert (Hdiv : 0 < IZR (num - 1)) by (apply IZR_lt; lia).
    rewrite set_last_nth
      by (rewrite shift_length, scale_length, length_map, length_seq; assumption).
    rewrite shift_length, scale_length, length_map, length_seq.
    unfold np.shift, np.scale. rewrite map_map.
    rewrite (ramp_nth (fun v => (stop - start) / IZR (num - 1) * v + start)) by assumption.
    destruct (Nat.eqb (S i) (Z.to_nat num)) eqn:He.
    + apply Nat.eqb_eq in He.
      assert (Hi' : INR i = IZR (num - 1)).
      { rewrite INR_IZR_INZ. f_equal. lia. }
      rewrite Hi'. field. lra.
    + field. lra.
Qed.

(** X13.  On a constructed curve with a node, [grid(t_min, t_max, n)] with
    [n >= 0] returns [n] maturities and [n] yields, the yield at place [i]
    being the curve's yield at the maturity at place [i]; for [n >= 2] the
    maturities are evenly spaced from [t_min] to [t_max], both included,
    and for [n = 1] the only one is [t_min]. *)
Theorem grid_samples_the_curve crv t_min t_max n :
  constructed crv -> maturities crv <> [] -> (0 <= n)%Z ->
  exists xs ys,
    grid crv t_min t_max n = Ok (xs, ys) /\
    length xs = Z.to_nat n /\ length ys = Z.to_nat n /\
    (forall i, (i < Z.to_nat n)%nat -> y crv (nth i xs 0) = Ok (nth i ys 0)) /\
    (n = 1%Z -> xs = [t_min]) /\
    ((2 <= n)%Z ->
       nth 0 xs 0 = t_min /\ nth (Z.to_nat n - 1) xs 0 = t_max /\
       forall i, (i < Z.to_nat n)%nat ->
         nth i xs 0 = t_min + INR i * (t_max - t_min) / IZR (n - 1)).
Proof.
  intros Hc Hne Hn.
  destruct (linspace_spec t_min t_max n Hn) as (xs & Hxs & Hlen & H1 & Hnth).
  exists xs, (map (yield_at crv) xs).
  split.
  - unfold grid. rewrite Hxs. unfold bind at 1.
    rewrite (mapM_total _ (yield_at crv)) by (intros; apply y_returns; assumption).
    reflexivity.
  - split; [exact Hlen|]. split; [rewrite length_map; exact Hlen|].
    split; [|split; [exact H1|]].
    + intros i Hi. rewrite y_returns by assumption. f_equal.
      rewrite (nth_indep (map (yield_at crv) xs) 0 (yield_at crv 0))
        by (rewrite length_map; lia).
      symmetry. apply map_nth.
    + intros H2. split; [|split].
      * rewrite Hnth by lia. simpl. unfold Rdiv. ring.
      * rewrite Hnth by lia.
        assert (Hi' : INR (Z.to_nat n - 1) = IZR (n - 1)).
        { rewrite INR_IZR_INZ. f_equal. lia. }
        assert (Hdiv : 0 < IZR (n - 1)) by (apply IZR_lt; lia).
        rewrite Hi'. field. lra.
      * intros i Hi. apply Hnth; assumption.
Qed.

Lemma grid_samples_the_curve_witness :
  exists xs ys,
    grid example_cubic 0.25 30 200 = Ok (xs, ys) /\
    length xs = Z.to_nat 200 /\ length ys = Z.to_nat 200 /\
    (forall i, (i < Z.to_nat 200)%nat -> y example_cubic (nth i xs 0) = Ok (nth i ys 0)) /\
    (200%Z = 1%Z -> xs = [0.25]) /\
    ((2 <= 200)%Z ->
       nth 0 xs 0 = 0.25 /\ nth (Z.to_nat 200 - 1) xs 0 = 30 /\
       forall i, (i < Z.to_nat 200)%nat ->
         nth i xs 0 = 0.25 + INR i * (30 - 0.25) / IZR (200 - 1)).
Proof.
  apply (grid_samples_the_curve example_cubic 0.25 30 200 example_cubic_constructed).
  - discriminate.
  - lia.
Defined.

(** X14.  The failures of [grid]: a negative [n] is refused with
    [ValueError] before the curve is looked at; a curve without nodes makes
    it raise [IndexError] as soon as there is a point to evaluate; with
    [n = 0] it returns two empty arrays even on such a curve. *)
Theorem grid_failures crv t_min t_max n :
  ((n < 0)%Z -> is_ValueError (grid crv t_min t_max n)) /\
  (maturities crv = [] -> (1 <= n)%Z ->
   exists msg, grid crv t_min t_max n = Raise (IndexError msg)) /\
  (n = 0%Z -> grid crv t_min t_max n = Ok ([], [])).
Proof.
  split; [|split].
  - intros Hn. unfold grid, np.linspace. rewrite (proj2 (Z.ltb_lt _ _)) by lia.
    eexists; reflexivity.
  - intros Hnil Hn.
    destruct (linspace_spec t_min t_max n) as (xs & Hxs & Hlen & _); [lia|].
    unfold grid. rewrite Hxs. unfold bind at 1.
    destruct xs as [|x xs]; [simpl in Hlen; lia|].
    simpl mapM. destruct (y_no_node crv x Hnil) as [msg ->]. simpl. eauto.
  - intros ->. reflexivity.
Qed.

Lemma grid_failures_witness :
  is_ValueError (grid example_linear 0.25 30 (-1)) /\
  (exists msg, grid (mkYieldCurve [] [] [] "linear" None) 0.25 30 200 = Raise (IndexError msg)) /\
  grid (mkYieldCurve [] [] [] "linear" None) 0.25 30 0 = Ok ([], []).
Proof.
  split; [|split].
  - apply (proj1 (grid_failures example_linear 0.25 30 (-1))). lia.
  - apply (proj1 (proj2 (grid_failures (mkYieldCurve [] [] [] "linear" None) 0.25 30 200)));
      [reflexivity | lia].
  - apply (proj2 (proj2 (grid_failures (mkYieldCurve [] [] [] "linear" None) 0.25 30 0))).
    reflexivity.
Defined.

(** ** The pricer: which bonds it refuses *)

Lemma round_nonpositive v : (round v <= 0)%Z <-> v <= 1 / 2.
Proof.
  pose proof (round_error v) as He.
  assert (Hb : -(1 / 2) <= IZR (round v) - v <= 1 / 2).
  { revert He. unfold Rabs. destruct (Rcase_abs _); lra. }
  split.
  - intros Hr. apply IZR_le in Hr. lra.
  - intros Hv. destruct (Rle_lt_or_eq_dec v (1 / 2) Hv) as [Hlt|Heq].
    + assert (round v < 1)%Z by (apply lt_IZR; lra). lia.
    + subst v. unfold round.
      assert (H0 : Int_part (1 / 2) = 0%Z) by (symmetry; apply Int_part_spec; simpl; lra).
      rewrite H0. simpl IZR. cmp. simpl. lia.
Qed.

(** X15.  Against a constructed curve, [price_bond] raises its
    [ValueError] exactly when [maturity_years * freq <= 0.5]: the count of
    cash flows is that product rounded, a tie going to the even integer, so
    a product of exactly 0.5 gives no cash flow.  In particular [freq = 0]
    is refused here and never reaches the division by [freq]. *)
Theorem price_bond_refuses_short_bonds crv b :
  constructed crv ->
  (is_ValueError (price_bond crv b) <-> maturity_years b * IZR (freq b) <= 1 / 2) /\
  (freq b = 0%Z -> is_ValueError (price_bond crv b)).
Proof.
  intros Hc.
  assert (Hiff : is_ValueError (price_bond crv b)
                 <-> maturity_years b * IZR (freq b) <= 1 / 2).
  { rewrite <- round_nonpositive. fold (cash_flow_count b). split.
    - intros [msg Hmsg]. destruct (Z_lt_le_dec (cash_flow_count b) 1) as [|Hn]; [lia|].
      exfalso. destruct (maturities crv) as [|m0 rest] eqn:Hm.
      + destruct (price_bond_no_node crv b Hm Hn) as [msg' H']. congruence.
      + rewrite price_bond_formula in Hmsg; auto; [discriminate | congruence].
    - intros Hn. rewrite price_bond_no_cash_flow by lia. eexists; reflexivity. }
  split; [exact Hiff|].
  intros Hf. apply Hiff. rewrite Hf. simpl. lra.
Qed.

Lemma price_bond_refuses_short_bonds_witness :
  (is_ValueError (price_bond example_linear (mkBond 100 0.05 0.5 1))
     <-> maturity_years (mkBond 100 0.05 0.5 1) * IZR (freq (mkBond 100 0.05 0.5 1))
         <= 1 / 2) /\
  (freq (mkBond 100 0.05 0.5 1) = 0%Z ->
   is_ValueError (price_bond example_linear (mkBond 100 0.05 0.5 1))).
Proof.
  exact (price_bond_refuses_short_bonds example_linear (mkBond 100 0.05 0.5 1)
           example_linear_constructed).
Defined.

(** ** The pricer: bounds and par *)

Lemma Rpower_one t : Rpower 1 t = 1.
Proof. unfold Rpower. rewrite ln_1, Rmult_0_r. apply exp_0. Qed.

Lemma discount_factor_le_1 crv t :
  0 < t -> 0 <= yield_at crv t -> discount_factor crv t <= 1.
Proof.
  intros Ht Hy. unfold discount_factor. rewrite float_pow_positive by lra.
  assert (H1 : 1 <= Rpower (1 + yield_at crv t) t).
  { rewrite <- (Rpower_one t) at 1. apply Rle_Rpower_l; lra. }
  apply Rmult_le_reg_r with (Rpower (1 + yield_at crv t) t); [lra|].
  unfold Rdiv. rewrite Rmult_assoc, Rinv_l by lra. lra.
Qed.

Lemma price_formula_split crv b :
  (1 <= cash_flow_count b)%Z ->
  price_formula crv b =
  face b * coupon_rate b / IZR (freq b)
    * np.sum (map (fun i => discount_factor crv (cash_flow_time b i))
                  (seq 0 (Z.to_nat (cash_flow_count b))))
  + face b * discount_factor crv (cash_flow_time b (Z.to_nat (cash_flow_count b) - 1)).
Proof.
  intros Hn. unfold price_formula.
  destruct (Z.to_nat (cash_flow_count b)) as [|k] eqn:Hk; [lia|].
  rewrite Nat.sub_succ, Nat.sub_0_r.
  set (c := face b * coupon_rate b / IZR (freq b)).
  set (df := fun i => discount_factor crv (cash_flow_time b i)).
  assert (Hgen : forall m s, (s + m <= S k)%nat ->
            np.sum (map (fun i => cash_flow b (S k) i * df i) (seq s m))
            = c * np.sum (map df (seq s m))
              + (if Nat.eqb (s + m) (S k) then (if Nat.eqb m 0 then 0 else face b * df k) else 0)).
  { induction m as [|m IH]; intros s Hs.
    - simpl. destruct (Nat.eqb (s + 0) (S k)); ring.
    - change (seq s (S m)) with (s :: seq (S s) m).
      change (np.sum (map (fun i => cash_flow b (S k) i * df i) (s :: seq (S s) m)))
        with (cash_flow b (S k) s * df s
              + np.sum (map (fun i => cash_flow b (S k) i * df i) (seq (S s) m))).
      change (np.sum (map df (s :: seq (S s) m)))
        with (df s + np.sum (map df (seq (S s) m))).
      rewrite IH by lia. replace (S s + m)%nat with (s + S m)%nat by lia.
      unfold cash_flow. fold c.
      destruct (Nat.eqb (s + S m) (S k)) eqn:He.
      + apply Nat.eqb_eq in He. destruct m as [|m].
        * replace s with k by lia. rewrite Nat.eqb_refl. simpl. ring.
        * rewrite (proj2 (Nat.eqb_neq (S s) (S k))) by lia. simpl. ring.
      + apply Nat.eqb_neq in He. rewrite (proj2 (Nat.eqb_neq (S s) (S k))) by lia.
        simpl. ring. }
  specialize (Hgen (S k) 0%nat (Nat.le_refl _)).
  simpl Nat.add in Hgen. rewrite Nat.eqb_refl in Hgen. simpl Nat.eqb in Hgen.
  unfold df in Hgen. cbv beta in Hgen. exact Hgen.
Qed.

Lemma sum_map_one (l : list nat) : np.sum (map (fun _ => 1) l) = INR (length l).
Proof.
  induction l as [|i l IH]; [reflexivity|].
  change (np.sum (map (fun _ => 1) (i :: l))) with (1 + np.sum (map (fun _ : nat => 1) l)).
  rewrite IH. change (length (i :: l)) with (S (length l)). rewrite S_INR. ring.
Qed.

(** X16.  For a bond with positive face, non-negative coupon rate and
    positive frequency, priced on yields that are not negative at the
    cash-flow times, the price is positive and at most the undiscounted sum
    of the cash flows, [face + n * face * coupon_rate / freq]; on yields that
    are zero at those times it is exactly that sum. *)
Theorem price_at_most_cash_flows crv b :
  constructed crv -> maturities crv <> [] ->
  0 < face b -> 0 <= coupon_rate b -> (0 < freq b)%Z -> (1 <= cash_flow_count b)%Z ->
  (forall i, (i < Z.to_nat (cash_flow_count b))%nat ->
     0 <= yield_at crv (cash_flow_time b i)) ->
  exists p,
    price_bond crv b = Ok p /\
    0 < p <= face b + IZR (cash_flow_count b) * (face b * coupon_rate b / IZR (freq b)) /\
    ((forall i, (i < Z.to_nat (cash_flow_count b))%nat ->
        yield_at crv (cash_flow_time b i) = 0) ->
     p = face b + IZR (cash_flow_count b) * (face b * coupon_rate b / IZR (freq b))).
Proof.
  intros Hc Hne Hface Hcr Hf Hn Hy.
  exists (price_formula crv b). split; [apply price_bond_formula; assumption|].
  pose proof (coupon_nonneg b Hface Hcr Hf) as Hcoupon.
  assert (Hcount : INR (Z.to_nat (cash_flow_count b)) = IZR (cash_flow_count b)).
  { rewrite INR_IZR_INZ. f_equal. lia. }
  rewrite price_formula_split by assumption. split; [split|].
  - rewrite <- price_formula_split by assumption.
    apply price_formula_pos; auto. intros i Hi. specialize (Hy i Hi). lra.
  - assert (Hsum : np.sum (map (fun i => discount_factor crv (cash_flow_time b i))
                              (seq 0 (Z.to_nat (cash_flow_count b))))
                   <= IZR (cash_flow_count b)).
    { eapply Rle_trans.
      - apply (sum_map_le _ (fun _ => 1)). intros i Hi. apply in_seq in Hi.
        apply discount_factor_le_1; [apply cash_flow_time_pos; assumption | apply Hy; lia].
      - rewrite sum_map_one, length_seq, Hcount. lra. }
    assert (Hlast : discount_factor crv
                      (cash_flow_time b (Z.to_nat (cash_flow_count b) - 1)) <= 1).
    { apply discount_factor_le_1; [apply cash_flow_time_pos; assumption | apply Hy; lia]. }
    nra.
  - intros Hzero.
    assert (Hdf : forall i, (i < Z.to_nat (cash_flow_count b))%nat ->
              discount_factor crv (cash_flow_time b i) = 1).
    { intros i Hi. unfold discount_factor. rewrite Hzero by assumption.
      replace (1 + 0) with 1 by ring.
      rewrite float_pow_positive, Rpower_one by lra. field. }
    rewrite Hdf by lia.
    rewrite (map_ext_in _ (fun _ => 1)) by (intros i Hi; apply in_seq in Hi; apply Hdf; lia).
    rewrite sum_map_one, length_seq, Hcount. ring.
Qed.

Lemma price_at_most_cash_flows_witness :
  exists p,
    price_bond example_linear example_bond = Ok p /\
    0 < p <= face example_bond
             + IZR (cash_flow_count example_bond)
               * (face example_bond * coupon_rate example_bond / IZR (freq example_bond)) /\
    ((forall i, (i < Z.to_nat (cash_flow_count example_bond))%nat ->
        yield_at example_linear (cash_flow_time example_bond i) = 0) ->
     p = face example_bond
         + IZR (cash_flow_count example_bond)
           * (face example_bond * coupon_rate example_bond / IZR (freq example_bond))).
Proof.
  apply (price_at_most_cash_flows example_linear example_bond example_linear_constructed).
  - discriminate.
  - simpl. lra.
  - simpl. lra.
  - simpl. lia.
  - rewrite example_bond_count. lia.
  - intros i _. pose proof (example_linear_yield_ge (cash_flow_time example_bond i)). lra.
Defined.

Lemma annuity_at_par (c : R) (n : nat) :
  0 < 1 + c ->
  c * np.sum (map (fun i => 1 / (1 + c) ^ (i + 1)) (seq 0 n)) = 1 - 1 / (1 + c) ^ n.
Proof.
  intros Hq. induction n as [|n IH].
  - simpl. field.
  - rewrite seq_S, map_app. change (map ?f [?v]) with [f v].
    assert (Happ : forall l v, np.sum (l ++ [v]) = np.sum l + v).
    { intros l v. induction l as [|u l IHl]; simpl in *; [ring|]. rewrite IHl. ring. }
    rewrite Happ, Rmult_plus_distr_l, IH. simpl Nat.add.
    replace (n + 1)%nat with (S n) by lia. simpl pow.
    assert (Hp : (1 + c) ^ n <> 0) by (apply pow_nonzero; lra).
    field. split; [assumption | lra].
Qed.

(** X17.  An annual-pay bond ([freq = 1]) priced on yields equal to its
    coupon rate at every cash-flow time is worth its face: it prices at
    par. *)
Theorem annual_bond_prices_at_par crv b :
  constructed crv -> maturities crv <> [] ->
  freq b = 1%Z -> (1 <= cash_flow_count b)%Z -> 0 < 1 + coupon_rate b ->
  (forall i, (i < Z.to_nat (cash_flow_count b))%nat ->
     yield_at crv (cash_flow_time b i) = coupon_rate b) ->
  price_bond crv b = Ok (face b).
Proof.
  intros Hc Hne Hf Hn Hq Hy.
  rewrite price_bond_formula by assumption. f_equal.
  rewrite price_formula_split by assumption.
  assert (Hdf : forall i, (i < Z.to_nat (cash_flow_count b))%nat ->
            discount_factor crv (cash_flow_time b i) = 1 / (1 + coupon_rate b) ^ (i + 1)).
  { intros i Hi. unfold discount_factor. rewrite Hy by assumption.
    rewrite float_pow_positive by assumption.
    unfold cash_flow_time. rewrite Hf.
    replace (INR (i + 1) / 1) with (INR (i + 1)) by field.
    rewrite Rpower_pow by assumption. reflexivity. }
  rewrite Hdf by lia.
  rewrite (map_ext_in _ (fun i => 1 / (1 + coupon_rate b) ^ (i + 1)))
    by (intros i Hi; apply in_seq in Hi; apply Hdf; lia).
  rewrite Hf. replace (face b * coupon_rate b / 1) with (face b * coupon_rate b) by field.
  rewrite Rmult_assoc, annuity_at_par by assumption.
  replace (Z.to_nat (cash_flow_count b) - 1 + 1)%nat with (Z.to_nat (cash_flow_count b)) by lia.
  assert (Hp : (1 + coupon_rate b) ^ Z.to_nat (cash_flow_count b) <> 0)
    by (apply pow_nonzero; lra).
  field. assumption.
Qed.

Lemma flat_curve_constructed : constructed flat_curve.
Proof.
  exists example_tenors, example_maturities, [0.05; 0.05; 0.05], "linear"%string.
  unfold __post_init__, np.any, example_maturities. simpl. cmp. reflexivity.
Qed.

Lemma flat_curve_yield t : yield_at flat_curve t = 0.05.
Proof.
  assert (H : 0.05 <= yield_at flat_curve t <= 0.05).
  { apply yield_at_linear_range.
    - apply flat_curve_constructed.
    - discriminate.
    - reflexivity.
    - simpl. repeat constructor; lra. }
  lra.
Qed.

Lemma par_bond_count : cash_flow_count par_bond = 5%Z.
Proof. unfold cash_flow_count. apply round_between. simpl. lra. Qed.

Lemma annual_bond_prices_at_par_witness :
  price_bond flat_curve par_bond = Ok (face par_bond).
Proof.
  apply (annual_bond_prices_at_par flat_curve par_bond flat_curve_constructed).
  - discriminate.
  - reflexivity.
  - rewrite par_bond_count. lia.
  - simpl. lra.
  - intros i _. apply flat_curve_yield.
Defined.

(** ** The risk numbers *)

(** The discount factor is strictly convex in the yield: the mean of the
    factors at [v - d] and [v + d] exceeds the factor at [v]. *)
Lemma discount_convex t v d :
  0 < t -> 0 < d -> 0 < 1 + v - d ->
  2 * (1 / float_pow (1 + v) t)
  < 1 / float_pow (1 + v - d) t + 1 / float_pow (1 + v + d) t.
Proof.
  intros Ht Hd Hb. rewrite !float_pow_positive by lra.
  unfold Rdiv. rewrite !Rmult_1_l, <- !Rpower_Ropp. unfold Rpower.
  set (la := ln (1 + v - d)). set (lb := ln (1 + v + d)). set (lm := ln (1 + v)).
  assert (Hln : la + lb < 2 * lm).
  { unfold la, lb, lm. rewrite <- ln_mult by lra.
    replace (2 * ln (1 + v)) with (ln ((1 + v) * (1 + v))) by (rewrite ln_mult by lra; ring).
    apply ln_increasing; [apply Rmult_lt_0_compat; lra | nra]. }
  set (u := exp (- t * la / 2)). set (w := exp (- t * lb / 2)).
  assert (Hu : exp (- t * la) = u * u).
  { unfold u. rewrite <- exp_plus. f_equal. field. }
  assert (Hw : exp (- t * lb) = w * w).
  { unfold w. rewrite <- exp_plus. f_equal. field. }
  assert (Huw : exp (- t * lm) < u * w).
  { unfold u, w. rewrite <- exp_plus. apply exp_increasing. nra. }
  rewrite Hu, Hw. clearbody u w.
  pose proof (Rle_0_sqr (u - w)) as Hsq. unfold Rsqr in Hsq. lra.
Qed.

Lemma price_formula_convex lo mid hi b d :
  0 < face b -> 0 <= coupon_rate b -> (0 < freq b)%Z -> (1 <= cash_flow_count b)%Z ->
  0 < d ->
  (forall i, (i < Z.to_nat (cash_flow_count b))%nat ->
     0 < 1 + yield_at mid (cash_flow_time b i) - d /\
     yield_at lo (cash_flow_time b i) = yield_at mid (cash_flow_time b i) - d /\
     yield_at hi (cash_flow_time b i) = yield_at mid (cash_flow_time b i) + d) ->
  2 * price_formula mid b < price_formula lo b + price_formula hi b.
Proof.
  intros Hface Hc Hf Hn Hd Hy. unfold price_formula.
  destruct (Z.to_nat (cash_flow_count b)) as [|k] eqn:Hk; [lia|].
  assert (Hsum2 : forall (f g : nat -> R) l,
            np.sum (map f l) + np.sum (map g l) = np.sum (map (fun i => f i + g i) l)).
  { intros f g l. induction l as [|i l IH]; simpl in *; [ring|]. rewrite <- IH. ring. }
  assert (Hscale : forall (f : nat -> R) l,
            2 * np.sum (map f l) = np.sum (map (fun i => 2 * f i) l)).
  { intros f l. induction l as [|i l IH]; simpl in *; [ring|]. rewrite <- IH. ring. }
  rewrite Hsum2, Hscale.
  assert (Hterm : forall i, (i < S k)%nat ->
            2 * discount_factor mid (cash_flow_time b i)
            < discount_factor lo (cash_flow_time b i)
              + discount_factor hi (cash_flow_time b i)).
  { intros i Hi. destruct (Hy i Hi) as (Hb & Hlo & Hhi).
    unfold discount_factor. rewrite Hlo, Hhi.
    replace (1 + (yield_at mid (cash_flow_time b i) - d))
      with (1 + yield_at mid (cash_flow_time b i) - d) by ring.
    replace (1 + (yield_at mid (cash_flow_time b i) + d))
      with (1 + yield_at mid (cash_flow_time b i) + d) by ring.
    apply discount_convex; auto using cash_flow_time_pos. }
  apply sum_map_lt with (j := k).
  - intros i Hi. apply in_seq in Hi.
    pose proof (cash_flow_nonneg b (S k) i Hface Hc Hf).
    pose proof (Hterm i ltac:(lia)). nra.
  - apply in_seq. lia.
  - pose proof (cash_flow_last_pos b k Hface Hc Hf).
    pose proof (Hterm k ltac:(lia)). nra.
Qed.

(** The risk function once the three prices exist. *)
Lemma risk_unfold crv b bp :
  constructed crv -> maturities crv <> [] -> (1 <= cash_flow_count b)%Z ->
  exists cu cd,
    shock_parallel crv bp = Ok cu /\ shock_parallel crv (- bp) = Ok cd /\
    constructed cu /\ constructed cd /\
    maturities cu <> [] /\ maturities cd <> [] /\
    dv01_duration_convexity crv b bp =
    (mod_duration <- truediv (price_formula cd b - price_formula cu b)
                       (2 * price_formula crv b * (bp / 10000)) ;;
     convexity <- truediv (price_formula cd b + price_formula cu b
                           - 2 * price_formula crv b)
                    (price_formula crv b * (bp / 10000) ^ 2) ;;
     Ok [ ("price", price_formula crv b);
          ("price_up_+bp", price_formula cu b);
          ("price_dn_-bp", price_formula cd b);
          ("DV01_per_1bp", (price_formula cd b - price_formula cu b) / 2);
          ("mod_duration", mod_duration);
          ("convexity", convexity) ]%string).
Proof.
  intros Hc Hne Hn.
  destruct (shock_parallel_Ok crv bp Hc) as (cu & Hu & Hcu & _ & Hmu & _).
  destruct (shock_parallel_Ok crv (- bp) Hc) as (cd & Hd & Hcd & _ & Hmd & _).
  exists cu, cd.
  assert (Hneu : maturities cu <> []) by congruence.
  assert (Hned : maturities cd <> []) by congruence.
  repeat (split; [assumption|]).
  unfold dv01_duration_convexity, bp_to_decimal.
  rewrite (price_bond_formula crv b Hc Hne Hn). unfold bind at 1.
  rewrite Hu. unfold bind at 1. rewrite Hd. unfold bind at 1.
  rewrite (price_bond_formula cu b Hcu Hneu Hn). unfold bind at 1.
  rewrite (price_bond_formula cd b Hcd Hned Hn). unfold bind at 1.
  reflexivity.
Qed.

(** X18.  A plain bond has positive risk: for positive face, non-negative
    coupon rate, positive frequency and a [bp > 0] that keeps every
    discount base positive, the risk function returns, and DV01, modified
    duration and convexity are all positive. *)
Theorem plain_bond_has_positive_risk crv b bp :
  constructed crv -> maturities crv <> [] ->
  0 < face b -> 0 <= coupon_rate b -> (0 < freq b)%Z -> (1 <= cash_flow_count b)%Z ->
  0 < bp ->
  (forall i, (i < Z.to_nat (cash_flow_count b))%nat ->
     0 < 1 + yield_at crv (cash_flow_time b i) - bp / 10000) ->
  exists d dv01 mod_duration convexity,
    dv01_duration_convexity crv b bp = Ok d /\
    get d "DV01_per_1bp" = Some dv01 /\
    get d "mod_duration" = Some mod_duration /\
    get d "convexity" = Some convexity /\
    0 < dv01 /\ 0 < mod_duration /\ 0 < convexity.
Proof.
  intros Hc Hne Hface Hcr Hf Hn Hbp Hbase.
  destruct (risk_unfold crv b bp Hc Hne Hn)
    as (cu & cd & Hu & Hd & Hcu & Hcd & Hneu & Hned & Hrisk).
  assert (Hdy : 0 < bp / 10000) by (apply Rdiv_lt_0_compat; lra).
  assert (Hyu : forall t, yield_at cu t = yield_at crv t + bp / 10000)
    by (intros t; apply (shock_parallel_yield_at crv cu bp t Hc Hne Hu)).
  assert (Hyd : forall t, yield_at cd t = yield_at crv t - bp / 10000).
  { intros t. rewrite (shock_parallel_yield_at crv cd (- bp) t Hc Hne Hd).
    unfold Rdiv. ring. }
  assert (Hp0 : 0 < price_formula crv b).
  { apply price_formula_pos; auto. intros i Hi. specialize (Hbase i Hi). lra. }
  assert (Hup : price_formula cu b < price_formula crv b).
  { apply price_formula_antitone; auto. intros i Hi. specialize (Hbase i Hi).
    rewrite Hyu. lra. }
  assert (Hdn : price_formula crv b < price_formula cd b).
  { apply price_formula_antitone; auto. intros i Hi. specialize (Hbase i Hi).
    rewrite Hyd. lra. }
  assert (Hcx : 2 * price_formula crv b < price_formula cd b + price_formula cu b).
  { apply (price_formula_convex cd crv cu b (bp / 10000)); auto. }
  rewrite Hrisk.
  rewrite truediv_Ok by nra. unfold bind at 1.
  rewrite truediv_Ok by (apply Rgt_not_eq; apply Rmult_lt_0_compat; [lra | nra]).
  unfold bind.
  do 4 eexists. split; [reflexivity|].
  split; [reflexivity|]. split; [reflexivity|]. split; [reflexivity|].
  split; [lra|]. split.
  - apply Rdiv_lt_0_compat; [lra | nra].
  - apply Rdiv_lt_0_compat; [lra | apply Rmult_lt_0_compat; [lra | nra]].
Qed.

Lemma plain_bond_has_positive_risk_witness :
  exists d dv01 mod_duration convexity,
    dv01_duration_convexity example_linear example_bond 1 = Ok d /\
    get d "DV01_per_1bp" = Some dv01 /\
    get d "mod_duration" = Some mod_duration /\
    get d "convexity" = Some convexity /\
    0 < dv01 /\ 0 < mod_duration /\ 0 < convexity.
Proof.
  apply (plain_bond_has_positive_risk example_linear example_bond 1
           example_linear_constructed).
  - discriminate.
  - simpl. lra.
  - simpl. lra.
  - simpl. lia.
  - rewrite example_bond_count. lia.
  - lra.
  - intros i _. pose proof (example_linear_yield_ge (cash_flow_time example_bond i)). lra.
Defined.

Lemma price_bond_Ok_formula crv b p :
  constructed crv -> price_bond crv b = Ok p ->
  (1 <= cash_flow_count b)%Z /\ maturities crv <> [] /\ p = price_formula crv b.
Proof.
  intros Hc Hp. destruct (price_bond_Ok_inv crv b p Hp) as [Hn Hne].
  repeat split; auto. rewrite price_bond_formula in Hp by assumption. congruence.
Qed.

Lemma truediv_zero a d : d = 0 -> truediv a d = Raise (ZeroDivisionError "float division by zero").
Proof. intros ->. unfold truediv. rewrite Reqb_refl. reflexivity. Qed.

(** X19.  Once the base price exists, the risk function returns exactly
    when that price and [bp] are both nonzero; a zero price or [bp = 0]
    makes the division for the modified duration raise
    [ZeroDivisionError]: nothing guards the divisor. *)
Theorem risk_divides_by_price_and_bump crv b bp p0 :
  constructed crv -> price_bond crv b = Ok p0 ->
  (returns (dv01_duration_convexity crv b bp) <-> p0 <> 0 /\ bp <> 0) /\
  (p0 = 0 \/ bp = 0 ->
   dv01_duration_convexity crv b bp = Raise (ZeroDivisionError "float division by zero")).
Proof.
  intros Hc Hp. destruct (price_bond_Ok_formula crv b p0 Hc Hp) as (Hn & Hne & ->).
  destruct (risk_unfold crv b bp Hc Hne Hn)
    as (cu & cd & _ & _ & _ & _ & _ & _ & Hrisk).
  assert (Hzero : price_formula crv b = 0 \/ bp = 0 ->
            dv01_duration_convexity crv b bp
            = Raise (ZeroDivisionError "float division by zero")).
  { intros Hz. rewrite Hrisk. rewrite truediv_zero; [reflexivity|].
    destruct Hz as [-> | ->]; unfold Rdiv; ring. }
  split; [|exact Hzero]. split.
  - intros [d Hd].
    destruct (Req_dec_T (price_formula crv b) 0) as [H0|H0];
      [rewrite Hzero in Hd by auto; discriminate|].
    destruct (Req_dec_T bp 0) as [Hb|Hb];
      [rewrite Hzero in Hd by auto; discriminate|].
    auto.
  - intros [H0 Hb]. rewrite Hrisk.
    assert (Hdy : bp / 10000 <> 0).
    { intros Hz. apply Hb. apply Rmult_eq_reg_r with (/ 10000); lra. }
    rewrite truediv_Ok.
    2:{ apply Rmult_integral_contrapositive_currified; [|assumption].
        apply Rmult_integral_contrapositive_currified; [lra | assumption]. }
    unfold bind at 1. rewrite truediv_Ok.
    2:{ apply Rmult_integral_contrapositive_currified; [assumption|].
        apply pow_nonzero; assumption. }
    eexists. reflexivity.
Qed.

Lemma zero_face_bond_price : price_bond example_linear zero_face_bond = Ok 0.
Proof.
  rewrite price_bond_formula, zero_face_price.
  - reflexivity.
  - apply example_linear_constructed.
  - discriminate.
  - rewrite zero_face_bond_count. lia.
Qed.

Lemma risk_divides_by_price_and_bump_witness :
  (returns (dv01_duration_convexity example_linear zero_face_bond 1) <-> 0 <> 0 /\ 1 <> 0) /\
  (0 = 0 \/ 1 = 0 ->
   dv01_duration_convexity example_linear zero_face_bond 1
   = Raise (ZeroDivisionError "float division by zero")).
Proof.
  exact (risk_divides_by_price_and_bump example_linear zero_face_bond 1 0
           example_linear_constructed zero_face_bond_price).
Defined.

(** X20.  The entry "DV01_per_1bp" is the price change for the bump that
    was applied, not for one basis point: it equals modified duration times
    price times [bp / 10000].  Running the function with [-bp] swaps the up
    and down prices and flips the sign of that entry, while modified
    duration and convexity stay the same. *)
Theorem risk_under_negated_bump crv b bp p0 :
  constructed crv -> price_bond crv b = Ok p0 -> p0 <> 0 -> bp <> 0 ->
  exists d d' dv01 mod_duration convexity,
    dv01_duration_convexity crv b bp = Ok d /\
    dv01_duration_convexity crv b (- bp) = Ok d' /\
    get d "DV01_per_1bp" = Some dv01 /\
    get d "mod_duration" = Some mod_duration /\
    get d "convexity" = Some convexity /\
    dv01 = mod_duration * p0 * (bp / 10000) /\
    get d' "DV01_per_1bp" = Some (- dv01) /\
    get d' "mod_duration" = Some mod_duration /\
    get d' "convexity" = Some convexity /\
    get d' "price_up_+bp" = get d "price_dn_-bp" /\
    get d' "price_dn_-bp" = get d "price_up_+bp".
Proof.
  intros Hc Hp H0 Hb. destruct (price_bond_Ok_formula crv b p0 Hc Hp) as (Hn & Hne & ->).
  destruct (risk_unfold crv b bp Hc Hne Hn)
    as (cu & cd & Hu & Hd & _ & _ & _ & _ & Hrisk).
  destruct (risk_unfold crv b (- bp) Hc Hne Hn)
    as (cu' & cd' & Hu' & Hd' & _ & _ & _ & _ & Hrisk').
  rewrite Ropp_involutive in Hd'.
  assert (cu' = cd) by congruence. assert (cd' = cu) by congruence. subst cu' cd'.
  assert (Hdy : bp / 10000 <> 0).
  { intros Hz. apply Hb. apply Rmult_eq_reg_r with (/ 10000); lra. }
  assert (Hdy' : - bp / 10000 <> 0).
  { intros Hz. apply Hdy. unfold Rdiv in *. lra. }
  assert (Hden1 : forall k, k <> 0 -> 2 * price_formula crv b * k <> 0).
  { intros k Hk. apply Rmult_integral_contrapositive_currified; [|assumption].
    apply Rmult_integral_contrapositive_currified; [lra | assumption]. }
  assert (Hden2 : forall k, k <> 0 -> price_formula crv b * k ^ 2 <> 0).
  { intros k Hk. apply Rmult_integral_contrapositive_currified; [assumption|].
    apply pow_nonzero; assumption. }
  rewrite Hrisk, Hrisk'.
  rewrite !truediv_Ok by auto. unfold bind.
  do 5 eexists.
  split; [reflexivity|]. split; [reflexivity|].
  split; [reflexivity|]. split; [reflexivity|]. split; [reflexivity|].
  split; [field; split; [lra | assumption]|].
  split; [simpl; f_equal; field|].
  split; [simpl; f_equal; field; split; [lra | assumption]|].
  split; [simpl; f_equal; field; split; [lra | assumption]|].
  split; reflexivity.
Qed.

Lemma risk_under_negated_bump_witness :
  exists d d' dv01 mod_duration convexity,
    dv01_duration_convexity example_linear example_bond 10 = Ok d /\
    dv01_duration_convexity example_linear example_bond (- 10) = Ok d' /\
    get d "DV01_per_1bp" = Some dv01 /\
    get d "mod_duration" = Some mod_duration /\
    get d "convexity" = Some convexity /\
    dv01 = mod_duration * price_formula example_linear example_bond * (10 / 10000) /\
    get d' "DV01_per_1bp" = Some (- dv01) /\
    get d' "mod_duration" = Some mod_duration /\
    get d' "convexity" = Some convexity /\
    get d' "price_up_+bp" = get d "price_dn_-bp" /\
    get d' "price_dn_-bp" = get d "price_up_+bp".
Proof.
  apply (risk_under_negated_bump example_linear example_bond 10
           (price_formula example_linear example_bond) example_linear_constructed).
  - apply example_price.
  - pose proof example_price_positive. lra.
  - lra.
Defined.

(** ** Building the curve from a row of the table *)

Lemma insert_by_key_perm p l : Permutation (np.insert_by_key p l) (p :: l).
Proof.
  induction l as [|q l IH]; simpl; [apply Permutation_refl|].
  destruct (Rleb (fst p) (fst q)); [apply Permutation_refl|].
  eapply Permutation_trans; [apply perm_skip, IH | apply perm_swap].
Qed.

Lemma sort_by_key_perm l : Permutation (np.sort_by_key l) l.
Proof.
  induction l as [|p l IH]; simpl; [apply Permutation_refl|].
  eapply Permutation_trans; [apply insert_by_key_perm | apply perm_skip, IH].
Qed.

Lemma insert_by_key_sorted p l :
  StronglySorted le_key l -> StronglySorted le_key (np.insert_by_key p l).
Proof.
  induction 1 as [|q l Hs IH Hq]; simpl.
  - constructor; constructor.
  - destruct (Rleb (fst p) (fst q)) eqn:Hpq.
    + apply Rleb_true in Hpq. constructor; [constructor; assumption|].
      constructor; [exact Hpq|].
      eapply Forall_impl; [|exact Hq]. intros r Hr. unfold le_key in *. lra.
    + apply Rleb_false in Hpq. constructor; [exact IH|].
      eapply Permutation_Forall; [apply Permutation_sym, insert_by_key_perm|].
      constructor; [unfold le_key; lra | exact Hq].
Qed.

Lemma sort_by_key_sorted l : StronglySorted le_key (np.sort_by_key l).
Proof.
  induction l as [|p l IH]; simpl; [constructor | apply insert_by_key_sorted, IH].
Qed.

Lemma combine_seq_Forall (a : list R) : forall s,
  Forall (fun p => (s <= snd p)%nat /\ nth (snd p - s) a 0 = fst p)
    (combine a (seq s (length a))).
Proof.
  induction a as [|u a IH]; intros s; [constructor|].
  simpl. constructor.
  - simpl. rewrite Nat.sub_diag. auto.
  - eapply Forall_impl; [|apply (IH (S s))]. intros [k i] [Hle Hnth]. simpl in *.
    split; [lia|]. destruct (i - s)%nat as [|j] eqn:Hj; [lia|].
    replace j with (i - S s)%nat by lia. exact Hnth.
Qed.

Lemma map_fst_combine_seq (a : list R) s : map fst (combine a (seq s (length a))) = a.
Proof.
  revert s. induction a as [|u a IH]; intros s; simpl; [reflexivity|]. rewrite IH. reflexivity.
Qed.

Lemma map_snd_combine_seq (a : list R) s :
  map snd (combine a (seq s (length a))) = seq s (length a).
Proof.
  revert s. induction a as [|u a IH]; intros s; simpl; [reflexivity|]. rewrite IH. reflexivity.
Qed.

(** [np.argsort] returns a reordering of the indices, and reading the
    array in that order gives it in non-decreasing order. *)
Lemma argsort_perm a : Permutation (np.argsort a) (seq 0 (length a)).
Proof.
  unfold np.argsort.
  eapply Permutation_trans; [apply Permutation_map, sort_by_key_perm|].
  rewrite map_snd_combine_seq. apply Permutation_refl.
Qed.

Lemma take_argsort a :
  np.take a (np.argsort a) = map fst (np.sort_by_key (combine a (seq 0 (length a)))).
Proof.
  unfold np.take, np.argsort. rewrite map_map. apply map_ext_in. intros [k i] Hin.
  assert (H : Forall (fun p => (0 <= snd p)%nat /\ nth (snd p - 0) a 0 = fst p)
                (np.sort_by_key (combine a (seq 0 (length a))))).
  { eapply Permutation_Forall; [apply Permutation_sym, sort_by_key_perm|].
    apply combine_seq_Forall. }
  rewrite Forall_forall in H. destruct (H _ Hin) as [_ Hn].
  simpl in *. rewrite Nat.sub_0_r in Hn. exact Hn.
Qed.

Lemma take_argsort_perm a : Permutation (np.take a (np.argsort a)) a.
Proof.
  rewrite take_argsort.
  eapply Permutation_trans; [apply Permutation_map, sort_by_key_perm|].
  rewrite map_fst_combine_seq. apply Permutation_refl.
Qed.

Lemma sorted_keys_increasing (l : list (R * nat)) :
  StronglySorted le_key l -> NoDup (map fst l) -> increasing (map fst l).
Proof.
  induction 1 as [|p l Hs IH Hp]; intros Hnd; [exact I|].
  destruct l as [|q l]; [exact I|].
  simpl map in *. inversion Hnd as [|? ? Hnotin Hnd']; subst.
  split; [|apply IH; assumption].
  inversion Hp as [|? ? Hpq _]; subst. unfold le_key in Hpq.
  destruct (Req_dec_T (fst p) (fst q)) as [He|Hne]; [|lra].
  exfalso. apply Hnotin. left. symmetry. exact He.
Qed.

Lemma take_argsort_increasing a : NoDup a -> increasing (np.take a (np.argsort a)).
Proof.
  intros Hnd. rewrite take_argsort. apply sorted_keys_increasing.
  - apply sort_by_key_sorted.
  - apply (Permutation_NoDup (l := a)); [|assumption].
    apply Permutation_sym.
    eapply Permutation_trans; [apply Permutation_map, sort_by_key_perm|].
    rewrite map_fst_combine_seq. apply Permutation_refl.
Qed.

Lemma argsort_index a i :
  (i < length a)%nat -> (nth i (np.argsort a) 0 < length a)%nat.
Proof.
  intros Hi.
  assert (Hin : In (nth i (np.argsort a) 0%nat) (np.argsort a)).
  { apply nth_In. rewrite (Permutation_length (argsort_perm a)), length_seq. assumption. }
  apply (Permutation_in _ (argsort_perm a)) in Hin. apply in_seq in Hin. lia.
Qed.

Lemma argsort_length a : length (np.argsort a) = length a.
Proof. rewrite (Permutation_length (argsort_perm a)). apply length_seq. Qed.

Lemma lookup_in_keys {A} (d : list (string * A)) k :
  In k (map fst d) -> exists v, lookup d k = Some v.
Proof.
  induction d as [|[k' v] d IH]; intros Hin; [destruct Hin|].
  simpl. destruct (String.eqb k k') eqn:He; [eauto|].
  apply IH. destruct Hin as [Hk|Hin]; [|assumption].
  simpl in Hk. subst k'. rewrite String.eqb_refl in He. discriminate.
Qed.

Lemma getitems_found (d : list (string * R)) ks :
  (forall k, In k ks -> exists v, lookup d k = Some v) ->
  exists vs,
    getitems d ks = Found vs /\ length vs = length ks /\
    forall i, (i < length ks)%nat ->
      lookup d (nth i ks EmptyString) = Some (nth i vs 0).
Proof.
  induction ks as [|k ks IH]; intros Hall.
  - exists []. repeat split. intros i Hi. simpl in Hi. lia.
  - destruct (Hall k (or_introl eq_refl)) as [v Hv].
    destruct IH as (vs & Hvs & Hlen & Hnth); [intros; apply Hall; right; assumption|].
    exists (v :: vs). simpl. unfold getitem. rewrite Hv, Hvs.
    split; [reflexivity|]. split; [simpl; lia|].
    intros [|i] Hi; [exact Hv|]. apply Hnth. lia.
Qed.

(** No two tenor labels of the table stand for the same maturity. *)
Lemma TENOR_TO_YEARS_injective t1 t2 v :
  lookup TENOR_TO_YEARS t1 = Some v -> lookup TENOR_TO_YEARS t2 = Some v -> t1 = t2.
Proof.
  unfold TENOR_TO_YEARS. simpl. intros H1 H2.
  repeat match type of H1 with
  | context [String.eqb t1 ?s] =>
      let E := fresh "E" in destruct (String.eqb t1 s) eqn:E; [apply String.eqb_eq in E|]
  end; try discriminate;
  repeat match type of H2 with
  | context [String.eqb t2 ?s] =>
      let E := fresh "F" in destruct (String.eqb t2 s) eqn:E; [apply String.eqb_eq in E|]
  end; try discriminate;
  injection H1 as H1; injection H2 as H2; subst;
  first [reflexivity | exfalso; lra].
Qed.

Lemma map_nth_seq {A} (l : list A) (d : A) :
  map (fun i => nth i l d) (seq 0 (length l)) = l.
Proof.
  induction l as [|a l IH]; [reflexivity|].
  simpl. f_equal. rewrite <- seq_shift, map_map. exact IH.
Qed.

Lemma nth_map_order {A} (l : list A) (d : A) (order : list nat) i :
  (i < length order)%nat ->
  nth i (map (fun j => nth j l d) order) d = nth (nth i order 0%nat) l d.
Proof.
  intros Hi.
  rewrite (nth_indep _ d ((fun j => nth j l d) 0%nat)) by (rewrite length_map; assumption).
  apply (map_nth (fun j => nth j l d)).
Qed.

(** What [curve_from_df] hands to the constructor: no lookup fails, since
    the tenors are columns of the row and keys of the table. *)
Lemma curve_from_row_build row meth :
  exists ms ys,
    curve_from_row row meth =
      Found (__post_init__
               (map (fun i => nth i (known_tenors row) EmptyString) (np.argsort ms))
               (np.take ms (np.argsort ms)) (np.take ys (np.argsort ms)) meth) /\
    length ms = length (known_tenors row) /\
    length ys = length (known_tenors row) /\
    (forall i, (i < length (known_tenors row))%nat ->
       lookup TENOR_TO_YEARS (nth i (known_tenors row) EmptyString) = Some (nth i ms 0)) /\
    (forall i, (i < length (known_tenors row))%nat ->
       lookup row (nth i (known_tenors row) EmptyString) = Some (nth i ys 0)).
Proof.
  unfold curve_from_row. fold (known_tenors row).
  set (tn := known_tenors row) in *.
  assert (Htn : forall k, In k tn -> contains TENOR_TO_YEARS k = true /\ In k (map fst row)).
  { intros k Hk. apply filter_In in Hk. tauto. }
  destruct (getitems_found TENOR_TO_YEARS tn) as (ms & Hms & Hmlen & Hmnth).
  { intros k Hk. destruct (Htn k Hk) as [Hc _]. unfold contains in Hc.
    destruct (lookup TENOR_TO_YEARS k); [eauto | discriminate]. }
  destruct (getitems_found row tn) as (ys & Hys & Hylen & Hynth).
  { intros k Hk. apply lookup_in_keys. apply Htn. assumption. }
  exists ms, ys. rewrite Hms, Hys. auto.
Qed.

(** X21.  From a row with distinct column labels [curve_from_df] builds a
    curve without a lookup failure (a cubic one needs two known tenors):
    the columns that are no tenor of the table are dropped, the others are
    reordered so that the maturities increase strictly, whatever the column
    order was, and after the reordering every tenor still carries its own
    maturity from the table and its own yield from the row. *)
Theorem curve_from_row_sorts_the_nodes row meth :
  NoDup (map fst row) ->
  (meth = "cubic"%string -> (2 <= length (known_tenors row))%nat) ->
  exists crv,
    curve_from_row row meth = Found (Ok crv) /\
    method crv = meth /\
    Permutation (tenors crv) (known_tenors row) /\
    increasing (maturities crv) /\
    length (maturities crv) = length (tenors crv) /\
    length (yields crv) = length (tenors crv) /\
    forall i, (i < length (tenors crv))%nat ->
      lookup TENOR_TO_YEARS (nth i (tenors crv) EmptyString)
        = Some (nth i (maturities crv) 0) /\
      lookup row (nth i (tenors crv) EmptyString) = Some (nth i (yields crv) 0).
Proof.
  intros Hnd Hcub.
  destruct (curve_from_row_build row meth) as (ms & ys & Hrow & Hmlen & Hylen & Hmnth & Hynth).
  rewrite Hrow. set (tn := known_tenors row) in *.
  assert (Hndtn : NoDup tn) by (apply NoDup_filter; assumption).
  assert (Hndms : NoDup ms).
  { apply (NoDup_nth ms 0). intros i j Hi Hj Heq.
    apply (proj1 (NoDup_nth tn EmptyString) Hndtn); try lia.
    apply (TENOR_TO_YEARS_injective _ _ (nth i ms 0)).
    - apply Hmnth. lia.
    - rewrite Heq. apply Hmnth. lia. }
  set (order := np.argsort ms).
  assert (Holen : length order = length tn) by (unfold order; rewrite argsort_length; lia).
  assert (Hret : returns (__post_init__ (map (fun i => nth i tn EmptyString) order)
                            (np.take ms order) (np.take ys order) meth)).
  { apply post_init_returns_iff. unfold np.take. rewrite !length_map.
    repeat split; auto.
    - apply take_argsort_increasing. assumption.
    - intros Hm. specialize (Hcub Hm). lia. }
  destruct Hret as [crv Hcrv]. exists crv. split; [rewrite Hcrv; reflexivity|].
  destruct (post_init_Ok _ _ _ _ _ Hcrv) as (Ht & Hm & Hy & Hmeth & _ & Hinc & _).
  split; [exact Hmeth|]. rewrite Ht, Hm, Hy. unfold np.take. rewrite !length_map.
  split; [|split; [exact Hinc|split; [reflexivity|split; [reflexivity|]]]].
  - eapply Permutation_trans.
    + apply Permutation_map. unfold order. apply argsort_perm.
    + rewrite Hmlen, map_nth_seq. apply Permutation_refl.
  - intros i Hi.
    assert (Ho : (nth i order 0 < length tn)%nat).
    { unfold order. rewrite <- Hmlen. apply argsort_index. lia. }
    rewrite !nth_map_order by assumption. split; [apply Hmnth | apply Hynth]; assumption.
Qed.

Lemma curve_from_row_sorts_the_nodes_witness :
  exists crv,
    curve_from_row example_row "cubic" = Found (Ok crv) /\
    method crv = "cubic"%string /\
    Permutation (tenors crv) (known_tenors example_row) /\
    increasing (maturities crv) /\
    length (maturities crv) = length (tenors crv) /\
    length (yields crv) = length (tenors crv) /\
    forall i, (i < length (tenors crv))%nat ->
      lookup TENOR_TO_YEARS (nth i (tenors crv) EmptyString)
        = Some (nth i (maturities crv) 0) /\
      lookup example_row (nth i (tenors crv) EmptyString) = Some (nth i (yields crv) 0).
Proof.
  apply (curve_from_row_sorts_the_nodes example_row "cubic").
  - unfold example_row. simpl.
    repeat (apply NoDup_cons; [simpl; intuition discriminate|]). apply NoDup_nil.
  - intros _. simpl. lia.
Defined.

(** X22.  With fewer than two columns that are tenors of the table,
    [curve_from_df] cannot build a cubic curve: the spline fit raises
    [ValueError].  With no such column it still builds a curve under any
    other method, one without nodes, on which every yield query raises
    [IndexError]. *)
Theorem curve_from_row_with_few_tenors row :
  (length (known_tenors row) < 2)%nat ->
  (exists r, curve_from_row row "cubic" = Found r /\ is_ValueError r) /\
  (known_tenors row = [] ->
   forall meth, String.eqb meth "cubic" = false ->
   exists crv, curve_from_row row meth = Found (Ok crv) /\
     maturities crv = [] /\
     forall t, exists msg, y crv t = Raise (IndexError msg)).
Proof.
  intros Hfew. split.
  - destruct (curve_from_row_build row "cubic") as (ms & ys & Hrow & Hmlen & _).
    eexists. split; [exact Hrow|].
    destruct (post_init_result
                (map (fun i => nth i (known_tenors row) EmptyString) (np.argsort ms))
                (np.take ms (np.argsort ms)) (np.take ys (np.argsort ms)) "cubic")
      as [Hret|Herr]; [|exact Herr].
    exfalso. apply post_init_returns_iff in Hret. destruct Hret as (_ & _ & Hcub).
    specialize (Hcub eq_refl). unfold np.take in Hcub.
    rewrite length_map, argsort_length in Hcub. lia.
  - intros Hnil meth Hm.
    destruct (curve_from_row_build row meth) as (ms & ys & Hrow & Hmlen & Hylen & _).
    rewrite Hnil in *. destruct ms; [|discriminate]. destruct ys; [|discriminate].
    rewrite Hrow. unfold __post_init__. simpl. rewrite Hm.
    eexists. split; [reflexivity|]. split; [reflexivity|].
    intros t. apply y_no_node. reflexivity.
Qed.

Lemma curve_from_row_with_few_tenors_witness :
  (exists r, curve_from_row [("Date", 1); ("5Y", 0.045)]%string "cubic" = Found r /\
     is_ValueError r) /\
  (known_tenors [("Date", 1); ("5Y", 0.045)]%string = [] ->
   forall meth, String.eqb meth "cubic" = false ->
   exists crv, curve_from_row [("Date", 1); ("5Y", 0.045)]%string meth = Found (Ok crv) /\
     maturities crv = [] /\
     forall t, exists msg, y crv t = Raise (IndexError msg)).
Proof.
  apply (curve_from_row_with_few_tenors [("Date", 1); ("5Y", 0.045)]%string).
  simpl. lia.
Defined.
